(** * Camera acquisition servers: a shallow embedding and its properties

    The development covers three translation units:

    - [zwocamServ.c], the ZWO ASI178 visible-light camera server
      (module [Zwo]);
    - the FLIR Tau 2 infrared camera server (module [Tau]);
    - [taucamLocal.cc], the stand-alone Tau experiment (module [TauLocal]).

    C [int] and [unsigned int] values are integers in [Z] with the
    wrap-around written out.  A C [double] is the rational it denotes, an
    infinity or NaN; arithmetic on finite values is exact: the rounding of
    IEEE arithmetic, signed zeros and overflow to infinity are outside the
    model.  Routines of libc, of the cli, fh, ss and list libraries and of
    the camera SDKs are not part of the sources; their outcomes enter as
    parameters. *)

From Stdlib Require Import ZArith QArith Qabs Qround Lia Lqa Ascii String.
From stdpp Require Import base option list gmap strings sorting.
Local Open Scope Z_scope.

(** ** Machine integers *)

Definition INT_MAX : Z := 2147483647.

(** Conversion to [int], [unsigned int] and [unsigned short]. *)
Definition wrap32 (z : Z) : Z := (z + 2147483648) mod 4294967296 - 2147483648.
Definition wrapu32 (z : Z) : Z := z mod 4294967296.
Definition wrapu16 (z : Z) : Z := z mod 65536.

(** ** Outcomes of a routine *)

Inductive result (A : Type) : Type :=
| Ok (a : A)
| Fault       (* undefined: access outside an object, NULL dereference,
                 a second free, a cast out of range *)
| Exit        (* the process called exit() *)
| OutOfFuel.  (* the loop budget or the scripted environment ran out *)
Arguments Ok {A} a.
Arguments Fault {A}.
Arguments Exit {A}.
Arguments OutOfFuel {A}.

Definition rbind {A B : Type} (f : A → result B) (r : result A) : result B :=
  match r with
  | Ok a => f a
  | Fault => Fault
  | Exit => Exit
  | OutOfFuel => OutOfFuel
  end.
#[global] Instance result_mbind : MBind result := @rbind.
#[global] Instance result_mret : MRet result := @Ok.

Inductive PASSFAIL : Type := PASS | FAIL.

(** ** Doubles *)

Inductive double : Type :=
| Fin (q : Q)   (* a number *)
| PInf          (* +infinity *)
| NInf          (* -infinity *)
| NaN.

(** Comparisons on numbers. *)
Definition Qltb (a b : Q) : bool := negb (Qle_bool b a).
Definition Qneqb (a b : Q) : bool := negb (Qeq_bool a b).

(** [a < b]: false as soon as one side is NaN. *)
Definition dlt (a b : double) : bool :=
  match a, b with
  | Fin x, Fin y => Qltb x y
  | NInf, Fin _ | NInf, PInf | Fin _, PInf => true
  | _, _ => false
  end.

(** [a != b]: true as soon as one side is NaN. *)
Definition dne (a b : double) : bool :=
  match a, b with
  | Fin x, Fin y => Qneqb x y
  | PInf, PInf | NInf, NInf => false
  | _, _ => true
  end.

(** [a + b] *)
Definition dadd (a b : double) : double :=
  match a, b with
  | Fin x, Fin y => Fin (x + y)
  | NaN, _ | _, NaN => NaN
  | PInf, NInf | NInf, PInf => NaN
  | PInf, _ | _, PInf => PInf
  | NInf, _ | _, NInf => NInf
  end.

(** [a / b]; a zero divisor is taken as +0. *)
Definition ddiv (a b : double) : double :=
  match a, b with
  | NaN, _ | _, NaN => NaN
  | Fin x, Fin y =>
      if Qeq_bool y (0 # 1) then
        if Qeq_bool x (0 # 1) then NaN
        else if Qltb (0 # 1) x then PInf else NInf
      else Fin (x / y)
  | Fin _, _ => Fin (0 # 1)
  | PInf, Fin y => if Qltb y (0 # 1) then NInf else PInf
  | NInf, Fin y => if Qltb y (0 # 1) then PInf else NInf
  | _, _ => NaN
  end.

(** ** Formatted text

    [sprintf] and [ssPutPrintf] are kept symbolic: a format string and its
    arguments. *)

Inductive arg : Type :=
| AChr (c : ascii)
| AStr (s : string)
| AInt (z : Z)
| ALong (z : Z)
| ADbl (d : double).

Inductive text : Type :=
| Lit (s : string)
| Fmt (f : string) (args : list arg).

Definition PASS_CHAR : ascii := "."%char.
Definition FAIL_CHAR : ascii := "!"%char.
Definition IMAGE_CMD : string := "IMAGE".
Definition SEND_BUF_SIZE : Z := 5000.
Definition MIN_GAIN : Z := 0.
Definition MAX_GAIN : Z := 510.

(** Conversion of a number to an integer type: the fraction is
    discarded. *)
Definition Qtrunc (q : Q) : Z := Z.quot (Qnum q) (Z.pos (Qden q)).

(** The cast [(int)d].  C leaves it undefined for NaN, for the infinities
    and when the integral part is outside the range of [int]. *)
Definition to_int (d : double) : result Z :=
  match d with
  | Fin q =>
      if (- 2147483648 <=? Qtrunc q) && (Qtrunc q <=? INT_MAX)
      then Ok (Qtrunc q) else Fault
  | _ => Fault
  end.

(** ** Memory

    Byte buffers obtained from [cli_malloc] and [cli_strdup] live in a heap
    keyed by their address; a pointer is an optional address. *)

Definition loc : Type := positive.
Abbreviation heap := (gmap loc (list Z)).

Definition cli_malloc (h : heap) (contents : list Z) : heap * loc :=
  let p := fresh (dom h) in (<[p := contents]> h, p).

Definition free (h : heap) (p : loc) : result heap :=
  match h !! p with
  | Some _ => Ok (delete p h)
  | None => Fault
  end.

(** ** Per-client information

    [client_info_t] of both servers.  The ZWO server declares [width] and
    [height] and no [frame_count]; the Tau server declares [frame_count] and
    no [width] and [height].  No routine of one server touches the fields
    of the other. *)

Module Client.

Record client_info : Type := mk_client {
  hostname : option loc;
  remote_ip : list Z;
  connect_ts : Z;
  send_data : Z;
  data_count : Z;
  total_count : Z;
  width : Z;
  height : Z;
  image_data : option loc;
  frame_count : Z
}.

(** The four streaming fields replaced, the rest kept. *)
Definition with_stream (c : client_info)
    (sd dc tc : Z) (img : option loc) : client_info :=
  {| hostname := hostname c; remote_ip := remote_ip c;
     connect_ts := connect_ts c;
     send_data := sd; data_count := dc; total_count := tc;
     width := width c; height := height c;
     image_data := img; frame_count := frame_count c |}.

Definition with_size (c : client_info) (w h : Z) : client_info :=
  {| hostname := hostname c; remote_ip := remote_ip c;
     connect_ts := connect_ts c;
     send_data := send_data c; data_count := data_count c;
     total_count := total_count c;
     width := w; height := h;
     image_data := image_data c; frame_count := frame_count c |}.

(** ** Sending binary image data ([client_send_binary])

    The routine is the same text in both servers.  The result is the heap,
    the client and what the hook reports: [None] when [*len] is left
    untouched, [Some chunk] when [chunk] was copied into the I/O buffer and
    [*len] set to its length. *)

(** [memcpy(buffer, image_data + data_count, send_count)] *)
Definition memcpy_from (h : heap) (img : option loc) (off n : Z)
  : result (list Z) :=
  match img with
  | None => Fault
  | Some p =>
      match h !! p with
      | None => Fault
      | Some bytes =>
          if (0 <=? off) && (0 <=? n) && (off + n <=? Z.of_nat (length bytes))
          then Ok (take (Z.to_nat n) (drop (Z.to_nat off) bytes))
          else Fault
      end
  end.

Definition client_send_binary (h : heap) (cinfo : client_info)
  : result (heap * client_info * option (list Z)) :=
  if send_data cinfo =? 0 then Ok (h, cinfo, None)
  else if data_count cinfo =? total_count cinfo then
    (* all the data has been sent: final summary *)
    match image_data cinfo with
    | Some p =>
        h' ← free h p;
        Ok (h', with_stream cinfo 0 0 (total_count cinfo) None, Some [])
    | None =>
        Ok (h, with_stream cinfo 0 0 (total_count cinfo) None, Some [])
    end
  else
    let send_count := wrap32 (total_count cinfo - data_count cinfo) in
    let send_count :=
      if send_count >? SEND_BUF_SIZE then SEND_BUF_SIZE else send_count in
    chunk ← memcpy_from h (image_data cinfo) (data_count cinfo) send_count;
    Ok (h,
        with_stream cinfo (send_data cinfo)
          (wrap32 (data_count cinfo + send_count)) (total_count cinfo)
          (image_data cinfo),
        Some chunk).

(** The connection server calls the hook again and again; [poll n] is the
    trace of [n] successive calls: what each call reported and the send
    cursor it left. *)
Fixpoint poll (n : nat) (h : heap) (cinfo : client_info)
  : result (list (option (list Z) * Z) * heap * client_info) :=
  match n with
  | O => Ok ([], h, cinfo)
  | S n =>
      '(h1, c1, out) ← client_send_binary h cinfo;
      '(tr, h2, c2) ← poll n h1 c1;
      Ok ((out, data_count c1) :: tr, h2, c2)
  end.

End Client.

(** ** Median by selection ([medianCalculation])

    The routine is the same text in [taucamLocal.cc] and in the Tau server.
    Array reads and writes outside the array are faults.  Every loop draws
    on one budget [fuel]. *)

Module Median.

(** The index [i * m]: [i] is an [int], [m] an [unsigned int], the product
    is computed in [unsigned int]. *)

Definition idx (i m : Z) : nat := Z.to_nat (wrapu32 (i * m)).

(** [arr[k]] *)
Definition rd (arr : list Z) (k : nat) : result Z :=
  match arr !! k with
  | Some x => Ok x
  | None => Fault
  end.

(** [ELEM_SWAP(arr[a], arr[b])], the temporary being a [uint16_t] *)
Definition ELEM_SWAP (arr : list Z) (a b : nat) : result (list Z) :=
  t ← rd arr a;
  x ← rd arr b;
  Ok (<[b := wrapu16 t]> (<[a := x]> arr)).

(** [if (arr[a] > arr[b]) ELEM_SWAP(arr[a], arr[b]);] *)
Definition swap_if_gt (arr : list Z) (a b : nat) : result (list Z) :=
  x ← rd arr a;
  y ← rd arr b;
  if y <? x then ELEM_SWAP arr a b else Ok arr.

(** [do ll++; while (arr[low * m] > arr[ll * m]);] *)
Fixpoint scan_up (fuel : nat) (arr : list Z) (m low ll : Z) : result Z :=
  match fuel with
  | O => OutOfFuel
  | S fuel =>
      let ll := wrap32 (ll + 1) in
      p ← rd arr (idx low m);
      x ← rd arr (idx ll m);
      if x <? p then scan_up fuel arr m low ll else Ok ll
  end.

(** [do hh--; while (arr[hh * m] > arr[low * m]);] *)
Fixpoint scan_down (fuel : nat) (arr : list Z) (m low hh : Z) : result Z :=
  match fuel with
  | O => OutOfFuel
  | S fuel =>
      let hh := wrap32 (hh - 1) in
      x ← rd arr (idx hh m);
      p ← rd arr (idx low m);
      if p <? x then scan_down fuel arr m low hh else Ok hh
  end.

(** Nibble from each end towards middle, swapping items when stuck. *)
Fixpoint nibble (fuel : nat) (arr : list Z) (m low ll hh : Z)
  : result (list Z * Z * Z) :=
  match fuel with
  | O => OutOfFuel
  | S fuel =>
      ll ← scan_up fuel arr m low ll;
      hh ← scan_down fuel arr m low hh;
      if hh <? ll then Ok (arr, ll, hh)
      else
        arr ← ELEM_SWAP arr (idx ll m) (idx hh m);
        nibble fuel arr m low ll hh
  end.

(** The outer [for (;;)] loop. *)
Fixpoint select (fuel : nat) (arr : list Z) (m low high median : Z)
  : result (Z * list Z) :=
  match fuel with
  | O => OutOfFuel
  | S fuel =>
      if high <=? low then
        v ← rd arr (idx median m); Ok (v, arr)
      else if high =? wrap32 (low + 1) then
        arr ← swap_if_gt arr (idx low m) (idx high m);
        v ← rd arr (idx median m); Ok (v, arr)
      else
        let middle := Z.quot (wrap32 (low + high)) 2 in
        arr ← swap_if_gt arr (idx middle m) (idx high m);
        arr ← swap_if_gt arr (idx low m) (idx high m);
        arr ← swap_if_gt arr (idx middle m) (idx low m);
        arr ← ELEM_SWAP arr (idx middle m) (idx (wrap32 (low + 1)) m);
        '(arr, ll, hh) ← nibble fuel arr m low (wrap32 (low + 1)) high;
        arr ← ELEM_SWAP arr (idx low m) (idx hh m);
        let low' := if hh <=? median then ll else low in
        let high' := if hh >=? median then wrap32 (hh - 1) else high in
        select fuel arr m low' high' median
  end.

Definition medianCalculation (fuel : nat) (arr : list Z) (n m : Z)
  : result (Z * list Z) :=
  if m =? 0 then Fault
  else
    let n := n / m in
    let low := 0 in
    let high := wrap32 (wrapu32 (n - 1)) in
    let median := Z.quot (wrap32 (low + high)) 2 in
    select fuel arr m low high median.

End Median.

(** ** C strings

    A string is represented by the characters before its terminator; a
    pointer into it by the suffix it points at. *)

Module CString.

Definition NUL : ascii := Ascii.zero.

Definition code (c : ascii) : Z := Z.of_nat (nat_of_ascii c).

Definition toupper (c : ascii) : ascii :=
  if (97 <=? code c) && (code c <=? 122)
  then ascii_of_nat (nat_of_ascii c - 32) else c.

Definition tolower (c : ascii) : ascii :=
  if (65 <=? code c) && (code c <=? 90)
  then ascii_of_nat (nat_of_ascii c + 32) else c.

Definition isspace (c : ascii) : bool :=
  (code c =? 32) || ((9 <=? code c) && (code c <=? 13)).

Definition strlen (s : string) : Z := Z.of_nat (String.length s).

(** [*p]: at the terminator the character read is NUL. *)
Definition deref (p : string) : ascii :=
  match p with
  | EmptyString => NUL
  | String c _ => c
  end.

(** [p++]; stepping over the terminator leaves the string. *)
Definition next (p : string) : result string :=
  match p with
  | EmptyString => Fault
  | String _ r => Ok r
  end.

(** [p + 1] for a pointer [p] that is not at the terminator. *)
Definition tail (p : string) : string :=
  match p with
  | EmptyString => EmptyString
  | String _ r => r
  end.

(** [strchr(s, c)]: the suffix starting at the first [c]. *)
Fixpoint strchr (s : string) (c : ascii) : option string :=
  match s with
  | EmptyString => None
  | String a r => if Ascii.eqb a c then Some s else strchr r c
  end.

(** The part of [s] before the first [c]: what [s] reads as once
    [*strchr(s, c) = 0] has been executed. *)
Fixpoint before (s : string) (c : ascii) : string :=
  match s with
  | EmptyString => EmptyString
  | String a r => if Ascii.eqb a c then EmptyString else String a (before r c)
  end.

Fixpoint strcasecmp (a b : string) : Z :=
  match a, b with
  | EmptyString, EmptyString => 0
  | EmptyString, String d _ => 0 - code (tolower d)
  | String c _, EmptyString => code (tolower c)
  | String c a', String d b' =>
      if code (tolower c) =? code (tolower d) then strcasecmp a' b'
      else code (tolower c) - code (tolower d)
  end.

(** [ltrim]: advance past leading whitespace. *)
Fixpoint ltrim (str : string) : string :=
  match str with
  | EmptyString => EmptyString
  | String c r => if isspace c then ltrim r else str
  end.

(** [rtrim]: [str[++i] = 0] after the last character that is not
    whitespace. *)
Fixpoint rtrim (str : string) : string :=
  match str with
  | EmptyString => EmptyString
  | String c r =>
      match rtrim r with
      | EmptyString => if isspace c then EmptyString else String c EmptyString
      | r' => String c r'
      end
  end.

Definition trim (str : string) : string := rtrim (ltrim str).

(** *** Case insensitive string occurrence search ([stristr], zwocamServ.c) *)

(** [while (toupper( *start) != toupper( *pattern)) { start++; slen--;
    if (slen < plen) return(NULL); }] *)
Fixpoint find_start (fuel : nat) (start pattern : string) (slen plen : Z)
  : result (option (string * Z)) :=
  match fuel with
  | O => OutOfFuel
  | S fuel =>
      if Ascii.eqb (toupper (deref start)) (toupper (deref pattern))
      then Ok (Some (start, slen))
      else
        start ← next start;
        let slen := wrapu32 (slen - 1) in
        if slen <? plen then Ok None
        else find_start fuel start pattern slen plen
  end.

(** [while (toupper( *sptr) == toupper( *pptr)) { sptr++; pptr++;
    if ( *pptr == 0) return (start); }]: [true] when the pattern was
    found, [false] when the loop is left. *)
Fixpoint compare_here (fuel : nat) (sptr pptr : string) : result bool :=
  match fuel with
  | O => OutOfFuel
  | S fuel =>
      if Ascii.eqb (toupper (deref sptr)) (toupper (deref pptr))
      then
        sptr ← next sptr;
        pptr ← next pptr;
        if Ascii.eqb (deref pptr) NUL then Ok true
        else compare_here fuel sptr pptr
      else Ok false
  end.

(** The [for] loop: [slen >= plen] is its test, [start++, slen--] its
    step. *)
Fixpoint stristr_loop (fuel : nat) (start pattern : string) (slen plen : Z)
  : result (option string) :=
  match fuel with
  | O => OutOfFuel
  | S fuel =>
      if slen <? plen then Ok None
      else
        r ← find_start fuel start pattern slen plen;
        match r with
        | None => Ok None
        | Some (start, slen) =>
            found ← compare_here fuel start pattern;
            if (found : bool) then Ok (Some start)
            else
              start ← next start;
              stristr_loop fuel start pattern (wrapu32 (slen - 1)) plen
        end
  end.

Definition stristr (str pattern : string) : result (option string) :=
  stristr_loop (2 + String.length str + String.length pattern)
    str pattern (wrapu32 (strlen str)) (wrapu32 (strlen pattern)).

(** The double quote character, and a string between two of them. *)
Definition dquote : string := String "034"%char EmptyString.
Definition quoted (s : string) : string := (dquote ++ s ++ dquote)%string.


(** [strncmp(a, b, n)]: at most [n] characters are compared. *)
Fixpoint strncmp (a b : string) (n : nat) : Z :=
  match n with
  | O => 0
  | S n =>
      match a, b with
      | EmptyString, EmptyString => 0
      | EmptyString, String d _ => 0 - code d
      | String c _, EmptyString => code c
      | String c a', String d b' =>
          if code c =? code d then strncmp a' b' n else code c - code d
      end
  end.

(** *** [rtrim] as its loop runs

    [for (i = strlen(str) - 1; (i >= 0 && isspace(str[i])); i--);]:
    [rtrim_stop str n] is the value of [i + 1] when the loop, entered with
    [i + 1 = n], is left.  [str[++i] = 0] then cuts the string there. *)
Fixpoint rtrim_stop (str : string) (n : nat) : nat :=
  match n with
  | O => O
  | S i =>
      if isspace (default NUL (String.get i str)) then rtrim_stop str i else n
  end.

Definition rtrim_loop (str : string) : string :=
  String.substring 0 (rtrim_stop str (String.length str)) str.

End CString.


(** ** New connections ([client_add])

    The routine is the same text in both servers.  The client structure
    is the record it returns; [hp] is the host name [gethostbyaddr] found,
    if any, and [now] the reading of [time].  [appendDataToList] of the
    list library is handed [cli_malloc] to allocate the node it links
    into [client_list]: the address of that node is returned as well.
    Nothing in the sources takes a node off the list. *)

(** The bytes of a string, and [cli_strdup]: a copy with its terminator. *)
Definition bytes (s : string) : list Z :=
  map CString.code (list_ascii_of_string s).

Definition cli_strdup (h : heap) (s : string) : heap * loc :=
  cli_malloc h (bytes s ++ [0]).

(** What a list node holds is the business of the list library. *)
Definition list_node : list Z := [].

Definition client_add (h : heap) (remote_ip : list Z) (hp : option string)
    (now : Z) : heap * Client.client_info * loc :=
  let '(h, p) :=
    match hp with
    | None => cli_strdup h "UNKNOWN"
    | Some h_name => cli_strdup h h_name
    end in
  let cinfo :=
    {| Client.hostname := Some p; Client.remote_ip := take 4 remote_ip;
       Client.connect_ts := now;
       Client.send_data := 0; Client.data_count := 0;
       Client.total_count := 0; Client.width := 0; Client.height := 0;
       Client.image_data := None; Client.frame_count := 0 |} in
  (* add the client to the linked list of clients *)
  let '(h, node) := cli_malloc h list_node in
  (h, cinfo, node).

(** ** Library routines

    What libc and the cli library compute, and whether the status server
    takes a value put to it, is not part of the sources. *)

Record strtod_result : Type := {
  sd_value : double;     (* the value returned *)
  sd_error : bool;       (* errno is ERANGE or EINVAL afterwards *)
  sd_stop_at : string    (* what stop_at points at *)
}.

Record library : Type := {
  atoi : string → Z;
  atof : string → double;
  strtod : string → strtod_result;
  cli_arg1 : string → string;
  cli_argv_quoted : string → list string;
  ssPut_ok : string → text → bool   (* ssPutPrintf, ssPutString return PASS *)
}.

(** ** The ZWO camera server ([zwocamServ.c]) *)

Module Zwo.
Import CString.

Definition SS_PATH : string := "/i/dualcam/visible".
Definition SS_ETIME : string := (SS_PATH ++ "/etime")%string.
Definition SS_GAIN : string := (SS_PATH ++ "/gain")%string.
Definition SS_DOME_AZ : string := "/t/status/domeAz".

(** [server_info_t]; the socket, the client list, the SDK handle and the
    exposure timestamps take no part in the routines below and are left
    out.  [etime] holds 0 from start-up or a product of an [int] and the
    step, never an infinity or NaN.  [max_width] and [max_height] are the
    fields [MaxWidth] and [MaxHeight] of [asi_camera_info]; [image_data]
    is the readout buffer, [None] for NULL.  [response_buffer] points at
    the reply buffer of the request being served: the field holds its
    contents. *)
Record server_info : Type := mk_server {
  etime : Q;
  gain : Z;
  image_width : Z;
  image_height : Z;
  max_width : Z;
  max_height : Z;
  frame_sequence : Z;
  image_data : option loc;
  response_buffer : text
}.

(** The process state: [serv_info], the status server and the heap. *)
Record world : Type := mk_world {
  serv : server_info;
  ss : gmap string text;
  mem : heap
}.

Definition set_serv (w : world) (s : server_info) : world :=
  {| serv := s; ss := ss w; mem := mem w |}.

Definition set_response (w : world) (t : text) : world :=
  set_serv w
    {| etime := etime (serv w); gain := gain (serv w);
       image_width := image_width (serv w);
       image_height := image_height (serv w);
       max_width := max_width (serv w); max_height := max_height (serv w);
       frame_sequence := frame_sequence (serv w);
       image_data := image_data (serv w);
       response_buffer := t |}.

Definition set_etime (w : world) (e : Q) : world :=
  set_serv w
    {| etime := e; gain := gain (serv w);
       image_width := image_width (serv w);
       image_height := image_height (serv w);
       max_width := max_width (serv w); max_height := max_height (serv w);
       frame_sequence := frame_sequence (serv w);
       image_data := image_data (serv w);
       response_buffer := response_buffer (serv w) |}.

Definition set_gain (w : world) (g : Z) : world :=
  set_serv w
    {| etime := etime (serv w); gain := g;
       image_width := image_width (serv w);
       image_height := image_height (serv w);
       max_width := max_width (serv w); max_height := max_height (serv w);
       frame_sequence := frame_sequence (serv w);
       image_data := image_data (serv w);
       response_buffer := response_buffer (serv w) |}.

Definition set_frame_sequence (w : world) (n : Z) : world :=
  set_serv w
    {| etime := etime (serv w); gain := gain (serv w);
       image_width := image_width (serv w);
       image_height := image_height (serv w);
       max_width := max_width (serv w); max_height := max_height (serv w);
       frame_sequence := n;
       image_data := image_data (serv w);
       response_buffer := response_buffer (serv w) |}.

Definition set_image_data (w : world) (p : option loc) : world :=
  set_serv w
    {| etime := etime (serv w); gain := gain (serv w);
       image_width := image_width (serv w);
       image_height := image_height (serv w);
       max_width := max_width (serv w); max_height := max_height (serv w);
       frame_sequence := frame_sequence (serv w);
       image_data := p;
       response_buffer := response_buffer (serv w) |}.

Definition set_mem (w : world) (h : heap) : world :=
  {| serv := serv w; ss := ss w; mem := h |}.

Section commands.
Context (L : library).

(** [ssPutPrintf]: the status server holds the value when the put
    passes; a put that fails is only logged by the callers. *)
Definition ssPutPrintf (w : world) (name : string) (t : text) : world :=
  if ssPut_ok L name t
  then {| serv := serv w; ss := <[name := t]> (ss w); mem := mem w |}
  else w.

Definition tgt_min : Q := 1 # 1000.
Definition tgt_max : Q := 600 # 1.
Definition tgt_stp : Q := 1 # 1000.

(** [atoi(s) * 60.0 + atof(colon+1)] with a colon, [atof(s)] without. *)
Definition arg_seconds (s : string) : double :=
  match strchr s ":" with
  | Some colon =>
      dadd (Fin (inject_Z (atoi L s) * (60 # 1))) (atof L (tail colon))
  | None => atof L s
  end.

(** Set the exposure time. *)
Definition com_etime (w : world) (arg : string) : result (PASSFAIL * world) :=
  let s := cli_arg1 L arg in
  let new_etime := arg_seconds s in
  w ←
    (if dne new_etime (Fin (0 # 1)) then
       (* round to nearest tgt_stp *)
       let new_etime := dadd new_etime (Fin (tgt_stp / (2 # 1))) in
       k ← to_int (ddiv new_etime (Fin tgt_stp));
       let new_etime : Q := (inject_Z k * tgt_stp)%Q in
       let new_etime := if Qltb tgt_max new_etime then tgt_max else new_etime in
       let new_etime := if Qltb new_etime tgt_min then tgt_min else new_etime in
       if Qltb (1 # 10000) (Qabs (etime (serv w) - new_etime)%Q)
       then Ok (set_etime w new_etime)
       else Ok w
     else Ok w);
  let w := ssPutPrintf w SS_ETIME (Fmt "%.4f" [ADbl (Fin (etime (serv w)))]) in
  Ok (PASS, set_response w (Fmt ". etime %.3f" [ADbl (Fin (etime (serv w)))])).

(** Set the gain value. *)
Definition com_gain (w : world) (arg : string) : result (PASSFAIL * world) :=
  let s := cli_arg1 L arg in
  let gain := atoi L s in
  if (gain <? MIN_GAIN) || (gain >? MAX_GAIN) then
    Ok (PASS, set_response w (Lit ("! gain " ++ quoted "invalid value")))
  else
    let w := set_gain w gain in
    let w := ssPutPrintf w SS_GAIN (Fmt "%d" [AInt (Zwo.gain (serv w))]) in
    Ok (PASS, set_response w (Fmt ". gain %d" [AInt (Zwo.gain (serv w))])).

Definition com_exit (w : world) (arg : string) : result (PASSFAIL * world) :=
  Ok (PASS, set_response w (Lit "")).

(** The command table. *)
Definition comlist
  : list (string * (world → string → result (PASSFAIL * world))) :=
  [ ("etime <sec>", com_etime);
    ("gain <0..510>", com_gain);
    ("exit", com_exit);
    ("quit", com_exit);
    ("bye", com_exit);
    ("logout", com_exit) ]%string.

End commands.

(** What the camera SDK, the fh library and the file system answer during
    one [takeImage]. *)
Inductive ASI_EXPOSURE_STATUS : Type :=
| ASI_EXP_IDLE
| ASI_EXP_WORKING
| ASI_EXP_SUCCESS
| ASI_EXP_FAILED.

Record env : Type := {
  open_ok : bool;                          (* open(TEMP_FILE) *)
  exp_status : list ASI_EXPOSURE_STATUS;   (* successive ASIGetExpStatus *)
  set_exposure_ok : bool;                  (* ASISetControlValue, exposure *)
  set_gain_ok : bool;                      (* ASISetControlValue, gain *)
  start_exposure_ok : bool;                (* ASIStartExposure *)
  get_data_ok : bool;                      (* ASIGetDataAfterExp *)
  fh_reserve_ok : bool;
  fh_write_ok : bool;
  fh_write_padded_image_ok : bool;
  fstat_ok : bool;
  read_ok : bool;
  file : list Z                            (* the bytes of TEMP_FILE *)
}.

(** Poll [ASIGetExpStatus] until it is no longer "working". *)
Fixpoint wait_exposure (sts : list ASI_EXPOSURE_STATUS)
  : result (ASI_EXPOSURE_STATUS * list ASI_EXPOSURE_STATUS) :=
  match sts with
  | [] => OutOfFuel
  | ASI_EXP_WORKING :: sts => wait_exposure sts
  | st :: sts => Ok (st, sts)
  end.

(** [writeFITSImage]: the header and the pixels go through the fh
    library; the sequence number is incremented while the header is
    filled. *)
Definition writeFITSImage (e : env) (w : world) : result (PASSFAIL * world) :=
  match ss w !! SS_DOME_AZ with
  | None => Exit
  | Some _ =>
      let w := set_frame_sequence w (wrap32 (frame_sequence (serv w) + 1)) in
      if negb (fh_reserve_ok e) then Ok (FAIL, w)
      else if negb (fh_write_ok e) then Ok (FAIL, w)
      else if negb (fh_write_padded_image_ok e) then Ok (FAIL, w)
      else Ok (PASS, w)
  end.

Definition image_fail (msg : string) : text :=
  Fmt ("%c %s " ++ quoted msg) [AChr FAIL_CHAR; AStr IMAGE_CMD].

(** [size = MaxWidth * MaxHeight * sizeof(short)], an [int]. *)
Definition readout_size (w : world) : Z :=
  wrap32 (max_width (serv w) * max_height (serv w) * 2).

(** The number of bytes [cli_malloc(size)] is asked for: [size] as a
    [size_t]. *)
Definition readout_bytes (w : world) : nat :=
  Z.to_nat (readout_size w `mod` 18446744073709551616).

(** Allocate memory for the image, if necessary. *)
Definition readout_buffer (w : world) : world * loc :=
  match image_data (serv w) with
  | Some p => (w, p)
  | None =>
      let '(h, p) := cli_malloc (mem w) (replicate (readout_bytes w) 0) in
      (set_image_data (set_mem w h) (Some p), p)
  end.

(** Take an image and keep the encoded file in memory for the client. *)
Definition takeImage (e : env) (w : world) (cinfo : Client.client_info)
  : result (world * Client.client_info) :=
  if negb (open_ok e) then
    Ok (set_response w
          (image_fail "Unable to save temporary file on the camera server"),
        cinfo)
  else
    '(_, sts) ← wait_exposure (exp_status e);
    if negb (set_exposure_ok e) then
      Ok (set_response w (image_fail "Unable to set exposure time"), cinfo)
    else if negb (set_gain_ok e) then
      Ok (set_response w (image_fail "Unable to set gain"), cinfo)
    else if negb (start_exposure_ok e) then
      Ok (set_response w (image_fail "Unable to start exposure"), cinfo)
    else
      '(st, _) ← wait_exposure sts;
      match st with
      | ASI_EXP_SUCCESS =>
          let '(w, _) := readout_buffer w in
          (* read out the image: the camera fills the buffer, and the fh
             library reads it, whose output is [file] *)
          if negb (get_data_ok e) then
            Ok (set_response w (image_fail "Unable to read out image"), cinfo)
          else
            '(r, w) ← writeFITSImage e w;
            match r with
            | FAIL =>
                Ok (set_response w
                      (image_fail
                         "Unable to save temporary file on the guide server"),
                    cinfo)
            | PASS =>
                if negb (fstat_ok e) then
                  Ok (set_response w
                        (image_fail
                           "Unable to save temporary file on the guide server"),
                      cinfo)
                else
                  let st_size := Z.of_nat (length (file e)) in
                  if negb (read_ok e) then
                    let '(h, p) := cli_malloc (mem w) (replicate (length (file e)) 0) in
                    Ok (set_response (set_mem w h)
                          (image_fail
                             "Unable to retrieve FITS image data from tmpfs"),
                        Client.with_stream cinfo (Client.send_data cinfo)
                          (Client.data_count cinfo) (Client.total_count cinfo)
                          (Some p))
                  else
                    let '(h, p) := cli_malloc (mem w) (file e) in
                    let cinfo :=
                      Client.with_stream cinfo 1 0 (wrap32 st_size) (Some p) in
                    let cinfo :=
                      Client.with_size cinfo (image_width (serv w))
                        (image_height (serv w)) in
                    Ok (set_response (set_mem w h)
                          (Fmt "%c %ld" [AChr PASS_CHAR; ALong st_size]),
                        cinfo)
            end
      | _ => Ok (set_response w (image_fail "Exposure request failed"), cinfo)
      end.

Section hooks.
Context (L : library).
(** [cli_execute] of the cli library: it looks the line up in the command
    table and runs the handler. *)
Context (cli_execute :
  list (string * (world → string → result (PASSFAIL * world))) →
  world → string → result (PASSFAIL * world)).

(** Handle a client disconnecting. *)
Definition client_del (h : heap) (cinfo : Client.client_info) : result heap :=
  match Client.hostname cinfo with
  | Some p => free h p
  | None => Ok h
  end.

(** Handle a command from a client; the reply is left in
    [response_buffer]. *)
Definition client_recv (e : env) (w : world) (cinfo : Client.client_info)
    (buffer : string) : result (world * Client.client_info) :=
  let w := set_response w (Lit buffer) in
  found ← stristr buffer IMAGE_CMD;
  match found with
  | Some _ => takeImage e w cinfo
  | None =>
      '(r, w) ← cli_execute (comlist L) w buffer;
      match r with
      | PASS => Ok (w, cinfo)
      | FAIL => Ok (set_response w (Lit "! Error"), cinfo)
      end
  end.

End hooks.

End Zwo.

(** ** The Tau camera: what the server and [taucamLocal.cc] share *)

Module TauCam.

Definition EXPOSE_TIMEOUT : Q := 5 # 1.
Definition MIN_ETIME : Q := 1 # 10.
Definition MAX_ETIME : Q := 600 # 1.
Definition DEFAULT_ETIME : Q := 1 # 1.

Inductive gain_t : Type := GAIN_AUTO | GAIN_HIGH | GAIN_LOW | GAIN_MANUAL.

(** [server_info_t]; the client list, the socket and the grabber handle
    are left out.  [stack_data] is the accumulator, [None] while it has not
    been allocated. *)
Record server_info : Type := mk_server {
  gain : gain_t;
  etime : double;
  width : Z;
  height : Z;
  stack_data : option (list Z);
  frame_count : Z;
  exp_start_ts : Q
}.

(** One frame as the grabber hands it over. *)
Record TauRawBitmap : Type := mk_bitmap {
  b_width : Z;
  b_height : Z;
  b_data : list Z
}.

Definition set_gain (s : server_info) (g : gain_t) : server_info :=
  {| gain := g; etime := etime s; width := width s; height := height s;
     stack_data := stack_data s; frame_count := frame_count s;
     exp_start_ts := exp_start_ts s |}.

Definition set_etime (s : server_info) (e : double) : server_info :=
  {| gain := gain s; etime := e; width := width s; height := height s;
     stack_data := stack_data s; frame_count := frame_count s;
     exp_start_ts := exp_start_ts s |}.

Definition set_size (s : server_info) (w h : Z) : server_info :=
  {| gain := gain s; etime := etime s; width := w; height := h;
     stack_data := stack_data s; frame_count := frame_count s;
     exp_start_ts := exp_start_ts s |}.

Definition set_stack_data (s : server_info) (d : option (list Z))
  : server_info :=
  {| gain := gain s; etime := etime s; width := width s; height := height s;
     stack_data := d; frame_count := frame_count s;
     exp_start_ts := exp_start_ts s |}.

Definition set_frame_count (s : server_info) (n : Z) : server_info :=
  {| gain := gain s; etime := etime s; width := width s; height := height s;
     stack_data := stack_data s; frame_count := n;
     exp_start_ts := exp_start_ts s |}.

Definition set_exp_start_ts (s : server_info) (t : Q) : server_info :=
  {| gain := gain s; etime := etime s; width := width s; height := height s;
     stack_data := stack_data s; frame_count := frame_count s;
     exp_start_ts := t |}.

(** [width * height], computed in [unsigned int]. *)
Definition pixels (s : server_info) : nat :=
  Z.to_nat (wrapu32 (width s * height s)).

(** [memset(stack_data, 0, width * height * sizeof(int))]; nothing is
    written when the size is 0. *)
Definition clear_stack (s : server_info) : result server_info :=
  match stack_data s with
  | Some d =>
      if decide (pixels s ≤ length d)%nat
      then Ok (set_stack_data s
                 (Some (replicate (pixels s) 0 ++ drop (pixels s) d)))
      else Fault
  | None => if decide (pixels s = 0)%nat then Ok s else Fault
  end.

(** The loop over the pixels of a frame: [update] gives the new value of
    [stack_data[i]] from the old one and [bitmap.data[i]]. *)
Definition stack_loop (update : Z → Z → Z) (n : nat) (stack data : list Z)
  : result (list Z) :=
  if decide (n ≤ length stack ∧ n ≤ length data)%nat
  then Ok (zip_with update (take n stack) (take n data) ++ drop n stack)
  else Fault.

(** [callbackTauImage].  The two files differ in the statement of the
    pixel loop only: [pixel median old new] is the value it assigns to
    [stack_data[i]]. *)
Definition callbackTauImage_with (pixel : Z → Z → Z → Z)
    (s : server_info) (bitmap : TauRawBitmap) : result server_info :=
  (* check if a new image needs to be allocated *)
  let s :=
    match stack_data s with
    | None =>
        let s := set_frame_count s 0 in
        let s := set_size s (b_width bitmap) (b_height bitmap) in
        set_stack_data s (Some (replicate (pixels s) 0))
    | Some _ => s
    end in
  (* make sure that the size of the bitmap is consistent *)
  if negb (b_width bitmap =? width s) || negb (b_height bitmap =? height s)
  then Ok s
  else
    (* not received within the exposure sequence: reset buffer and count *)
    s ←
      (if Qeq_bool (exp_start_ts s) (0 # 1)
       then clear_stack (set_frame_count s 0)
       else Ok s);
    (* make a copy of the image and determine the median background *)
    let n := pixels s in
    image_copy ←
      (if decide (n ≤ length (b_data bitmap))%nat
       then Ok (take n (b_data bitmap)) else Fault);
    '(median, _) ←
      Median.medianCalculation (S (3 * n)) image_copy (Z.of_nat n) 1;
    stack ←
      match stack_data s with
      | Some stack => stack_loop (pixel median) n stack (b_data bitmap)
      | None => Fault
      end;
    Ok (set_frame_count (set_stack_data s (Some stack))
          (wrapu32 (frame_count s + 1))).

(** The capture thread delivering a run of frames. *)
Fixpoint deliver (callback : server_info → TauRawBitmap → result server_info)
    (s : server_info) (frames : list TauRawBitmap) : result server_info :=
  match frames with
  | [] => Ok s
  | b :: frames => s ← callback s b; deliver callback s frames
  end.

(** What the clock, the capture thread, the fh library and the file system
    do during one [takeImage]. *)
Record env : Type := {
  open_ok : bool;
  clock : list Q;                       (* successive getClockTime(), numbers *)
  arrivals : list (list TauRawBitmap);  (* frames delivered during each usleep *)
  fh_write_ok : bool;
  fh_write_padded_image : list Z → option (list Z); (* pixels to file bytes *)
  fstat_ok : bool;
  read_ok : bool
}.

Inductive exposure : Type :=
| Exposed (s : server_info)
| TimedOut (s : server_info).

(** The [do ... while] loop of [takeImage]: sleep, give up when no frame
    has come [EXPOSE_TIMEOUT] seconds after the start, leave when the stop
    time has passed and a frame is there. *)
Fixpoint wait_frames
    (callback : server_info → TauRawBitmap → result server_info)
    (fuel : nat) (s : server_info) (stop_ts : double)
    (clk : list Q) (arr : list (list TauRawBitmap)) : result exposure :=
  match fuel with
  | O => OutOfFuel
  | S fuel =>
      s ← deliver callback s (hd [] arr);
      let arr := tl arr in
      '(timed_out, clk) ←
        (if frame_count s =? 0 then
           match clk with
           | [] => OutOfFuel
           | now :: clk =>
               Ok (Qltb (exp_start_ts s + EXPOSE_TIMEOUT)%Q now, clk)
           end
         else Ok (false, clk));
      if (timed_out : bool) then Ok (TimedOut s)
      else
        match clk with
        | [] => OutOfFuel
        | now :: clk =>
            if dlt (Fin now) stop_ts || (frame_count s =? 0)
            then wait_frames callback fuel s stop_ts clk arr
            else Ok (Exposed s)
        end
  end.

(** Start the capture of the exposure and sleep until it is done. *)
Definition expose
    (callback : server_info → TauRawBitmap → result server_info)
    (e : env) (s : server_info) : result exposure :=
  s ← clear_stack (set_frame_count s 0);
  match clock e with
  | t0 :: t1 :: clk =>
      let s := set_exp_start_ts s t0 in
      let stop_ts := dadd (Fin t1) (etime s) in
      wait_frames callback (length clk) s stop_ts clk (arrivals e)
  | _ => OutOfFuel
  end.

(** The minimum pixel value of the stacked image, as the loop finds it. *)
Definition min_val (stack : list Z) : Z :=
  fold_left (λ m x, if x <? m then x else m) stack 65535.

End TauCam.

(** ** The Tau camera server *)

Module Tau.
Import CString TauCam.

Definition ETIME_CMD : string := "ETIME".
Definition GAIN_CMD : string := "GAIN".
Definition QUIT_CMD : string := "QUIT".
Definition BYE_CMD : string := "BYE".
Definition EXIT_CMD : string := "EXIT".
Definition LOGOUT_CMD : string := "LOGOUT".
Definition GAIN_AUTO_STRING : string := "AUTO".
Definition GAIN_HIGH_STRING : string := "HIGH".
Definition GAIN_LOW_STRING : string := "LOW".
Definition GAIN_MANUAL_STRING : string := "MANUAL".

Definition SS_PATH : string := "/i/dualcam/IR".
Definition SS_ETIME : string := (SS_PATH ++ "/etime")%string.
Definition SS_GAIN : string := (SS_PATH ++ "/gain")%string.
Definition SS_DOME_AZ : string := "/t/status/domeAz".
Definition SS_TEMP : string := (SS_PATH ++ "/temperature")%string.
Definition SS_PRES : string := (SS_PATH ++ "/pressure")%string.
Definition SS_HUMID : string := (SS_PATH ++ "/humidity")%string.

(** The process state: [serv_info], the status server, the gain mode the
    camera was last put in, and the heap. *)
Record world : Type := mk_world {
  serv : server_info;
  ss : gmap string text;
  cam : option gain_t;
  mem : heap
}.

Definition set_serv (w : world) (s : server_info) : world :=
  {| serv := s; ss := ss w; cam := cam w; mem := mem w |}.

Definition set_mem (w : world) (h : heap) : world :=
  {| serv := serv w; ss := ss w; cam := cam w; mem := h |}.

(** [ssPutPrintf] and [ssPutString]: the status server holds the value
    when the put passes; a put that fails is only logged by the callers. *)
Definition ssPut (L : library) (w : world) (name : string) (t : text)
  : world :=
  if ssPut_ok L name t
  then {| serv := serv w; ss := <[name := t]> (ss w); cam := cam w;
          mem := mem w |}
  else w.

(** The pixel loop of the server's callback:
    [stack_data[i] = bitmap.data[i]]. *)
Definition callbackTauImage : server_info → TauRawBitmap → result server_info :=
  callbackTauImage_with (λ median old new, new).

(** Set a new camera gain. *)
Definition applyGain (L : library) (w : world) (gain : gain_t) : world :=
  let gain_string :=
    match gain with
    | GAIN_AUTO => "AUTO"
    | GAIN_LOW => "LOW"
    | GAIN_HIGH => "HIGH"
    | GAIN_MANUAL => "MANUAL"
    end%string in
  let w := {| serv := serv w; ss := ss w; cam := Some gain; mem := mem w |} in
  ssPut L w SS_GAIN (Lit gain_string).

(** Adjust the image by the minimum stack value. *)
Definition image (stack : list Z) (min_val : Z) : list Z :=
  map (λ x, if wrap32 (x - min_val) >? 65535 then 65535
            else wrapu16 (wrap32 (x - min_val))) stack.

(** [writeFITSImage]: PASS or FAIL, and the bytes the file then holds. *)
Definition writeFITSImage (e : env) (w : world)
  : result (PASSFAIL * world * list Z) :=
  match ss w !! SS_DOME_AZ, ss w !! SS_TEMP, ss w !! SS_PRES,
        ss w !! SS_HUMID with
  | Some _, Some _, Some _, Some _ =>
      (* make sure there is actually an image to send back *)
      match stack_data (serv w) with
      | None => Ok (FAIL, w, [])
      | Some stack =>
          if frame_count (serv w) =? 0 then Ok (FAIL, w, [])
          else if negb (fh_write_ok e) then Ok (FAIL, w, [])
          else
            let n := pixels (serv w) in
            if decide (n ≤ length stack)%nat then
              let m := min_val (take n stack) in
              let img := image (take n stack) m in
              let w := set_serv w (set_exp_start_ts (serv w) (0 # 1)) in
              match fh_write_padded_image e img with
              | None => Ok (FAIL, w, [])
              | Some bytes => Ok (PASS, w, bytes)
              end
            else Fault
      end
  | _, _, _, _ => Exit
  end.

Definition image_fail (msg : string) : text :=
  Fmt ("%c %s " ++ quoted msg) [AChr FAIL_CHAR; AStr IMAGE_CMD].

(** Take an image and keep the encoded file in memory for the client. *)
Definition takeImage (e : env) (w : world) (cinfo : Client.client_info)
  : result (world * Client.client_info * text) :=
  if negb (open_ok e) then
    Ok (w, cinfo,
        image_fail "Unable to save temporary file on the camera server")
  else if dlt (etime (serv w)) (Fin MIN_ETIME)
          || dlt (Fin MAX_ETIME) (etime (serv w))
  then Ok (w, cinfo, image_fail "Exposure time isn't set")
  else
    x ← expose callbackTauImage e (serv w);
    match x with
    | TimedOut s => Ok (set_serv w s, cinfo, image_fail "Exposure timeout")
    | Exposed s =>
        let w := set_serv w s in
        '(r, w, bytes) ← writeFITSImage e w;
        match r with
        | FAIL =>
            Ok (set_serv w (set_exp_start_ts (serv w) (0 # 1)), cinfo,
                image_fail "Unable to save temporary file on the guide server")
        | PASS =>
            (* reset the exposure start time *)
            let w := set_serv w (set_exp_start_ts (serv w) (0 # 1)) in
            if negb (fstat_ok e) then
              Ok (w, cinfo,
                  image_fail
                    "Unable to save temporary file on the guide server")
            else
              let st_size := Z.of_nat (length bytes) in
              if negb (read_ok e) then
                let '(h, p) := cli_malloc (mem w) (replicate (length bytes) 0) in
                Ok (set_mem w h,
                    Client.with_stream cinfo (Client.send_data cinfo)
                      (Client.data_count cinfo) (Client.total_count cinfo)
                      (Some p),
                    image_fail "Unable to retrieve FITS image data from tmpfs")
              else
                let '(h, p) := cli_malloc (mem w) bytes in
                Ok (set_mem w h,
                    Client.with_stream cinfo 1 0 (wrap32 st_size) (Some p),
                    Fmt "%c %ld" [AChr PASS_CHAR; ALong st_size])
        end
    end.

(** Handle a client disconnecting. *)
Definition client_del (h : heap) (cinfo : Client.client_info) : result heap :=
  h ← match Client.hostname cinfo with
      | Some p => free h p
      | None => Ok h
      end;
  match Client.image_data cinfo with
  | Some p => free h p
  | None => Ok h
  end.

(** The gain an argument of GAIN names. *)
Definition gain_of_string (a : string) : option gain_t :=
  if strcasecmp a GAIN_AUTO_STRING =? 0 then Some GAIN_AUTO
  else if strcasecmp a GAIN_HIGH_STRING =? 0 then Some GAIN_HIGH
  else if strcasecmp a GAIN_LOW_STRING =? 0 then Some GAIN_LOW
  else if strcasecmp a GAIN_MANUAL_STRING =? 0 then Some GAIN_MANUAL
  else None.

Definition command_fail (cmd msg : string) : text :=
  Fmt ("%c %s " ++ quoted msg) [AChr FAIL_CHAR; AStr cmd].

Definition syntax_error : text :=
  Fmt ("%c " ++ quoted "Syntax error") [AChr FAIL_CHAR].

Section hooks.
Context (L : library).

(** Handle a command from a client. *)
Definition client_recv (e : env) (w : world) (cinfo : Client.client_info)
    (buffer : string) : result (world * Client.client_info * text) :=
  let buf_p := trim buffer in
  match strchr buf_p " " with
  | None =>
      (* commands which don't have any parameters *)
      if (strcasecmp buf_p QUIT_CMD =? 0) || (strcasecmp buf_p BYE_CMD =? 0)
         || (strcasecmp buf_p EXIT_CMD =? 0)
         || (strcasecmp buf_p LOGOUT_CMD =? 0)
      then Ok (w, cinfo, Lit "")
      else if strcasecmp buf_p IMAGE_CMD =? 0 then takeImage e w cinfo
      else if strcasecmp buf_p ETIME_CMD =? 0
      then Ok (w, cinfo, command_fail ETIME_CMD "Argument not specified")
      else if strcasecmp buf_p GAIN_CMD =? 0
      then Ok (w, cinfo, command_fail GAIN_CMD "Argument not specified")
      else Ok (w, cinfo, syntax_error)
  | Some p =>
      (* commands which contain parameters *)
      let cargv := cli_argv_quoted L (tail p) in
      let buf_p := before buf_p " " in
      if strcasecmp buf_p ETIME_CMD =? 0 then
        match cargv with
        | [a] =>
            let r := strtod L a in
            if sd_error r || negb (String.eqb (sd_stop_at r) "")
            then Ok (w, cinfo,
                     command_fail ETIME_CMD "Invalid argument specified")
            else if dlt (sd_value r) (Fin MIN_ETIME)
                    || dlt (Fin MAX_ETIME) (sd_value r)
            then Ok (w, cinfo,
                     command_fail ETIME_CMD "Invalid exposure time specified")
            else
              (* reset the exposure time fields *)
              let s := set_etime (serv w) (sd_value r) in
              let s := set_frame_count s 0 in
              let s := set_exp_start_ts s (0 # 1) in
              let w := set_serv w s in
              r' ← match Client.image_data cinfo with
                   | Some p =>
                       h ← free (mem w) p;
                       Ok (set_mem w h,
                           Client.with_stream cinfo (Client.send_data cinfo)
                             (Client.data_count cinfo)
                             (Client.total_count cinfo) None)
                   | None => Ok (w, cinfo)
                   end;
              let '(w, cinfo) := r' in
              let w :=
                ssPut L w SS_ETIME (Fmt "%.3f" [ADbl (etime (serv w))]) in
              Ok (w, cinfo, Fmt "%c %s" [AChr PASS_CHAR; AStr ETIME_CMD])
        | _ => Ok (w, cinfo,
                   command_fail ETIME_CMD "Invalid argument specified")
        end
      else if strcasecmp buf_p GAIN_CMD =? 0 then
        match cargv with
        | [a] =>
            match gain_of_string a with
            | Some g =>
                let w := set_serv w (set_gain (serv w) g) in
                let w := applyGain L w (gain (serv w)) in
                Ok (w, cinfo, Fmt "%c %s" [AChr PASS_CHAR; AStr GAIN_CMD])
            | None =>
                Ok (w, cinfo,
                    command_fail GAIN_CMD "Invalid gain argument specified")
            end
        | _ => Ok (w, cinfo,
                   command_fail GAIN_CMD "Invalid argument specified")
        end
      else Ok (w, cinfo, syntax_error)
  end.

End hooks.

End Tau.

(** ** [taucamLocal.cc] *)

Module TauLocal.
Import TauCam.

(** The pixel loop of this file's callback:
    [stack_data[i] += bitmap.data[i] - median]. *)
Definition callbackTauImage : server_info → TauRawBitmap → result server_info :=
  callbackTauImage_with (λ median old new, wrap32 (old + (new - median))).

(** Adjust the image by the minimum stack value; the difference is scaled
    by 0.4 and converted to [unsigned short]. *)
Definition image (stack : list Z) (min_val : Z) : list Z :=
  map (λ x, if wrap32 (x - min_val) >? 65535 then 65535
            else wrapu16 (Qtrunc ((4 # 10) * inject_Z (wrap32 (x - min_val)))))
      stack.

(** [writeFITSImage(fd, image)]: when the pixel data cannot be written
    the routine frees [image] before it returns. *)
Definition writeFITSImage (e : env) (h : heap) (image : loc)
  : result (PASSFAIL * heap) :=
  if negb (fh_write_ok e) then Ok (FAIL, h)
  else
    match h !! image with
    | None => Fault
    | Some px =>
        match fh_write_padded_image e px with
        | None => h ← free h image; Ok (FAIL, h)
        | Some _ => Ok (PASS, h)
        end
    end.

Definition image_fail (msg : string) : text :=
  Fmt ("%c %s " ++ CString.quoted msg) [AChr FAIL_CHAR; AStr IMAGE_CMD].

(** [takeImage]: the pixel buffer returned ([None] for NULL) and what was
    written to [buffer], if anything.  [image] is the buffer of
    [unsigned short] and [img_cpy] its copy as [int], which the routine
    frees whatever [writeFITSImage] returned. *)
Definition takeImage (e : env) (s : server_info) (h : heap)
  : result (server_info * heap * option loc * option text) :=
  if negb (open_ok e) then
    Ok (s, h, None,
        Some (image_fail "Unable to save temporary file on the camera server"))
  else if dlt (etime s) (Fin MIN_ETIME) || dlt (Fin MAX_ETIME) (etime s)
  then Ok (s, h, None, Some (image_fail "Exposure time isn't set"))
  else
    x ← expose callbackTauImage e s;
    match x with
    | TimedOut s => Ok (s, h, None, Some (image_fail "Exposure timeout"))
    | Exposed s =>
        let n := pixels s in
        match stack_data s with
        | None => if decide (n = 0)%nat then Ok ([] : list Z) else Fault
        | Some stack =>
            if decide (n ≤ length stack)%nat then Ok (take n stack) else Fault
        end ≫= λ stack,
        let m := min_val stack in
        let '(h, image_p) := cli_malloc h (image stack m) in
        let s := set_exp_start_ts s (0 # 1) in
        let '(h, img_cpy) := cli_malloc h (image stack m) in
        '(r, h) ← writeFITSImage e h img_cpy;
        match r with
        | FAIL =>
            h ← free h img_cpy;
            Ok (s, h, None,
                Some (image_fail
                        "Unable to save temporary file on the guide server"))
        | PASS =>
            h ← free h img_cpy;
            if negb (fstat_ok e) then
              Ok (s, h, None,
                  Some (image_fail
                          "Unable to save temporary file on the guide server"))
            else Ok (s, h, Some image_p, None)
        end
    end.

(** What [takeDifferential] returns: it is declared [PASSFAIL] and returns
    [NULL] when the file cannot be opened. *)
Inductive diff_result : Type := DIFF_NULL | DIFF_FAIL | DIFF_PASS.

(** The loop [img_diff[i] = (int)(img_2[i] - img_1[i])] over the
    [width * height] pixels; an image is [None] for NULL. *)
Definition difference (n : nat) (img_1 img_2 : option (list Z))
  : result (list Z) :=
  if decide (n = 0)%nat then Ok []
  else
    match img_1, img_2 with
    | Some a, Some b =>
        if decide (n ≤ length a ∧ n ≤ length b)%nat
        then Ok (zip_with (λ x1 x2, wrap32 (x2 - x1)) (take n a) (take n b))
        else Fault
    | _, _ => Fault
    end.

(** Take the differential of two images by subtracting them pixel by
    pixel. *)
Definition takeDifferential (e : env) (s : server_info) (h : heap)
    (img_1 img_2 : option (list Z))
  : result (diff_result * server_info * heap * option text) :=
  let '(h, img_diff) := cli_malloc h (replicate (pixels s) 0) in
  diff ← difference (pixels s) img_1 img_2;
  let h := <[img_diff := diff]> h in
  if negb (open_ok e) then
    h ← free h img_diff;
    Ok (DIFF_NULL, s, h,
        Some (image_fail "Unable to save temporary file on the camera server"))
  else
    '(r, h) ← writeFITSImage e h img_diff;
    match r with
    | FAIL =>
        h ← free h img_diff;
        Ok (DIFF_FAIL, set_exp_start_ts s (0 # 1), h,
            Some (image_fail
                    "Unable to save temporary file on the guide server"))
    | PASS =>
        h ← free h img_diff;
        Ok (DIFF_PASS, s, h, None)
    end.

(** The cast [(gain_t)gain]. *)
Definition gain_of_int (gain : Z) : gain_t :=
  if gain =? 0 then GAIN_AUTO
  else if gain =? 1 then GAIN_HIGH
  else if gain =? 2 then GAIN_LOW
  else GAIN_MANUAL.

(** [str_to_gain]: two [if] statements follow each other, and the second
    assigns [gain] on each of its branches. *)
Definition str_to_gain (gain_str : string) : gain_t :=
  let gain : option Z :=        (* [int gain;] holds no value yet *)
    if CString.strncmp "AUTO" gain_str 10 =? 0 then Some 0
    else if CString.strncmp "HIGH" gain_str 10 =? 0 then Some 1
    else None in
  let gain : option Z :=
    if CString.strncmp "LOW" gain_str 10 =? 0 then Some 2
    else if CString.strncmp "MANUAL" gain_str 10 =? 0 then Some 3
    else Some 0 in
  gain_of_int (default 0 gain).

(** [main]: the exposure time [serv_info->etime] holds when the camera is
    initialised.  [argv[1]] gives it in ms, [atoi(argv[1]) / 1000] is an
    integer division, and a value of 0 is replaced by the default. *)
Definition main_etime (L : library) (argv1 : string) : Q :=
  let exposure_time := inject_Z (Z.quot (atoi L argv1) 1000) in
  if Qeq_bool exposure_time (0 # 1) then DEFAULT_ETIME else exposure_time.

End TauLocal.

(** ** Reference library routines

    The behaviour of [atoi], [strtod], [atof], [cli_arg1] and
    [cli_argv_quoted] on blank-separated plain decimal words and on the
    words nan, inf and infinity, and a status server that takes every
    value, for use in examples.  The properties below are stated for
    every [library]. *)

Module Lib.
Import CString.

Definition digit (c : ascii) : option Z :=
  if (48 <=? code c) && (code c <=? 57) then Some (code c - 48) else None.

(** Leading decimal digits: their value, their number, and the rest. *)
Fixpoint digits (s : string) (acc : Z) (n : nat) : Z * nat * string :=
  match s with
  | EmptyString => (acc, n, s)
  | String c r =>
      match digit c with
      | Some d => digits r (10 * acc + d) (S n)
      | None => (acc, n, s)
      end
  end.

Definition signed (s : string) : bool * string :=
  match s with
  | String "-" r => (true, r)
  | String "+" r => (false, r)
  | _ => (false, s)
  end.

Definition atoi (s : string) : Z :=
  let '(neg, s) := signed (ltrim s) in
  let '(v, _, _) := digits s 0 0 in
  wrap32 (if neg then - v else v).

Definition strtod (s : string) : strtod_result :=
  let '(neg, s1) := signed (ltrim s) in
  if strcasecmp s1 "nan" =? 0 then
    {| sd_value := NaN; sd_error := false; sd_stop_at := "" |}
  else if (strcasecmp s1 "inf" =? 0) || (strcasecmp s1 "infinity" =? 0) then
    {| sd_value := if neg then NInf else PInf;
       sd_error := false; sd_stop_at := "" |}
  else
    let '(i, ni, s2) := digits s1 0 0 in
    let '(f, nf, s3) :=
      match s2 with
      | String "." r => digits r 0 0
      | _ => (0, O, s2)
      end in
    if (ni + nf =? 0)%nat then
      {| sd_value := Fin (0 # 1); sd_error := false; sd_stop_at := s |}
    else
      let v := (inject_Z i + inject_Z f / inject_Z (10 ^ Z.of_nat nf))%Q in
      {| sd_value := Fin (if neg then (- v)%Q else v);
         sd_error := false; sd_stop_at := s3 |}.

Definition atof (s : string) : double := sd_value (strtod s).

(** Blank-separated words; a double quote opens and closes a word that
    may hold blanks. *)
Fixpoint words (s : string) (cur : option string) (inq : bool) : list string :=
  match s with
  | EmptyString =>
      match cur with
      | Some w => [w]
      | None => []
      end
  | String c r =>
      if Ascii.eqb c "034" then words r (Some (default "" cur)) (negb inq)
      else if isspace c && negb inq then
        match cur with
        | Some w => w :: words r None false
        | None => words r None false
        end
      else words r (Some (default "" cur ++ String c "")%string) inq
  end.

Definition cli_argv_quoted (s : string) : list string := words s None false.

Definition cli_arg1 (s : string) : string := default "" (head (cli_argv_quoted s)).

Definition reference : library :=
  Build_library atoi atof strtod cli_arg1 cli_argv_quoted (λ _ _, true).

End Lib.

(** * Vocabulary of the statements *)

(** ** Arrays indexed by integers *)

Definition len (arr : list Z) : Z := Z.of_nat (length arr).
Definition get (arr : list Z) (i : Z) : Z := arr !!! Z.to_nat i.
Definition swapZ (arr : list Z) (i j : Z) : list Z :=
  <[Z.to_nat j := get arr i]> (<[Z.to_nat i := get arr j]> arr).
Definition u16 (arr : list Z) : Prop := Forall (λ x, 0 ≤ x < 65536) arr.

(** [swaps lo hi a b]: [b] comes from [a] by exchanging elements at
    positions between [lo] and [hi]. *)
Inductive swaps (lo hi : Z) : list Z → list Z → Prop :=
| swaps_refl arr : swaps lo hi arr arr
| swaps_step arr i j arr' :
    lo ≤ i ≤ hi → lo ≤ j ≤ hi → 0 ≤ i < len arr → 0 ≤ j < len arr →
    swaps lo hi (swapZ arr i j) arr' → swaps lo hi arr arr'.

(** Everything before position [c] is at most everything from [c] on. *)
Definition ordered_at (arr : list Z) (c : Z) : Prop :=
  ∀ i j, 0 ≤ i < c → c ≤ j < len arr → get arr i ≤ get arr j.

(** ** The binary stream *)

(** [streamed h c L]: polled from heap [h], the hook of client [c] hands
    over the image of [L] bytes in chunks, then one empty chunk, then
    nothing; the cursors listed are those the data chunks left. *)
Definition streamed (h : heap) (c : Client.client_info) (L : Z) : Prop :=
  ∃ p data chunks cursors tr h' c',
    Client.image_data c = Some p ∧ h !! p = Some data ∧
    Z.of_nat (length data) = L ∧
    Client.poll (length chunks + 1) h c = Ok (tr, h', c') ∧
    tr.*1 = (Some <$> chunks) ++ [Some []] ∧
    tr.*2 = cursors ++ [0] ∧
    Forall (λ ch, 0 < Z.of_nat (length ch) ≤ SEND_BUF_SIZE) chunks ∧
    concat chunks = data ∧
    StronglySorted Z.le (0 :: cursors) ∧
    Forall (λ x, x ≤ L) cursors ∧
    h' = delete p h ∧ h' !! p = None ∧
    Client.send_data c' = 0 ∧ Client.image_data c' = None ∧
    ∀ m, ∃ tr', Client.poll m h' c' = Ok (tr', h', c') ∧
                Forall (λ o, o.1 = None) tr'.

(** ** Occurrence of a word in a line, letter case ignored *)

Fixpoint upper (s : string) : string :=
  match s with
  | EmptyString => EmptyString
  | String c r => String (CString.toupper c) (upper r)
  end.

(** [occurs_ci pat s]: [s] contains a run of characters that equals [pat]
    once both are put in upper case. *)
Definition occurs_ci (pat s : string) : Prop :=
  ∃ pre mid post, s = (pre ++ mid ++ post)%string ∧ upper mid = upper pat.

Fixpoint has_prefix_ci (pat s : string) : bool :=
  match pat, s with
  | EmptyString, _ => true
  | String _ _, EmptyString => false
  | String p pat', String c s' =>
      Ascii.eqb (CString.toupper c) (CString.toupper p) && has_prefix_ci pat' s'
  end.

Fixpoint find_ci (pat s : string) : option string :=
  if has_prefix_ci pat s then Some s
  else match s with
       | EmptyString => None
       | String _ r => find_ci pat r
       end.

Fixpoint nul_free (s : string) : Prop :=
  match s with
  | EmptyString => True
  | String c r => c ≠ CString.NUL ∧ nul_free r
  end.

(** [lacks c s]: the character [c] is not in [s]. *)
Fixpoint lacks (c : ascii) (s : string) : Prop :=
  match s with
  | EmptyString => True
  | String a r => a ≠ c ∧ lacks c r
  end.

(** ** The argument of the exposure time command *)

(** [seconds L s v]: the argument [s] stands for [v] seconds.  Without a
    colon it is what [atof] makes of it; with one it is what [atoi] makes
    of the argument, taken as minutes, plus what [atof] makes of the part
    after the first colon. *)
Inductive seconds (L : library) (s : string) : double → Prop :=
| seconds_plain : lacks ":" s → seconds L s (atof L s)
| seconds_minutes (m r : string) :
    s = (m ++ ":" ++ r)%string → lacks ":" m →
    seconds L s (dadd (Fin (inject_Z (atoi L s) * (60 # 1))) (atof L r)).

(** ** Names of the gain modes *)

Definition gain_name (g : TauCam.gain_t) : string :=
  match g with
  | TauCam.GAIN_AUTO => "AUTO"
  | TauCam.GAIN_HIGH => "HIGH"
  | TauCam.GAIN_LOW => "LOW"
  | TauCam.GAIN_MANUAL => "MANUAL"
  end.


(** ** Decimals *)

(** The number of thousandths that the conversion [%.3f] prints for [q]:
    [q] rounded to the nearest thousandth. *)
Definition shown3 (q : Q) : Z := Qfloor (q * (1000 # 1) + (1 # 2))%Q.

(** ** Stacking *)

(** The element at index (n-1)/2 of the sorted frame. *)
Definition lower_median (frame : list Z) : Z :=
  default 0 (merge_sort Z.le frame !! Z.to_nat ((len frame - 1) / 2)).

(** A frame with its median taken off every pixel. *)
Definition median_subtracted (frame : list Z) : list Z :=
  map (λ x, x - lower_median frame) frame.

(** The pixel-wise sum of the median-subtracted frames, on [n] pixels. *)
Definition stacked (n : nat) (frames : list (list Z)) : list Z :=
  foldl (zip_with Z.add) (replicate n 0) (median_subtracted <$> frames).


(** ** Blank strings *)

Fixpoint all_space (s : string) : bool :=
  match s with
  | EmptyString => true
  | String c r => CString.isspace c && all_space r
  end.

(** The last character of a string; NUL for the empty string. *)
Fixpoint last_char (s : string) : ascii :=
  match s with
  | EmptyString => CString.NUL
  | String c EmptyString => c
  | String _ r => last_char r
  end.

(** ** Replies *)

(** The pass response of [takeImage]: the number of bytes to expect. *)
Definition image_pass (L : Z) : text := Fmt "%c %ld" [AChr PASS_CHAR; ALong L].

(** ** Every m-th element *)

(** The [n] elements of [arr] at the indices 0, m, 2m, ... *)
Definition strided (arr : list Z) (m n : nat) : list Z :=
  (λ i, arr !!! (i * m)%nat) <$> seq 0 n.

(** [sm] holds the [n] elements of [arr] at the multiples of [m], and
    [arr] is [arr0] at every other index. *)
Definition strided_view (m n : nat) (arr0 arr sm : list Z) : Prop :=
  length sm = n ∧ length arr = length arr0 ∧
  (∀ i, (i < n)%nat → arr !! (i * m)%nat = sm !! i) ∧
  (∀ j, (∀ i, (i < n)%nat → j ≠ (i * m)%nat) → arr !! j = arr0 !! j).

(** ** The frames of an exposure *)

(** A frame of the size of [s] with 16-bit pixels. *)
Definition frame_fits (s : TauCam.server_info) (b : TauCam.TauRawBitmap)
  : Prop :=
  TauCam.b_width b = TauCam.width s ∧ TauCam.b_height b = TauCam.height s ∧
  length (TauCam.b_data b) = TauCam.pixels s ∧ u16 (TauCam.b_data b).

(** [s] is the Tau server inside the exposure window that began in [s0],
    after the frames [fs]: every frame is counted and the accumulator
    holds the pixels of the last one. *)
Definition last_frame_kept (s0 s : TauCam.server_info)
    (fs : list TauCam.TauRawBitmap) : Prop :=
  TauCam.width s = TauCam.width s0 ∧ TauCam.height s = TauCam.height s0 ∧
  Qeq_bool (TauCam.exp_start_ts s) (0 # 1) = false ∧
  Forall (frame_fits s0) fs ∧
  TauCam.frame_count s = wrapu32 (Z.of_nat (length fs)) ∧
  ∃ stack, TauCam.stack_data s = Some stack ∧
           length stack = TauCam.pixels s0 ∧
           ∀ b, last fs = Some b → stack = TauCam.b_data b.

(** The same for taucamLocal.cc: the accumulator holds the sum of the
    median-subtracted frames. *)
Definition frames_summed (s0 s : TauCam.server_info)
    (fs : list TauCam.TauRawBitmap) : Prop :=
  TauCam.width s = TauCam.width s0 ∧ TauCam.height s = TauCam.height s0 ∧
  Qeq_bool (TauCam.exp_start_ts s) (0 # 1) = false ∧
  Forall (frame_fits s0) fs ∧
  TauCam.frame_count s = Z.of_nat (length fs) ∧
  TauCam.stack_data s =
    Some (stacked (TauCam.pixels s0) (TauCam.b_data <$> fs)).

(** ** Example states *)

Module Examples.

(** A client as [client_add] leaves it, the host name aside. *)
Definition new_client : Client.client_info :=
  {| Client.hostname := None; Client.remote_ip := [10; 0; 0; 7];
     Client.connect_ts := 1660000000;
     Client.send_data := 0; Client.data_count := 0; Client.total_count := 0;
     Client.width := 0; Client.height := 0;
     Client.image_data := None; Client.frame_count := 0 |}.

(** The Tau server after start-up, before any frame has come. *)
Definition tau_idle : Tau.world :=
  {| Tau.serv :=
       {| TauCam.gain := TauCam.GAIN_AUTO;
          TauCam.etime := Fin TauCam.DEFAULT_ETIME;
          TauCam.width := 0; TauCam.height := 0; TauCam.stack_data := None;
          TauCam.frame_count := 0; TauCam.exp_start_ts := 0 # 1 |};
     Tau.ss := ∅; Tau.cam := Some TauCam.GAIN_AUTO; Tau.mem := ∅ |}.

(** An environment in which the temporary file cannot be opened. *)
Definition tau_no_file : TauCam.env :=
  {| TauCam.open_ok := false; TauCam.clock := []; TauCam.arrivals := [];
     TauCam.fh_write_ok := true;
     TauCam.fh_write_padded_image := λ img, Some img;
     TauCam.fstat_ok := true; TauCam.read_ok := true |}.

(** The ZWO server before its first exposure, on a sensor of four by
    three pixels. *)
Definition zwo_idle : Zwo.world :=
  {| Zwo.serv :=
       {| Zwo.etime := 1 # 1; Zwo.gain := 100;
          Zwo.image_width := 4; Zwo.image_height := 3;
          Zwo.max_width := 4; Zwo.max_height := 3;
          Zwo.frame_sequence := 0; Zwo.image_data := None;
          Zwo.response_buffer := Lit "" |};
     Zwo.ss := {[ Zwo.SS_DOME_AZ := Lit "181.5" ]};
     Zwo.mem := ∅ |}.

(** A Tau client in the middle of a download: six bytes at address 1,
    none of them sent yet. *)
Definition streaming_client : Client.client_info :=
  {| Client.hostname := None; Client.remote_ip := [10; 0; 0; 7];
     Client.connect_ts := 1660000000;
     Client.send_data := 1; Client.data_count := 0; Client.total_count := 6;
     Client.width := 0; Client.height := 0;
     Client.image_data := Some 1%positive; Client.frame_count := 0 |}.

Definition tau_streaming : Tau.world :=
  {| Tau.serv := Tau.serv tau_idle; Tau.ss := ∅;
     Tau.cam := Some TauCam.GAIN_AUTO;
     Tau.mem := {[ 1%positive := [83; 73; 77; 80; 76; 69] ]} |}.

(** A ZWO client that disconnects with its download pending: the host
    name at address 1, the encoded image at address 2. *)
Definition leaving_client : Client.client_info :=
  {| Client.hostname := Some 1%positive; Client.remote_ip := [10; 0; 0; 7];
     Client.connect_ts := 1660000000;
     Client.send_data := 1; Client.data_count := 0; Client.total_count := 4;
     Client.width := 4; Client.height := 3;
     Client.image_data := Some 2%positive; Client.frame_count := 0 |}.

Definition leaving_heap : heap :=
  {[ 1%positive := [104; 111; 115; 116; 0]; 2%positive := [70; 73; 84; 83] ]}.

(** No frame ever comes: the clock reads 100 s at the start and passes
    105 s at the fifth reading. *)
Definition tau_no_frames : TauCam.env :=
  {| TauCam.open_ok := true;
     TauCam.clock := [100 # 1; 100 # 1; 103 # 1; 104 # 1; 106 # 1];
     TauCam.arrivals := [];
     TauCam.fh_write_ok := true;
     TauCam.fh_write_padded_image := λ img, Some img;
     TauCam.fstat_ok := true; TauCam.read_ok := true |}.

(** A sensor of two pixels; four frames arrive during the first sleep and
    the exposure of one second is over at the third clock reading. *)
Definition bright_left : TauCam.TauRawBitmap :=
  {| TauCam.b_width := 2; TauCam.b_height := 1; TauCam.b_data := [65535; 0] |}.
Definition bright_right : TauCam.TauRawBitmap :=
  {| TauCam.b_width := 2; TauCam.b_height := 1; TauCam.b_data := [0; 65535] |}.

Definition tau_four_frames : TauCam.env :=
  {| TauCam.open_ok := true;
     TauCam.clock := [100 # 1; 100 # 1; 102 # 1];
     TauCam.arrivals := [[bright_left; bright_right; bright_left; bright_right]];
     TauCam.fh_write_ok := true;
     TauCam.fh_write_padded_image := λ img, Some img;
     TauCam.fstat_ok := true; TauCam.read_ok := true |}.

(** A sensor of three pixels inside an exposure window, and two frames. *)
Definition exposing : TauCam.server_info :=
  {| TauCam.gain := TauCam.GAIN_AUTO; TauCam.etime := Fin (1 # 1);
     TauCam.width := 3; TauCam.height := 1;
     TauCam.stack_data := Some [0; 0; 0];
     TauCam.frame_count := 0; TauCam.exp_start_ts := 100 # 1 |}.

Definition frame_a : TauCam.TauRawBitmap :=
  {| TauCam.b_width := 3; TauCam.b_height := 1; TauCam.b_data := [10; 20; 30] |}.
Definition frame_b : TauCam.TauRawBitmap :=
  {| TauCam.b_width := 3; TauCam.b_height := 1; TauCam.b_data := [1; 2; 3] |}.

(** A ZWO exposure that succeeds and a FITS file of six bytes. *)
Definition zwo_exposure : Zwo.env :=
  {| Zwo.open_ok := true;
     Zwo.exp_status :=
       [Zwo.ASI_EXP_IDLE; Zwo.ASI_EXP_WORKING; Zwo.ASI_EXP_SUCCESS];
     Zwo.set_exposure_ok := true; Zwo.set_gain_ok := true;
     Zwo.start_exposure_ok := true; Zwo.get_data_ok := true;
     Zwo.fh_reserve_ok := true; Zwo.fh_write_ok := true;
     Zwo.fh_write_padded_image_ok := true;
     Zwo.fstat_ok := true; Zwo.read_ok := true;
     Zwo.file := [83; 73; 77; 80; 76; 69] |}.


(** The ZWO server and its client after the exposure [zwo_exposure]: the
    readout buffer at address 1, the encoded image at address 2. *)
Definition zwo_exposed : Zwo.world :=
  Zwo.set_response
    (Zwo.set_mem
       (Zwo.set_frame_sequence
          (Zwo.set_image_data zwo_idle (Some 1%positive)) 1)
       {[ 1%positive := replicate 24 0;
          2%positive := Zwo.file zwo_exposure ]})
    (image_pass 6).

Definition zwo_armed_client : Client.client_info :=
  Client.with_size (Client.with_stream new_client 1 0 6 (Some 2%positive))
    4 3.

(** The ZWO server holding the buffers of [leaving_client], and what the
    exposure [zwo_exposure] makes of both. *)
Definition zwo_pending : Zwo.world := Zwo.set_mem zwo_idle leaving_heap.

Definition zwo_pending_exposed : Zwo.world :=
  Zwo.set_response
    (Zwo.set_mem
       (Zwo.set_frame_sequence
          (Zwo.set_image_data zwo_pending (Some 3%positive)) 1)
       (<[4%positive := Zwo.file zwo_exposure]>
          (<[3%positive := replicate 24 0]> leaving_heap)))
    (image_pass 6).

Definition zwo_rearmed_client : Client.client_info :=
  Client.with_size (Client.with_stream leaving_client 1 0 6 (Some 4%positive))
    4 3.

(** A session on the ZWO server: the client as [client_add] leaves it,
    with its host name at address 1 and its list node at address 2, and
    the server and the client after the exposure [zwo_exposure], the
    readout buffer at address 3 and the encoded image at address 4. *)
Definition zwo_connected : Client.client_info :=
  {| Client.hostname := Some 1%positive; Client.remote_ip := [10; 0; 0; 7];
     Client.connect_ts := 1660000000;
     Client.send_data := 0; Client.data_count := 0; Client.total_count := 0;
     Client.width := 0; Client.height := 0;
     Client.image_data := None; Client.frame_count := 0 |}.

Definition zwo_session_heap : heap :=
  {[ 1%positive := bytes "asiva" ++ [0]; 2%positive := list_node ]}.

Definition zwo_session : Zwo.world :=
  Zwo.set_response
    (Zwo.set_mem
       (Zwo.set_frame_sequence
          (Zwo.set_image_data zwo_idle (Some 3%positive)) 1)
       (<[4%positive := Zwo.file zwo_exposure]>
          (<[3%positive := replicate 24 0]> zwo_session_heap)))
    (image_pass 6).

Definition zwo_session_client : Client.client_info :=
  Client.with_size (Client.with_stream zwo_connected 1 0 6 (Some 4%positive))
    4 3.

(** The Tau server after the exposure [tau_no_frames] has timed out. *)
Definition tau_timed_out : Tau.world :=
  Tau.set_serv tau_idle
    (TauCam.set_exp_start_ts (TauCam.set_frame_count (Tau.serv tau_idle) 0)
       (100 # 1)).

(** The Tau server with the status server values the FITS header needs,
    one frame of three pixels stacked. *)
Definition tau_stacked : Tau.world :=
  {| Tau.serv :=
       TauCam.set_frame_count
         (TauCam.set_stack_data exposing (Some [30; 10; 20])) 1;
     Tau.ss := {[ Tau.SS_DOME_AZ := Lit "181.5"; Tau.SS_TEMP := Lit "4.2";
                  Tau.SS_PRES := Lit "614"; Tau.SS_HUMID := Lit "12" ]};
     Tau.cam := Some TauCam.GAIN_AUTO; Tau.mem := ∅ |}.

(** Two frames of three pixels arrive during the first sleep of an
    exposure of one second that is over at the third clock reading; the
    FITS library writes one byte for each pixel. *)
Definition tau_two_frames : TauCam.env :=
  {| TauCam.open_ok := true;
     TauCam.clock := [100 # 1; 100 # 1; 102 # 1];
     TauCam.arrivals := [[frame_a; frame_b]];
     TauCam.fh_write_ok := true;
     TauCam.fh_write_padded_image := λ img, Some img;
     TauCam.fstat_ok := true; TauCam.read_ok := true |}.

(** The same two frames, one in each of two sleeps: the exposure of one
    second runs to the fourth clock reading, and the frame of the third
    sleep comes after the loop has ended. *)
Definition tau_two_sleeps : TauCam.env :=
  {| TauCam.open_ok := true;
     TauCam.clock := [100 # 1; 100 # 1; 201 # 2; 102 # 1];
     TauCam.arrivals := [[frame_a]; [frame_b]; [frame_a]];
     TauCam.fh_write_ok := true;
     TauCam.fh_write_padded_image := λ img, Some img;
     TauCam.fstat_ok := true; TauCam.read_ok := true |}.

(** The Tau server and its client after either exposure. *)
Definition tau_served : Tau.world :=
  Tau.set_mem
    (Tau.set_serv tau_stacked
       (TauCam.set_exp_start_ts
          (TauCam.set_frame_count
             (TauCam.set_stack_data exposing (Some [1; 2; 3])) 2) (0 # 1)))
    {[ 1%positive := [0; 1; 2] ]}.

Definition tau_armed_client : Client.client_info :=
  Client.with_stream new_client 1 0 3 (Some 1%positive).

(** taucamLocal.cc after either exposure; the image it returns is at
    address 1. *)
Definition local_exposed : TauCam.server_info :=
  TauCam.set_exp_start_ts
    (TauCam.set_frame_count
       (TauCam.set_stack_data exposing (Some [-11; 0; 11])) 2) (0 # 1).

End Examples.

(** * Properties *)

(** ** The median routine *)

Section median_proof.
Import Median.
Implicit Types (arr : list Z) (i j k : Z).


Lemma wrap32_id z : -2147483648 ≤ z < 2147483648 → wrap32 z = z.
Proof. intros. unfold wrap32. rewrite Z.mod_small; lia. Qed.

Lemma wrapu32_id z : 0 ≤ z < 4294967296 → wrapu32 z = z.
Proof. intros. unfold wrapu32. rewrite Z.mod_small; lia. Qed.

Lemma wrapu16_id z : 0 ≤ z < 65536 → wrapu16 z = z.
Proof. intros. unfold wrapu16. rewrite Z.mod_small; lia. Qed.

Lemma bind_Ok {A B} (a : A) (f : A → result B) : (Ok a ≫= f) = f a.
Proof. reflexivity. Qed.

Lemma idx_1 i : 0 ≤ i < 4294967296 → idx i 1 = Z.to_nat i.
Proof. intros. unfold idx. rewrite Z.mul_1_r, wrapu32_id; auto. Qed.

Lemma rd_get arr i : 0 ≤ i < len arr → rd arr (Z.to_nat i) = Ok (get arr i).
Proof.
  intros H. unfold rd, get, len in *.
  rewrite (list_lookup_lookup_total_lt arr (Z.to_nat i)) by lia. reflexivity.
Qed.

Lemma u16_get arr i : u16 arr → 0 ≤ i < len arr → 0 ≤ get arr i < 65536.
Proof.
  intros Hu H. unfold u16, get, len in *.
  rewrite Forall_lookup in Hu. apply (Hu (Z.to_nat i)).
  apply list_lookup_lookup_total_lt. lia.
Qed.

Lemma len_swapZ arr i j : len (swapZ arr i j) = len arr.
Proof. unfold len, swapZ. by rewrite !length_insert. Qed.

Lemma get_swapZ arr i j k :
  0 ≤ i < len arr → 0 ≤ j < len arr → 0 ≤ k < len arr →
  get (swapZ arr i j) k =
    if decide (k = j) then get arr i
    else if decide (k = i) then get arr j else get arr k.
Proof.
  intros Hi Hj Hk. unfold get, swapZ, len in *.
  destruct (decide (k = j)) as [->|Hkj].
  - rewrite list_lookup_total_insert_eq; [done|]. rewrite length_insert. lia.
  - rewrite list_lookup_total_insert_ne by lia.
    destruct (decide (k = i)) as [->|Hki].
    + rewrite list_lookup_total_insert_eq; [done|lia].
    + rewrite list_lookup_total_insert_ne by lia. done.
Qed.

Lemma ELEM_SWAP_swapZ arr i j :
  u16 arr → 0 ≤ i < len arr → 0 ≤ j < len arr →
  ELEM_SWAP arr (Z.to_nat i) (Z.to_nat j) = Ok (swapZ arr i j).
Proof.
  intros Hu Hi Hj. unfold ELEM_SWAP.
  rewrite !rd_get by done. rewrite !bind_Ok.
  rewrite wrapu16_id by (by apply u16_get). done.
Qed.

Lemma insert_head_perm (l : list Z) (n : nat) (x b : Z) :
  l !! n = Some b → b :: <[n := x]> l ≡ₚ x :: l.
Proof.
  revert n. induction l as [|y l IH]; intros [|n] H; simplify_eq/=.
  - apply perm_swap.
  - rewrite (perm_swap y b). rewrite (IH n H). apply perm_swap.
Qed.

Lemma swap_insert_perm (l : list Z) (n1 n2 : nat) (a b : Z) :
  l !! n1 = Some a → l !! n2 = Some b →
  <[n2 := a]> (<[n1 := b]> l) ≡ₚ l.
Proof.
  revert n1 n2. induction l as [|y l IH]; intros [|n1] [|n2] H1 H2; simplify_eq/=.
  - done.
  - by apply insert_head_perm.
  - by apply insert_head_perm.
  - f_equiv. by apply IH.
Qed.

Lemma swapZ_perm arr i j :
  0 ≤ i < len arr → 0 ≤ j < len arr → swapZ arr i j ≡ₚ arr.
Proof.
  intros Hi Hj. unfold swapZ, get, len in *.
  apply swap_insert_perm; apply list_lookup_lookup_total_lt; lia.
Qed.

Lemma swapZ_u16 arr i j :
  u16 arr → 0 ≤ i < len arr → 0 ≤ j < len arr → u16 (swapZ arr i j).
Proof.
  intros Hu Hi Hj. unfold u16. by rewrite swapZ_perm.
Qed.

End median_proof.

Section median_order.
Import Median.
Implicit Types (arr : list Z) (i j k : Z).


Lemma swaps_one lo hi arr i j :
  lo ≤ i ≤ hi → lo ≤ j ≤ hi → 0 ≤ i < len arr → 0 ≤ j < len arr →
  swaps lo hi arr (swapZ arr i j).
Proof. intros. apply (swaps_step lo hi arr i j); auto. apply swaps_refl. Qed.

Lemma swaps_trans lo hi a b c :
  swaps lo hi a b → swaps lo hi b c → swaps lo hi a c.
Proof.
  induction 1 as [|arr i j arr' ????? IH]; intros; [done|].
  apply (swaps_step lo hi arr i j); auto.
Qed.

Lemma swaps_weaken lo hi lo' hi' a b :
  lo' ≤ lo → hi ≤ hi' → swaps lo hi a b → swaps lo' hi' a b.
Proof.
  intros ??. induction 1 as [|arr i j arr' ????? IH]; [apply swaps_refl|].
  apply (swaps_step lo' hi' arr i j); auto; lia.
Qed.

Lemma swaps_len lo hi a b : swaps lo hi a b → len b = len a.
Proof. induction 1; [done|]. by rewrite IHswaps, len_swapZ. Qed.

Lemma swaps_perm lo hi a b : swaps lo hi a b → b ≡ₚ a.
Proof. induction 1; [done|]. by rewrite IHswaps, swapZ_perm. Qed.

Lemma swaps_u16 lo hi a b : swaps lo hi a b → u16 a → u16 b.
Proof. intros H Hu. unfold u16. by rewrite (swaps_perm _ _ _ _ H). Qed.

Lemma swaps_outside lo hi a b k :
  swaps lo hi a b → k < lo ∨ hi < k → 0 ≤ k < len a → get b k = get a k.
Proof.
  induction 1 as [|arr i j arr' ????? IH]; intros Hk Hr; [done|].
  rewrite IH by (rewrite ?len_swapZ; done).
  rewrite get_swapZ by done. repeat case_decide; lia || done.
Qed.

Lemma swapZ_ordered_at arr i j c :
  0 ≤ i < len arr → 0 ≤ j < len arr →
  (c ≤ i ∧ c ≤ j) ∨ (i < c ∧ j < c) →
  ordered_at arr c → ordered_at (swapZ arr i j) c.
Proof.
  intros Hi Hj Hc Ho a b Ha Hb. rewrite len_swapZ in Hb.
  rewrite !get_swapZ by lia.
  repeat case_decide; subst; apply Ho; lia.
Qed.

Lemma swaps_ordered_at lo hi a b c :
  swaps lo hi a b → c ≤ lo ∨ hi < c → ordered_at a c → ordered_at b c.
Proof.
  induction 1 as [|arr i j arr' ????? IH]; intros Hc Ho; [done|].
  apply IH; [done|]. apply swapZ_ordered_at; [done..|lia|done].
Qed.

(** Order statistics: an element that has only smaller-or-equal elements
    before it and only greater-or-equal elements after it sits where the
    sorted array has it. *)

Lemma filter_none (P : Z → Prop) `{∀ x, Decision (P x)} (l : list Z) :
  Forall (λ x, ¬ P x) l → filter P l = [].
Proof.
  induction 1 as [|x l Hx _ IH]; [done|].
  by rewrite filter_cons_False.
Qed.

Lemma filter_all (P : Z → Prop) `{∀ x, Decision (P x)} (l : list Z) :
  Forall P l → filter P l = l.
Proof.
  induction 1 as [|x l Hx _ IH]; [done|].
  rewrite filter_cons_True by done. by rewrite IH.
Qed.

Lemma filter_length_le (P : Z → Prop) `{∀ x, Decision (P x)} (l : list Z) (m : nat) :
  (∀ (n : nat) x, (m ≤ n)%nat → l !! n = Some x → ¬ P x) →
  (length (filter P l) ≤ m)%nat.
Proof.
  intros Hn. rewrite <-(take_drop m l), filter_app, length_app.
  assert (filter P (drop m l) = []) as ->.
  { apply filter_none, Forall_lookup. intros n x Hk. rewrite lookup_drop in Hk.
    apply (Hn (m + n)%nat x); [lia|done]. }
  pose proof (length_filter P (take m l)). rewrite length_take in *. simpl. lia.
Qed.

Lemma filter_length_ge (P : Z → Prop) `{∀ x, Decision (P x)} (l : list Z) (m : nat) :
  (m ≤ length l)%nat →
  (∀ (n : nat) x, (n < m)%nat → l !! n = Some x → P x) →
  (m ≤ length (filter P l))%nat.
Proof.
  intros Hm Hn. rewrite <-(take_drop m l), filter_app, length_app.
  assert (filter P (take m l) = take m l) as ->.
  { apply filter_all, Forall_lookup. intros n x Hk.
    apply lookup_take_Some in Hk as [Hk ?]. by apply (Hn n x). }
  rewrite length_take. lia.
Qed.

Lemma sorted_lookup_le (s : list Z) (a b : nat) x y :
  StronglySorted Z.le s → (a ≤ b)%nat → s !! a = Some x → s !! b = Some y → x ≤ y.
Proof.
  intros Hs. revert a b. induction Hs as [|z s Hs IH Hz]; intros a b Hab Ha Hb.
  - done.
  - destruct a as [|a], b as [|b]; simplify_eq/=; [lia|..|lia|].
    + rewrite Forall_lookup in Hz. by apply (Hz b).
    + apply (IH a b); [lia|done..].
Qed.

Lemma sorted_position arr (s : list Z) (m : Z) :
  0 ≤ m < len arr → ordered_at arr m → ordered_at arr (m + 1) →
  s ≡ₚ arr → StronglySorted Z.le s →
  s !! Z.to_nat m = Some (get arr m).
Proof.
  intros Hm Ho1 Ho2 Hp Hs. unfold len in Hm.
  assert (length s = length arr) as Hlen by by rewrite Hp.
  destruct (s !! Z.to_nat m) as [y|] eqn:Hy;
    [|apply lookup_ge_None in Hy; lia].
  f_equal. set (x := get arr m).
  assert (∀ (n : nat) v, arr !! n = Some v → v = get arr (Z.of_nat n)) as Hget.
  { intros n v Hv. unfold get. rewrite Nat2Z.id.
    by rewrite (list_lookup_total_correct _ _ _ Hv). }
  destruct (Z.lt_trichotomy y x) as [Hlt|[->|Hgt]]; [exfalso| done |exfalso].
  - (* the sorted array would hold more than m elements below x *)
    pose proof (filter_length_le (λ v, v < x) arr (Z.to_nat m)) as Hle.
    pose proof (filter_length_ge (λ v, v < x) s (S (Z.to_nat m))) as Hge.
    rewrite (filter_Permutation _ _ _ Hp) in Hge.
    enough (S (Z.to_nat m) ≤ Z.to_nat m)%nat by lia.
    etrans; [apply Hge|apply Hle].
    + apply lookup_lt_Some in Hy. lia.
    + intros n v Hn Hv.
      assert (v ≤ y); [|lia].
      apply (sorted_lookup_le s n (Z.to_nat m)); [done|lia|done..].
    + intros n v Hn Hv. pose proof (lookup_lt_Some _ _ _ Hv).
      rewrite (Hget n v Hv). subst x.
      destruct (decide (Z.of_nat n = m)) as [<-|]; [lia|].
      pose proof (Ho2 m (Z.of_nat n)). unfold len in *. lia.
  - (* the sorted array would hold fewer than m + 1 elements up to x *)
    pose proof (filter_length_le (λ v, v ≤ x) s (Z.to_nat m)) as Hle.
    pose proof (filter_length_ge (λ v, v ≤ x) arr (S (Z.to_nat m))) as Hge.
    rewrite <-(filter_Permutation _ _ _ Hp) in Hge.
    enough (S (Z.to_nat m) ≤ Z.to_nat m)%nat by lia.
    etrans; [apply Hge|apply Hle].
    + lia.
    + intros n v Hn Hv. rewrite (Hget n v Hv). subst x.
      destruct (decide (Z.of_nat n = m)) as [<-|]; [lia|].
      pose proof (Ho1 (Z.of_nat n) m). unfold len in *. lia.
    + intros n v Hn Hv.
      assert (y ≤ v); [|lia].
      apply (sorted_lookup_le s (Z.to_nat m) n); [done|lia|done..].
Qed.

End median_order.

Section median_loops.
Import Median.
Implicit Types (arr : list Z) (i j k : Z).

Ltac unwrap := rewrite ?wrap32_id, ?idx_1 by lia.

Lemma scan_up_spec fuel arr low ll s :
  len arr ≤ 1073741824 →
  0 ≤ low < len arr → 0 ≤ ll → ll < s < len arr →
  get arr low ≤ get arr s →
  (Z.to_nat (s - ll) ≤ fuel)%nat →
  ∃ ll', scan_up fuel arr 1 low ll = Ok ll' ∧ ll < ll' ≤ s ∧
         get arr low ≤ get arr ll' ∧
         ∀ k, ll < k < ll' → get arr k < get arr low.
Proof.
  intros Hn Hlow. revert ll.
  induction fuel as [|fuel IH]; intros ll Hll Hs Hsent Hfuel; [lia|].
  simpl. unwrap. rewrite !rd_get, !bind_Ok by lia.
  destruct (get arr (ll + 1) <? get arr low) eqn:Hc.
  - apply Z.ltb_lt in Hc.
    assert (ll + 1 ≠ s) by (intros E; rewrite E in Hc; lia).
    destruct (IH (ll + 1)) as (ll' & -> & ? & ? & Hk); [lia|lia|done|lia|].
    exists ll'. split_and!; try done; try lia.
    intros k ?. destruct (decide (k = ll + 1)) as [->|]; [done|apply Hk; lia].
  - apply Z.ltb_ge in Hc. exists (ll + 1). split_and!; try done; try lia.
Qed.

Lemma scan_down_spec fuel arr low hh s :
  len arr ≤ 1073741824 →
  0 ≤ low < len arr → hh ≤ len arr → 0 ≤ s < hh →
  get arr s ≤ get arr low →
  (Z.to_nat (hh - s) ≤ fuel)%nat →
  ∃ hh', scan_down fuel arr 1 low hh = Ok hh' ∧ s ≤ hh' < hh ∧
         get arr hh' ≤ get arr low ∧
         ∀ k, hh' < k < hh → get arr low < get arr k.
Proof.
  intros Hn Hlow. revert hh.
  induction fuel as [|fuel IH]; intros hh Hhh Hs Hsent Hfuel; [lia|].
  simpl. unwrap. rewrite !rd_get, !bind_Ok by lia.
  destruct (get arr low <? get arr (hh - 1)) eqn:Hc.
  - apply Z.ltb_lt in Hc.
    assert (hh - 1 ≠ s) by (intros E; rewrite E in Hc; lia).
    destruct (IH (hh - 1)) as (hh' & -> & ? & ? & Hk); [lia|lia|done|lia|].
    exists hh'. split_and!; try done; try lia.
    intros k ?. destruct (decide (k = hh - 1)) as [->|]; [done|apply Hk; lia].
  - apply Z.ltb_ge in Hc. exists (hh - 1). split_and!; try done; try lia.
Qed.

Lemma nibble_spec fuel arr low high ll hh :
  len arr ≤ 1073741824 → u16 arr →
  0 ≤ low → low + 1 ≤ ll → ll ≤ hh → hh ≤ high → high < len arr →
  (∀ k, low + 1 ≤ k ≤ ll → get arr k ≤ get arr low) →
  (∀ k, hh ≤ k ≤ high → get arr low ≤ get arr k) →
  (∃ s, ll < s ≤ high ∧ get arr low ≤ get arr s) →
  (∃ s, low + 1 ≤ s < hh ∧ get arr s ≤ get arr low) →
  (Z.to_nat ((high - low) + (hh - ll) + 1) ≤ fuel)%nat →
  ∃ arr' ll' hh',
    nibble fuel arr 1 low ll hh = Ok (arr', ll', hh') ∧
    swaps (low + 1) high arr arr' ∧
    low + 1 ≤ hh' ∧ hh' < ll' ∧ ll' ≤ high ∧
    (∀ k, low + 1 ≤ k < ll' → get arr' k ≤ get arr low) ∧
    (∀ k, hh' < k ≤ high → get arr low ≤ get arr' k).
Proof.
  revert arr ll hh.
  induction fuel as [|fuel IH];
    intros arr ll hh Hn Hu Hlow Hll Hlh Hhh Hhigh HA HB (su & Hsu & Hsu')
      (sd & Hsd & Hsd') Hfuel; [lia|].
  simpl.
  destruct (scan_up_spec fuel arr low ll su) as (ll' & -> & ? & ? & Hup);
    [lia|lia|lia|lia|done|lia|].
  rewrite bind_Ok.
  destruct (scan_down_spec fuel arr low hh sd) as (hh' & -> & ? & ? & Hdn);
    [lia|lia|lia|lia|done|lia|].
  rewrite bind_Ok.
  destruct (hh' <? ll') eqn:Hc.
  - apply Z.ltb_lt in Hc. exists arr, ll', hh'.
    split_and!; try done; try lia; [apply swaps_refl| |].
    + intros k ?. destruct (decide (k ≤ ll)); [apply HA; lia|].
      apply Z.lt_le_incl, Hup. lia.
    + intros k ?. destruct (decide (hh ≤ k)); [apply HB; lia|].
      apply Z.lt_le_incl, Hdn. lia.
  - apply Z.ltb_ge in Hc. unwrap.
    rewrite ELEM_SWAP_swapZ, bind_Ok by (done || lia).
    assert (get (swapZ arr ll' hh') low = get arr low) as Hp.
    { rewrite get_swapZ by lia. repeat case_decide; lia || done. }
    destruct (IH (swapZ arr ll' hh') ll' hh') as
      (arr' & ll2 & hh2 & -> & Hsw & ? & ? & ? & HA' & HB');
      rewrite ?len_swapZ, ?Hp; try lia; try done.
    + by apply swapZ_u16; [|lia..].
    + intros k ?. rewrite get_swapZ by lia.
      destruct (decide (k = hh')).
      { assert (ll' = hh') as -> by lia. done. }
      destruct (decide (k = ll')); [done|].
      destruct (decide (k ≤ ll)); [apply HA; lia|].
      apply Z.lt_le_incl, Hup. lia.
    + intros k ?. rewrite get_swapZ by lia.
      destruct (decide (k = hh')); [done|].
      destruct (decide (k = ll')); [lia|].
      destruct (decide (hh ≤ k)); [apply HB; lia|].
      apply Z.lt_le_incl, Hdn. lia.
    + exists hh. split; [lia|]. rewrite get_swapZ by lia.
      repeat case_decide; try lia. apply HB; lia.
    + exists ll. split; [lia|]. rewrite get_swapZ by lia.
      repeat case_decide; try lia. apply HA; lia.
    + exists arr', ll2, hh2. rewrite Hp in *. split_and!; try done.
      eapply swaps_trans; [|done]. apply swaps_one; lia.
Qed.

End median_loops.

Section median_select.
Import Median.
Implicit Types (arr : list Z) (i j k : Z).

Ltac unwrap := rewrite ?wrap32_id, ?idx_1 by lia.

Lemma swap_if_gt_spec arr i j lo hi :
  u16 arr → 0 ≤ i < len arr → 0 ≤ j < len arr →
  lo ≤ i ≤ hi → lo ≤ j ≤ hi →
  ∃ arr', swap_if_gt arr (Z.to_nat i) (Z.to_nat j) = Ok arr' ∧
    swaps lo hi arr arr' ∧
    get arr' i ≤ get arr' j ∧
    (∀ k, 0 ≤ k < len arr → k ≠ i → k ≠ j → get arr' k = get arr k) ∧
    ((get arr' i = get arr i ∧ get arr' j = get arr j) ∨
     (get arr' i = get arr j ∧ get arr' j = get arr i)).
Proof.
  intros Hu Hi Hj ??. unfold swap_if_gt.
  rewrite !rd_get, !bind_Ok by done.
  destruct (get arr j <? get arr i) eqn:Hc.
  - apply Z.ltb_lt in Hc. rewrite ELEM_SWAP_swapZ by done.
    exists (swapZ arr i j). split_and!; [done|by apply swaps_one|..].
    + rewrite !get_swapZ by lia. repeat case_decide; subst; lia.
    + intros k ???. rewrite get_swapZ by lia. repeat case_decide; lia.
    + right. rewrite !get_swapZ by lia. repeat case_decide; subst; lia.
  - apply Z.ltb_ge in Hc. exists arr.
    split_and!; [done|apply swaps_refl|lia|done|by left].
Qed.

Lemma pivot_ordered arr low high ll hh p c :
  ordered_at arr low → ordered_at arr (high + 1) →
  (∀ k, low ≤ k < ll → get arr k ≤ p) →
  (∀ k, hh ≤ k ≤ high → p ≤ get arr k) →
  0 ≤ low → high < len arr →
  hh ≤ c ≤ ll → low ≤ c ≤ high + 1 →
  ordered_at arr c.
Proof.
  intros Ho1 Ho2 HA HB ???? a b Ha Hb.
  destruct (decide (a < low)); [apply Ho1; lia|].
  destruct (decide (high < b)); [apply Ho2; lia|].
  trans p; [apply HA|apply HB]; lia.
Qed.

Lemma select_spec fuel arr low high median :
  len arr ≤ 1073741824 → u16 arr →
  0 ≤ low < len arr → 0 ≤ high < len arr → 0 ≤ median < len arr →
  ordered_at arr low → ordered_at arr (high + 1) →
  (low ≤ median ≤ high ∨
   ((median < low ∨ high < median) ∧
    ordered_at arr median ∧ ordered_at arr (median + 1))) →
  (Z.to_nat (3 * Z.max 0 (high - low) + 1) ≤ fuel)%nat →
  ∃ arr', select fuel arr 1 low high median = Ok (get arr' median, arr') ∧
    arr' ≡ₚ arr ∧ ordered_at arr' median ∧ ordered_at arr' (median + 1).
Proof.
  revert arr low high.
  induction fuel as [|fuel IH];
    intros arr low high Hn Hu Hlow Hhigh Hmed Ho1 Ho2 Ho3 Hfuel; [lia|].
  simpl. destruct (high <=? low) eqn:Hc1.
  { (* one element only *)
    apply Z.leb_le in Hc1. unwrap. rewrite rd_get, bind_Ok by done.
    exists arr. split_and!; try done.
    - destruct Ho3 as [?|(? & ? & ?)]; [|done].
      by replace median with low by lia.
    - destruct Ho3 as [?|(? & ? & ?)]; [|done].
      by replace median with high by lia. }
  apply Z.leb_gt in Hc1. unwrap.
  destruct (high =? low + 1) eqn:Hc2.
  { (* two elements only *)
    apply Z.eqb_eq in Hc2.
    destruct (swap_if_gt_spec arr low high low high)
      as (a1 & -> & Hsw & Hle & _ & _); [done|lia..|].
    rewrite bind_Ok.
    pose proof (swaps_len _ _ _ _ Hsw) as Hlen.
    rewrite rd_get, bind_Ok by lia.
    pose proof (swaps_ordered_at _ _ _ _ low Hsw (or_introl (Z.le_refl _)) Ho1).
    assert (ordered_at a1 (high + 1)) as Ho2'.
    { apply (swaps_ordered_at _ _ _ _ _ Hsw); [lia|done]. }
    assert (ordered_at a1 (low + 1)).
    { apply (pivot_ordered a1 low high (low + 1) (low + 1) (get a1 low));
        try done; try lia.
      - intros k ?. by replace k with low by lia.
      - intros k ?. by replace k with high by lia. }
    exists a1. split_and!; [done|by eapply swaps_perm|..].
    - destruct Ho3 as [?|(? & ? & ?)].
      + destruct (decide (median = low)) as [->|]; [done|].
        by replace median with (low + 1) by lia.
      + apply (swaps_ordered_at _ _ _ _ _ Hsw); [lia|done].
    - destruct Ho3 as [?|(? & ? & ?)].
      + destruct (decide (median = low)) as [->|]; [done|].
        by replace (median + 1) with (high + 1) by lia.
      + apply (swaps_ordered_at _ _ _ _ _ Hsw); [lia|done]. }
  apply Z.eqb_neq in Hc2.
  rewrite Z.quot_div_nonneg by lia.
  set (middle := (low + high) / 2).
  assert (low < middle < high) by (subst middle; Z.div_mod_to_equations; lia).
  clearbody middle. unwrap.
  (* median of low, middle and high is swapped into position low *)
  destruct (swap_if_gt_spec arr middle high low high)
    as (a1 & -> & Hsw1 & Hle1 & Hk1 & Hd1); [done|lia..|].
  rewrite bind_Ok.
  pose proof (swaps_len _ _ _ _ Hsw1) as Hlen1.
  pose proof (swaps_u16 _ _ _ _ Hsw1 Hu) as Hu1.
  destruct (swap_if_gt_spec a1 low high low high)
    as (a2 & -> & Hsw2 & Hle2 & Hk2 & Hd2); [done|lia..|].
  rewrite bind_Ok.
  pose proof (swaps_len _ _ _ _ Hsw2) as Hlen2.
  pose proof (swaps_u16 _ _ _ _ Hsw2 Hu1) as Hu2.
  destruct (swap_if_gt_spec a2 middle low low high)
    as (a3 & -> & Hsw3 & Hle3 & Hk3 & Hd3); [done|lia..|].
  rewrite bind_Ok.
  pose proof (swaps_len _ _ _ _ Hsw3) as Hlen3.
  pose proof (swaps_u16 _ _ _ _ Hsw3 Hu2) as Hu3.
  assert (get a3 middle ≤ get a3 low ≤ get a3 high) as H3.
  { pose proof (Hk2 middle). pose proof (Hk3 high). lia. }
  rewrite ELEM_SWAP_swapZ, bind_Ok by (done || lia).
  set (a4 := swapZ a3 middle (low + 1)).
  assert (swaps low high a3 a4) as Hsw4 by (apply swaps_one; lia).
  pose proof (swaps_len _ _ _ _ Hsw4) as Hlen4.
  pose proof (swaps_u16 _ _ _ _ Hsw4 Hu3) as Hu4.
  assert (get a4 (low + 1) ≤ get a4 low ≤ get a4 high) as H4.
  { subst a4. rewrite !get_swapZ by lia. repeat case_decide; lia. }
  assert (swaps low high arr a4) as Hsw.
  { repeat (eapply swaps_trans; [eassumption|]). apply swaps_refl. }
  clearbody a4. clear Hsw1 Hsw2 Hsw3 Hsw4 Hk1 Hk2 Hk3 Hd1 Hd2 Hd3 Hle1 Hle2 Hle3 H3.
  (* nibble from each end towards the middle *)
  destruct (nibble_spec fuel a4 low high (low + 1) high)
    as (a5 & ll & hh & -> & Hsw5 & ? & ? & ? & HA & HB);
    try done; try lia.
  { intros k ?. replace k with (low + 1) by lia. lia. }
  { intros k ?. replace k with high by lia. lia. }
  { exists high. lia. }
  { exists (low + 1). lia. }
  rewrite bind_Ok. cbn beta iota. unwrap.
  pose proof (swaps_len _ _ _ _ Hsw5) as Hlen5.
  pose proof (swaps_u16 _ _ _ _ Hsw5 Hu4) as Hu5.
  assert (get a5 low = get a4 low) as Hp.
  { apply (swaps_outside _ _ _ _ _ Hsw5); lia. }
  rewrite ELEM_SWAP_swapZ, bind_Ok by (done || lia).
  set (a6 := swapZ a5 low hh).
  set (p := get a4 low) in *.
  assert (swaps low high arr a6) as Hsw6.
  { eapply swaps_trans; [exact Hsw|].
    eapply swaps_trans; [eapply swaps_weaken; [| |exact Hsw5]; lia|].
    apply swaps_one; lia. }
  assert (∀ k, low ≤ k < ll → get a6 k ≤ p) as HA6.
  { intros k ?. subst a6. rewrite get_swapZ by lia.
    destruct (decide (k = hh)); [lia|].
    destruct (decide (k = low)); [apply HA; lia|apply HA; lia]. }
  assert (∀ k, hh ≤ k ≤ high → p ≤ get a6 k) as HB6.
  { intros k ?. subst a6. rewrite get_swapZ by lia.
    destruct (decide (k = hh)); [lia|].
    destruct (decide (k = low)); [lia|apply HB; lia]. }
  pose proof (swaps_len _ _ _ _ Hsw6) as Hlen6.
  pose proof (swaps_u16 _ _ _ _ Hsw6 Hu) as Hu6.
  assert (ordered_at a6 low) as Ho1'.
  { apply (swaps_ordered_at _ _ _ _ _ Hsw6); [lia|done]. }
  assert (ordered_at a6 (high + 1)) as Ho2'.
  { apply (swaps_ordered_at _ _ _ _ _ Hsw6); [lia|done]. }
  assert (∀ c, hh ≤ c ≤ ll → ordered_at a6 c) as Hpo.
  { intros c ?. apply (pivot_ordered a6 low high ll hh p); try done; lia. }
  clearbody a6 p.
  (* the active partition is re-set *)
  set (low' := if hh <=? median then ll else low).
  set (high' := if hh >=? median then hh - 1 else high).
  assert (low ≤ low' ≤ high ∧ low ≤ high' ≤ high ∧
          high' - low' < high - low) as Hb.
  { subst low' high'.
    destruct (hh <=? median) eqn:E1, (hh >=? median) eqn:E2; lia. }
  destruct (IH a6 low' high') as (a7 & -> & Hperm & Hf1 & Hf2);
    try done; try lia.
  - subst low'. destruct (hh <=? median); [apply Hpo; lia|done].
  - subst high'. destruct (hh >=? median).
    + replace (hh - 1 + 1) with hh by lia. apply Hpo; lia.
    + done.
  - destruct Ho3 as [?|(? & ? & ?)].
    + destruct (decide (hh ≤ median < ll)).
      * right. split_and!; [|apply Hpo; lia..].
        subst low'. destruct (hh <=? median) eqn:E1; lia.
      * left. subst low' high'.
        destruct (hh <=? median) eqn:E1, (hh >=? median) eqn:E2; lia.
    + right. split_and!; [lia|..];
        apply (swaps_ordered_at _ _ _ _ _ Hsw6); (lia || done).
  - exists a7. split_and!; try done.
    rewrite Hperm. by eapply swaps_perm.
Qed.

End median_select.

Lemma medianCalculation_spec (fuel : nat) (arr : list Z) (n : Z) :
  n = len arr → 1 ≤ n ≤ 1073741824 → u16 arr →
  (3 * length arr ≤ fuel)%nat →
  ∃ v arr',
    Median.medianCalculation fuel arr n 1 = Ok (v, arr') ∧
    arr' ≡ₚ arr ∧
    merge_sort Z.le arr !! Z.to_nat ((n - 1) / 2) = Some v.
Proof.
  intros -> Hn Hu Hfuel. unfold Median.medianCalculation. simpl (1 =? 0).
  cbv iota. rewrite Z.div_1_r.
  rewrite (wrapu32_id (len arr - 1)) by lia.
  rewrite (wrap32_id (len arr - 1)) by lia.
  rewrite Z.add_0_l, (wrap32_id (len arr - 1)) by lia.
  rewrite Z.quot_div_nonneg by lia.
  set (median := (len arr - 1) / 2).
  assert (0 ≤ median < len arr) by (subst median; Z.div_mod_to_equations; lia).
  destruct (select_spec fuel arr 0 (len arr - 1) median)
    as (arr' & Hsel & Hperm & Ho1 & Ho2).
  - lia.
  - done.
  - lia.
  - lia.
  - done.
  - intros i j ??. lia.
  - intros i j ??. lia.
  - left. lia.
  - unfold len in *. lia.
  - exists (get arr' median), arr'. split_and!; [done..|].
    apply sorted_position.
    + unfold len in *. by rewrite Hperm.
    + done.
    + done.
    + rewrite merge_sort_Permutation. done.
    + apply Sorted_StronglySorted; [apply _|]. apply Sorted_merge_sort. apply _.
Qed.

(** C8. For an array of n >= 1 unsigned 16-bit elements (n at most 2^30,
    so that the index arithmetic stays within [int]) and stride m = 1,
    medianCalculation returns, within 3n loop iterations, the element found
    at index (n-1)/2 of the sorted array, the lower median.  No access
    leaves the array, and the array it was handed is only permuted; the
    callback hands it a copy of the frame. *)
Theorem medianCalculation_lower_median (fuel : nat) (arr : list Z) (n : Z) :
  n = len arr → 1 ≤ n ≤ 1073741824 → u16 arr →
  (3 * length arr ≤ fuel)%nat →
  ∃ v arr',
    Median.medianCalculation fuel arr n 1 = Ok (v, arr') ∧
    arr' ≡ₚ arr ∧
    merge_sort Z.le arr !! Z.to_nat ((n - 1) / 2) = Some v.
Proof. apply medianCalculation_spec. Qed.

Lemma medianCalculation_lower_median_witness :
  ∃ v arr',
    Median.medianCalculation 18 [5; 3; 8; 1; 9; 2] 6 1 = Ok (v, arr') ∧
    arr' ≡ₚ [5; 3; 8; 1; 9; 2] ∧
    merge_sort Z.le [5; 3; 8; 1; 9; 2] !! Z.to_nat ((6 - 1) / 2) = Some v.
Proof.
  apply (medianCalculation_lower_median 18 [5; 3; 8; 1; 9; 2] 6).
  - reflexivity.
  - lia.
  - unfold u16. repeat constructor; lia.
  - simpl. lia.
Defined.

(** ** The binary stream *)

Section stream.
Import Client.

Lemma wrap32_small z : -2147483648 ≤ z < 2147483648 → wrap32 z = z.
Proof. apply wrap32_id. Qed.

Lemma poll_idle m h c :
  send_data c = 0 →
  ∃ tr, poll m h c = Ok (tr, h, c) ∧ Forall (λ o, o.1 = None) tr.
Proof.
  intros Hs. induction m as [|m (tr & IH & Hall)].
  - exists []. by split.
  - exists ((None, data_count c) :: tr). simpl.
    unfold client_send_binary. rewrite Hs. simpl.
    rewrite IH. simpl. split; [done|]. by constructor.
Qed.

Lemma poll_stream (n : nat) :
  ∀ h c data p d,
    send_data c ≠ 0 → image_data c = Some p → h !! p = Some data →
    total_count c = Z.of_nat (length data) → total_count c ≤ INT_MAX →
    data_count c = d → 0 ≤ d ≤ total_count c →
    total_count c - d ≤ 5000 * Z.of_nat n →
    ∃ chunks cursors tr c',
      poll (length chunks + 1) h c = Ok (tr, delete p h, c') ∧
      tr.*1 = (Some <$> chunks) ++ [Some []] ∧
      tr.*2 = cursors ++ [0] ∧
      Forall (λ ch, 0 < Z.of_nat (length ch) ≤ SEND_BUF_SIZE) chunks ∧
      concat chunks = drop (Z.to_nat d) data ∧
      StronglySorted Z.le (d :: cursors) ∧
      Forall (λ x, x ≤ total_count c) cursors ∧
      send_data c' = 0 ∧ image_data c' = None.
Proof.
  unfold INT_MAX.
  induction n as [|n IH]; intros h c data p d Hs Hi Hp Ht Hmax Hd Hr Hn.
  all: destruct (decide (d = total_count c)) as [Heq|Hne]; [|try lia].
  1,2: exists [], [], [(Some [], 0)],
         (with_stream c 0 0 (total_count c) None); simpl;
       unfold client_send_binary;
       rewrite (proj2 (Z.eqb_neq _ _) Hs), Hd, Heq, Z.eqb_refl, Hi; simpl;
       unfold free; rewrite Hp; simpl;
       split_and!; try done;
       [ rewrite drop_ge; [done|lia]
       | repeat constructor ].
  (* a data chunk is sent *)
  set (k := if total_count c - d >? SEND_BUF_SIZE then SEND_BUF_SIZE
            else total_count c - d).
  assert (0 < k ≤ 5000 ∧ d + k ≤ total_count c ∧
          total_count c - (d + k) ≤ 5000 * Z.of_nat n) as Hk.
  { subst k. unfold SEND_BUF_SIZE.
    destruct (total_count c - d >? 5000) eqn:E; lia. }
  set (chunk := take (Z.to_nat k) (drop (Z.to_nat d) data)).
  set (c1 := with_stream c (send_data c) (d + k) (total_count c) (Some p)).
  assert (client_send_binary h c = Ok (h, c1, Some chunk)) as Hstep.
  { unfold client_send_binary.
    rewrite (proj2 (Z.eqb_neq _ _) Hs), Hd, (proj2 (Z.eqb_neq _ _) Hne).
    rewrite (wrap32_small (total_count c - d)) by lia. fold k.
    rewrite (wrap32_small (d + k)) by lia.
    unfold memcpy_from. rewrite Hi, Hp.
    replace ((0 <=? d) && (0 <=? k) && (d + k <=? Z.of_nat (length data)))
      with true by (symmetry; rewrite !andb_true_iff, !Z.leb_le; lia).
    done. }
  destruct (IH h c1 data p (d + k)) as
    (chunks & cursors & tr & c' & Hpoll & Hf & Hc & Hall & Hcat & Hsort & Hle & ? & ?);
    simpl; try done; try lia.
  exists (chunk :: chunks), ((d + k) :: cursors),
    ((Some chunk, d + k) :: tr), c'.
  split_and!; try done.
  - simpl. rewrite Hstep. simpl. rewrite Hpoll. done.
  - rewrite !fmap_cons, Hf. done.
  - rewrite fmap_cons, Hc. done.
  - constructor; [|done]. subst chunk.
    rewrite length_take, length_drop. unfold SEND_BUF_SIZE. lia.
  - simpl. rewrite Hcat. subst chunk.
    replace (Z.to_nat (d + k)) with (Z.to_nat d + Z.to_nat k)%nat by lia.
    rewrite <-drop_drop. apply take_drop.
  - constructor; [done|]. constructor; [lia|].
    apply StronglySorted_inv in Hsort as [_ Hsort].
    eapply Forall_impl; [exact Hsort|]. simpl. intros. lia.
  - constructor; [lia|done].
Qed.

Lemma armed_streamed h c data p :
  send_data c ≠ 0 → data_count c = 0 → image_data c = Some p →
  h !! p = Some data → total_count c = Z.of_nat (length data) →
  total_count c ≤ INT_MAX →
  streamed h c (total_count c).
Proof.
  intros Hs Hd Hi Hp Ht Hmax.
  destruct (poll_stream (length data) h c data p 0)
    as (chunks & cursors & tr & c' & Hpoll & Hf & Hc & Hall & Hcat & Hsort & Hle & Hs' & Hi');
    try done; try lia.
  exists p, data, chunks, cursors, tr, (delete p h), c'.
  split_and!; try done.
  - apply lookup_delete_eq.
  - intros m. by apply poll_idle.
Qed.

End stream.

Lemma bind_Ok_inv {A B} (m : result A) (f : A → result B) b :
  (m ≫= f) = Ok b → ∃ a, m = Ok a ∧ f a = Ok b.
Proof. destruct m; try discriminate. intros H. by exists a. Qed.

Lemma Zwo_takeImage_pass e w c w1 c1 L :
  Zwo.takeImage e w c = Ok (w1, c1) →
  Zwo.response_buffer (Zwo.serv w1) = Fmt "%c %ld" [AChr PASS_CHAR; ALong L] →
  ∃ p, Client.send_data c1 = 1 ∧ Client.data_count c1 = 0 ∧
       Client.total_count c1 = wrap32 L ∧ Client.image_data c1 = Some p ∧
       Zwo.mem w1 !! p = Some (Zwo.file e) ∧ L = Z.of_nat (length (Zwo.file e)).
Proof.
  unfold Zwo.takeImage, Zwo.image_fail. intros H Hr.
  destruct (Zwo.open_ok e); simpl in H; [|by simplify_eq/=].
  apply bind_Ok_inv in H as ([st0 sts] & _ & H).
  destruct (Zwo.set_exposure_ok e); simpl in H; [|by simplify_eq/=].
  destruct (Zwo.set_gain_ok e); simpl in H; [|by simplify_eq/=].
  destruct (Zwo.start_exposure_ok e); simpl in H; [|by simplify_eq/=].
  apply bind_Ok_inv in H as ([st sts'] & _ & H).
  destruct st; try by simplify_eq/=.
  destruct (Zwo.readout_buffer w) as [w2 buf].
  destruct (Zwo.get_data_ok e); simpl in H; [|by simplify_eq/=].
  apply bind_Ok_inv in H as ([r w'] & _ & H).
  destruct r; [|by simplify_eq/=].
  destruct (Zwo.fstat_ok e); simpl in H; [|by simplify_eq/=].
  destruct (Zwo.read_ok e); simpl in H.
  - simplify_eq/=. eexists. split_and!; try done. apply lookup_insert_eq.
  - by simplify_eq/=.
Qed.

Lemma Tau_takeImage_pass e w c w1 c1 L :
  Tau.takeImage e w c = Ok (w1, c1, Fmt "%c %ld" [AChr PASS_CHAR; ALong L]) →
  ∃ p data, Client.send_data c1 = 1 ∧ Client.data_count c1 = 0 ∧
       Client.total_count c1 = wrap32 L ∧ Client.image_data c1 = Some p ∧
       Tau.mem w1 !! p = Some data ∧ L = Z.of_nat (length data).
Proof.
  unfold Tau.takeImage, Tau.image_fail. intros H.
  destruct (TauCam.open_ok e); simpl in H; [|by simplify_eq/=].
  destruct (_ || _); [by simplify_eq/=|].
  apply bind_Ok_inv in H as (x & _ & H).
  destruct x as [s|s]; [|by simplify_eq/=].
  apply bind_Ok_inv in H as ([[r w'] bytes] & _ & H).
  destruct r; [|by simplify_eq/=].
  destruct (TauCam.fstat_ok e); simpl in H; [|by simplify_eq/=].
  destruct (TauCam.read_ok e); simpl in H.
  - simplify_eq/=. eexists _, bytes. split_and!; try done.
    apply lookup_insert_eq.
  - by simplify_eq/=.
Qed.

(** C1. After a successful [image] exchange whose pass response declares
    L bytes (L within [int]), polling the send-binary hook hands over
    chunks of at most 5000 bytes that concatenate to exactly the encoded
    image, leaves a cursor that never decreases and never exceeds L, then
    reports one empty chunk and frees the image buffer; later calls report
    nothing.  This holds for the ZWO server and for the Tau server. *)
Theorem send_binary_delivers_image :
  (∀ e w c w1 c1 L,
     Zwo.takeImage e w c = Ok (w1, c1) →
     Zwo.response_buffer (Zwo.serv w1) =
       Fmt "%c %ld" [AChr PASS_CHAR; ALong L] →
     L ≤ INT_MAX →
     streamed (Zwo.mem w1) c1 L) ∧
  (∀ e w c w1 c1 L,
     Tau.takeImage e w c =
       Ok (w1, c1, Fmt "%c %ld" [AChr PASS_CHAR; ALong L]) →
     L ≤ INT_MAX →
     streamed (Tau.mem w1) c1 L).
Proof.
  split.
  - intros e w c w1 c1 L H Hr Hmax.
    destruct (Zwo_takeImage_pass _ _ _ _ _ _ H Hr)
      as (p & Hs & Hd & Ht & Hi & Hp & HL).
    unfold INT_MAX in *. rewrite wrap32_id in Ht by lia.
    rewrite <-Ht. eapply armed_streamed; eauto; unfold INT_MAX; lia.
  - intros e w c w1 c1 L H Hmax.
    destruct (Tau_takeImage_pass _ _ _ _ _ _ H)
      as (p & data & Hs & Hd & Ht & Hi & Hp & HL).
    unfold INT_MAX in *. rewrite wrap32_id in Ht by lia.
    rewrite <-Ht. eapply armed_streamed; eauto; unfold INT_MAX; lia.
Qed.

Lemma send_binary_delivers_image_witness :
  ∃ w1 c1,
    Zwo.takeImage Examples.zwo_exposure Examples.zwo_idle Examples.new_client =
      Ok (w1, c1) ∧
    streamed (Zwo.mem w1) c1 6.
Proof.
  eexists _, _. split; [vm_compute; reflexivity|].
  eapply (proj1 send_binary_delivers_image
            Examples.zwo_exposure Examples.zwo_idle Examples.new_client).
  - vm_compute. reflexivity.
  - reflexivity.
  - unfold INT_MAX. lia.
Defined.

(** ** Strings, letter case ignored *)

Section strings_ci.
Import CString.

Lemma code_inj c d : code c = code d → c = d.
Proof.
  unfold code. intros H. apply Nat2Z.inj in H.
  rewrite <-(ascii_nat_embedding c), <-(ascii_nat_embedding d). by rewrite H.
Qed.

Lemma code_NUL c : code c = 0 → c = NUL.
Proof. intros H. apply code_inj. by rewrite H. Qed.

Lemma tolower_toupper c : code (tolower (toupper c)) = code (tolower c).
Proof. destruct c as [[] [] [] [] [] [] [] []]; reflexivity. Qed.

Lemma toupper_space c : Ascii.eqb (toupper c) " " = Ascii.eqb c " ".
Proof. destruct c as [[] [] [] [] [] [] [] []]; reflexivity. Qed.

Lemma strcasecmp_upper a :
  ∀ b, strcasecmp (upper a) (upper b) = strcasecmp a b.
Proof.
  induction a as [|c a IH]; intros [|d b]; simpl;
    rewrite ?tolower_toupper; [done..|].
  by rewrite IH.
Qed.

Lemma strcasecmp_refl a : strcasecmp a a = 0.
Proof. induction a as [|c a IH]; simpl; [done|]. by rewrite Z.eqb_refl. Qed.

Lemma strcasecmp_same_upper a b : upper a = upper b → strcasecmp a b = 0.
Proof.
  intros H. rewrite <-strcasecmp_upper, H. apply strcasecmp_refl.
Qed.

Lemma strchr_space_upper s :
  strchr s " " = None ↔ strchr (upper s) " " = None.
Proof.
  induction s as [|c s IH]; simpl; [done|].
  rewrite toupper_space. by destruct (Ascii.eqb c " ").
Qed.

Lemma toupper_tolower c : toupper (tolower c) = toupper c.
Proof. destruct c as [[] [] [] [] [] [] [] []]; reflexivity. Qed.

Lemma tolower_NUL c : code (tolower c) = 0 → c = NUL.
Proof. destruct c as [[] [] [] [] [] [] [] []]; vm_compute; congruence. Qed.

Lemma tolower_code_eq c d :
  code (tolower c) = code (tolower d) → toupper c = toupper d.
Proof.
  intros H. apply code_inj in H.
  by rewrite <-(toupper_tolower c), H, toupper_tolower.
Qed.

(** For strings as C has them, [strcasecmp] is 0 exactly when the two
    read the same in upper case. *)
Lemma strcasecmp_zero_upper a :
  ∀ b, nul_free a → nul_free b → strcasecmp a b = 0 → upper a = upper b.
Proof.
  induction a as [|c a IH]; intros [|d b] Ha Hb H; simpl in *.
  - done.
  - destruct Hb as [Hd _]. destruct Hd. apply tolower_NUL. lia.
  - destruct Ha as [Hc _]. destruct Hc. by apply tolower_NUL.
  - destruct Ha as [_ Ha], Hb as [_ Hb].
    destruct (code (tolower c) =? code (tolower d)) eqn:E.
    + apply Z.eqb_eq, tolower_code_eq in E. rewrite E. f_equal.
      by apply IH.
    + apply Z.eqb_neq in E. lia.
Qed.

Lemma strcasecmp_differs a b :
  nul_free a → nul_free b → upper a ≠ upper b → strcasecmp a b ≠ 0.
Proof. intros Ha Hb H E. by apply H, strcasecmp_zero_upper. Qed.

Lemma nul_free_ltrim s : nul_free s → nul_free (ltrim s).
Proof.
  induction s as [|c s IH]; [done|]. intros [Hc Hs]. simpl.
  destruct (isspace c); [by apply IH|done].
Qed.

Lemma nul_free_rtrim s : nul_free s → nul_free (rtrim s).
Proof.
  induction s as [|c s IH]; [done|]. intros [Hc Hs]. simpl.
  specialize (IH Hs). destruct (rtrim s); [|done].
  by destruct (isspace c).
Qed.

Lemma nul_free_trim s : nul_free s → nul_free (trim s).
Proof. intros H. by apply nul_free_rtrim, nul_free_ltrim. Qed.

Lemma nul_free_app a b : nul_free (a ++ b) → nul_free a ∧ nul_free b.
Proof.
  induction a as [|c a IH]; [done|]. intros [Hc H].
  destruct (IH H). done.
Qed.

(** A line with a blank: the word before the first blank and the rest. *)
Lemma strchr_split (c : ascii) (cmd rest : string) :
  lacks c cmd →
  strchr (cmd ++ String c rest) c = Some (String c rest) ∧
  before (cmd ++ String c rest) c = cmd.
Proof.
  induction cmd as [|a cmd IH]; simpl.
  - by rewrite Ascii.eqb_refl.
  - intros [Ha Hl]. apply Ascii.eqb_neq in Ha. rewrite Ha.
    destruct (IH Hl) as [-> ->]. done.
Qed.

Lemma strchr_lacks (c : ascii) (s : string) : lacks c s → strchr s c = None.
Proof.
  induction s as [|a s IH]; [done|]. intros [Ha Hl]. simpl.
  apply Ascii.eqb_neq in Ha. rewrite Ha. by apply IH.
Qed.

End strings_ci.

(** ** Case insensitive search *)

Section search.
Import CString.

Lemma toupper_NUL c : c ≠ NUL → toupper c ≠ NUL.
Proof.
  intros Hc. unfold toupper, code.
  destruct (_ && _) eqn:E; [|done].
  apply andb_true_iff in E as [E1 E2].
  apply Z.leb_le in E1, E2. intros H.
  apply (f_equal nat_of_ascii) in H.
  rewrite nat_ascii_embedding in H by lia.
  change (nat_of_ascii NUL) with 0%nat in H. lia.
Qed.

Lemma has_prefix_ci_short pat s :
  (String.length s < String.length pat)%nat → has_prefix_ci pat s = false.
Proof.
  revert s. induction pat as [|p pat IH]; intros [|c s] H; simpl in *;
    try lia; try done.
  rewrite IH by lia. apply andb_false_r.
Qed.

Lemma find_ci_short pat s :
  (String.length s < String.length pat)%nat → find_ci pat s = None.
Proof.
  induction s as [|c s IH]; intros H; simpl.
  - by rewrite has_prefix_ci_short.
  - rewrite has_prefix_ci_short by done. apply IH. simpl in H. lia.
Qed.

Lemma find_ci_unfold pat s :
  find_ci pat s =
    if has_prefix_ci pat s then Some s
    else match s with
         | EmptyString => None
         | String _ r => find_ci pat r
         end.
Proof. by destruct s. Qed.

Lemma compare_here_spec fuel p pat s :
  p ≠ NUL → nul_free pat → (String.length pat < fuel)%nat →
  compare_here fuel s (String p pat) = Ok (has_prefix_ci (String p pat) s).
Proof.
  revert p pat s. induction fuel as [|fuel IH]; intros p pat s Hp Hn Hf; [lia|].
  cbn [compare_here]. destruct s as [|c s]; cbn [deref has_prefix_ci].
  - change (toupper NUL) with NUL.
    destruct (Ascii.eqb NUL (toupper p)) eqn:E; [|done].
    apply Ascii.eqb_eq in E. symmetry in E. by destruct (toupper_NUL p Hp).
  - destruct (Ascii.eqb (toupper c) (toupper p)) eqn:E; [|done].
    cbn [next andb]. rewrite !bind_Ok.
    destruct pat as [|q pat]; cbn [deref has_prefix_ci].
    + by rewrite Ascii.eqb_refl.
    + destruct Hn as [Hq Hn].
      destruct (Ascii.eqb q NUL) eqn:E'; [by apply Ascii.eqb_eq in E'|].
      apply IH; [done..|]. simpl in Hf. lia.
Qed.

Lemma find_start_spec fuel p pat start :
  p ≠ NUL →
  (String.length (String p pat) ≤ String.length start)%nat →
  strlen start < 4294967296 →
  (String.length start < fuel)%nat →
  ∃ r, find_start fuel start (String p pat) (strlen start)
         (strlen (String p pat)) = Ok r ∧
    match r with
    | None => find_ci (String p pat) start = None
    | Some (s', slen') =>
        slen' = strlen s' ∧
        (String.length (String p pat) ≤ String.length s')%nat ∧
        (String.length s' ≤ String.length start)%nat ∧
        find_ci (String p pat) start = find_ci (String p pat) s'
    end.
Proof.
  intros Hp. revert start.
  induction fuel as [|fuel IH]; intros start Hlen Hmax Hf; [lia|].
  destruct start as [|c start]; [simpl in Hlen; lia|].
  cbn [find_start deref].
  destruct (Ascii.eqb (toupper c) (toupper p)) eqn:E.
  - eexists. split; [done|]. cbn beta iota. split_and!; try done; lia.
  - cbn [next]. rewrite bind_Ok.
    assert (wrapu32 (strlen (String c start) - 1) = strlen start) as ->.
    { unfold strlen in *. simpl String.length in *. rewrite wrapu32_id; lia. }
    assert (find_ci (String p pat) (String c start)
            = find_ci (String p pat) start) as Hfind.
    { rewrite (find_ci_unfold _ (String c start)). simpl. by rewrite E. }
    destruct (strlen start <? strlen (String p pat)) eqn:Hc.
    + apply Z.ltb_lt in Hc. eexists. split; [done|]. cbn beta iota.
      rewrite Hfind. apply find_ci_short. unfold strlen in Hc. lia.
    + apply Z.ltb_ge in Hc.
      destruct (IH start) as (r & -> & Hr).
      * unfold strlen in Hc. lia.
      * unfold strlen in *. simpl String.length in Hmax. lia.
      * simpl in Hf. lia.
      * exists r. split; [done|]. rewrite Hfind.
        destruct r as [[s' slen']|]; [|done].
        destruct Hr as (? & ? & ? & ?). split_and!; try done. simpl. lia.
Qed.

Lemma stristr_loop_spec fuel p pat start :
  p ≠ NUL → nul_free pat →
  strlen start < 4294967296 →
  (String.length start + String.length (String p pat) + 2 ≤ fuel)%nat →
  stristr_loop fuel start (String p pat) (strlen start)
    (strlen (String p pat)) = Ok (find_ci (String p pat) start).
Proof.
  intros Hp Hn. revert start.
  induction fuel as [|fuel IH]; intros start Hmax Hf; [lia|].
  cbn [stristr_loop].
  destruct (strlen start <? strlen (String p pat)) eqn:Hc.
  { apply Z.ltb_lt in Hc. rewrite find_ci_short; [done|].
    unfold strlen in Hc. lia. }
  apply Z.ltb_ge in Hc.
  destruct (find_start_spec fuel p pat start) as (r & -> & Hr); try done.
  { unfold strlen in Hc. lia. }
  { lia. }
  rewrite bind_Ok. destruct r as [[s' slen']|]; [|by rewrite Hr].
  destruct Hr as (-> & Hl1 & Hl2 & ->).
  rewrite compare_here_spec by (done || simpl in *; lia).
  rewrite bind_Ok. rewrite (find_ci_unfold _ s').
  destruct (has_prefix_ci (String p pat) s') eqn:E; [done|].
  destruct s' as [|c s']; [simpl in Hl1; lia|].
  cbn [next]. rewrite bind_Ok.
  assert (wrapu32 (strlen (String c s') - 1) = strlen s') as ->.
  { unfold strlen in *. simpl String.length in *. rewrite wrapu32_id; lia. }
  apply IH.
  - unfold strlen in *. simpl String.length in *. lia.
  - simpl in *. lia.
Qed.

Lemma stristr_spec p pat str :
  p ≠ NUL → nul_free pat →
  strlen str < 4294967296 → strlen (String p pat) < 4294967296 →
  stristr str (String p pat) = Ok (find_ci (String p pat) str).
Proof.
  intros Hp Hn Hs Hpat. unfold stristr.
  rewrite !wrapu32_id by (unfold strlen in *; lia).
  apply stristr_loop_spec; try done. lia.
Qed.

Lemma upper_app a b : upper (a ++ b) = (upper a ++ upper b)%string.
Proof. induction a as [|c a IH]; simpl; [done|]. by rewrite IH. Qed.

Lemma has_prefix_ci_iff pat s :
  has_prefix_ci pat s = true ↔
  ∃ mid post, s = (mid ++ post)%string ∧ upper mid = upper pat.
Proof.
  revert s. induction pat as [|p pat IH]; intros s; simpl.
  - split; [|done]. intros _. by exists EmptyString, s.
  - destruct s as [|c s].
    + split; [done|]. intros ([|??] & post & H1 & H2); simplify_eq/=.
    + rewrite andb_true_iff, Ascii.eqb_eq, IH. split.
      * intros (Hc & mid & post & -> & Hm).
        exists (String c mid), post. simpl. by rewrite Hc, Hm.
      * intros ([|c' mid] & post & H1 & H2); simplify_eq/=.
        change (String c s = String c' (mid ++ post)%string) in H1.
        simplify_eq. split; [done|]. by exists mid, post.
Qed.

Lemma find_ci_Some_iff pat s :
  is_Some (find_ci pat s) ↔ occurs_ci pat s.
Proof.
  induction s as [|c s IH].
  - rewrite find_ci_unfold.
    destruct (has_prefix_ci pat EmptyString) eqn:E.
    + split; [|by eauto]. intros _.
      apply has_prefix_ci_iff in E as (mid & post & H1 & H2).
      by exists EmptyString, mid, post.
    + split; [by intros [? ?]|].
      intros (pre & mid & post & H1 & H2).
      destruct pre; [|done].
      change (EmptyString = (mid ++ post)%string) in H1.
      assert (has_prefix_ci pat EmptyString = true); [|congruence].
      apply has_prefix_ci_iff. by exists mid, post.
  - rewrite find_ci_unfold.
    destruct (has_prefix_ci pat (String c s)) eqn:E.
    + split; [|by eauto]. intros _.
      apply has_prefix_ci_iff in E as (mid & post & H1 & H2).
      by exists EmptyString, mid, post.
    + rewrite IH. split.
      * intros (pre & mid & post & -> & H2).
        by exists (String c pre), mid, post.
      * intros ([|c' pre] & mid & post & H1 & H2).
        -- change (String c s = (mid ++ post)%string) in H1.
           assert (has_prefix_ci pat (String c s) = true); [|congruence].
           apply has_prefix_ci_iff. by exists mid, post.
        -- change (String c s = String c' (pre ++ mid ++ post)%string) in H1.
           simplify_eq. by exists pre, mid, post.
Qed.

End search.

Lemma IMAGE_CMD_nul_free : nul_free "MAGE".
Proof. repeat split; discriminate. Qed.

Lemma Zwo_client_recv_image L cli_execute e w c line :
  CString.strlen line < 4294967296 →
  occurs_ci IMAGE_CMD line →
  Zwo.client_recv L cli_execute e w c line =
    Zwo.takeImage e (Zwo.set_response w (Lit line)) c.
Proof.
  intros Hlen Hocc. unfold Zwo.client_recv, IMAGE_CMD.
  rewrite stristr_spec; [|discriminate|apply IMAGE_CMD_nul_free|done|done].
  apply find_ci_Some_iff in Hocc as [s Hs].
  rewrite bind_Ok. unfold IMAGE_CMD in Hs. by rewrite Hs.
Qed.

Lemma Zwo_client_recv_other L cli_execute e w c line :
  CString.strlen line < 4294967296 →
  ¬ occurs_ci IMAGE_CMD line →
  Zwo.client_recv L cli_execute e w c line =
    '(r, w') ← cli_execute (Zwo.comlist L) (Zwo.set_response w (Lit line)) line;
    match r with
    | PASS => Ok (w', c)
    | FAIL => Ok (Zwo.set_response w' (Lit "! Error"), c)
    end.
Proof.
  intros Hlen Hocc. unfold Zwo.client_recv, IMAGE_CMD.
  rewrite stristr_spec; [|discriminate|apply IMAGE_CMD_nul_free|done|done].
  rewrite bind_Ok.
  destruct (find_ci "IMAGE" line) as [s|] eqn:Hs; [|done].
  destruct Hocc. apply find_ci_Some_iff. unfold IMAGE_CMD. by rewrite Hs.
Qed.

(** A word that compares equal to IMAGE compares unequal to the four
    disconnect keywords. *)
Lemma strcasecmp_IMAGE_not_quit s :
  CString.strcasecmp s IMAGE_CMD = 0 →
  (CString.strcasecmp s Tau.QUIT_CMD =? 0) ||
  (CString.strcasecmp s Tau.BYE_CMD =? 0) ||
  (CString.strcasecmp s Tau.EXIT_CMD =? 0) ||
  (CString.strcasecmp s Tau.LOGOUT_CMD =? 0) = false.
Proof.
  destruct s as [|c s]; [done|].
  unfold IMAGE_CMD, Tau.QUIT_CMD, Tau.BYE_CMD, Tau.EXIT_CMD, Tau.LOGOUT_CMD.
  cbn [CString.strcasecmp].
  change (CString.code (CString.tolower "I")) with 105.
  change (CString.code (CString.tolower "Q")) with 113.
  change (CString.code (CString.tolower "B")) with 98.
  change (CString.code (CString.tolower "E")) with 101.
  change (CString.code (CString.tolower "L")) with 108.
  destruct (CString.code (CString.tolower c) =? 105) eqn:E.
  - apply Z.eqb_eq in E. rewrite E. intros _. reflexivity.
  - apply Z.eqb_neq in E. intros H. lia.
Qed.

Lemma Tau_client_recv_image L e w c line :
  upper (CString.trim line) = IMAGE_CMD →
  Tau.client_recv L e w c line = Tau.takeImage e w c.
Proof.
  intros Hup. unfold Tau.client_recv.
  assert (CString.strchr (CString.trim line) " " = None) as ->.
  { apply strchr_space_upper. by rewrite Hup. }
  assert (CString.strcasecmp (CString.trim line) IMAGE_CMD = 0) as Hcmp
    by (by apply strcasecmp_same_upper).
  rewrite (strcasecmp_IMAGE_not_quit _ Hcmp), Hcmp. done.
Qed.

(** A line that does not read IMAGE is answered without a look at the
    camera, the clock or the file system, and not with an answer to
    IMAGE. *)
Lemma Tau_client_recv_no_image L e w c line :
  nul_free line → upper (CString.trim line) ≠ IMAGE_CMD →
  (∀ e', Tau.client_recv L e' w c line = Tau.client_recv L e w c line) ∧
  (∀ w' c' t, Tau.client_recv L e w c line = Ok (w', c', t) →
     (∀ n, t ≠ image_pass n) ∧ (∀ msg, t ≠ Tau.image_fail msg)).
Proof.
  intros Hnul Hup.
  assert ((CString.strcasecmp (CString.trim line) IMAGE_CMD =? 0) = false)
    as Hc.
  { apply Z.eqb_neq, strcasecmp_differs; [by apply nul_free_trim| |done].
    repeat split; discriminate. }
  unfold Tau.client_recv. cbv zeta. rewrite Hc.
  split; [intros e'; by repeat case_match|].
  intros w' c' t H.
  unfold image_pass, Tau.image_fail, Tau.command_fail, Tau.syntax_error in *.
  repeat match type of H with
         | context [match ?x with _ => _ end] => destruct x eqn:?
         end;
    try apply bind_Ok_inv in H as ([w1 c1] & _ & H);
    simplify_eq; split; intros; discriminate.
Qed.

Lemma Tau_client_recv_syntax L e w c line cmd rest :
  nul_free line →
  CString.trim line = (cmd ++ " " ++ rest)%string → lacks " " cmd →
  upper cmd ≠ Tau.ETIME_CMD → upper cmd ≠ Tau.GAIN_CMD →
  Tau.client_recv L e w c line = Ok (w, c, Tau.syntax_error).
Proof.
  intros Hnul Hline Hcmd H1 H2. unfold Tau.client_recv. rewrite Hline.
  change (" " ++ rest)%string with (String " " rest).
  destruct (strchr_split " " cmd rest Hcmd) as [-> ->].
  assert (nul_free cmd) as Hn.
  { apply nul_free_trim in Hnul. rewrite Hline in Hnul.
    by apply nul_free_app in Hnul as [? _]. }
  assert ((CString.strcasecmp cmd Tau.ETIME_CMD =? 0) = false) as ->.
  { apply Z.eqb_neq, strcasecmp_differs; [done| |done].
    repeat split; discriminate. }
  assert ((CString.strcasecmp cmd Tau.GAIN_CMD =? 0) = false) as ->; [|done].
  apply Z.eqb_neq, strcasecmp_differs; [done| |done].
  repeat split; discriminate.
Qed.

(** C7 as the code has it.  On the ZWO server every line in which IMAGE
    occurs, in any letter case, is handed to [takeImage], and the command
    table is consulted for the other lines only.  On the Tau server a
    line is handed to [takeImage] when, trimmed, it reads IMAGE in some
    letter case, and only then: every other line is answered without a
    look at the camera, the clock or the file system, and never with an
    answer to IMAGE.  A line with a blank whose first word is neither
    ETIME nor GAIN is answered with the syntax error, whatever else it
    contains. *)
Theorem image_request_matching :
  (∀ L cli_execute e w c line,
     CString.strlen line < 4294967296 →
     (occurs_ci IMAGE_CMD line →
      Zwo.client_recv L cli_execute e w c line =
        Zwo.takeImage e (Zwo.set_response w (Lit line)) c) ∧
     (¬ occurs_ci IMAGE_CMD line →
      Zwo.client_recv L cli_execute e w c line =
        '(r, w') ←
          cli_execute (Zwo.comlist L) (Zwo.set_response w (Lit line)) line;
        match r with
        | PASS => Ok (w', c)
        | FAIL => Ok (Zwo.set_response w' (Lit "! Error"), c)
        end)) ∧
  (∀ L e w c line,
     upper (CString.trim line) = IMAGE_CMD →
     Tau.client_recv L e w c line = Tau.takeImage e w c) ∧
  (∀ L e w c line,
     nul_free line → upper (CString.trim line) ≠ IMAGE_CMD →
     (∀ e', Tau.client_recv L e' w c line = Tau.client_recv L e w c line) ∧
     (∀ w' c' t, Tau.client_recv L e w c line = Ok (w', c', t) →
        (∀ n, t ≠ image_pass n) ∧ (∀ msg, t ≠ Tau.image_fail msg))) ∧
  (∀ L e w c line cmd rest,
     nul_free line →
     CString.trim line = (cmd ++ " " ++ rest)%string → lacks " " cmd →
     upper cmd ≠ Tau.ETIME_CMD → upper cmd ≠ Tau.GAIN_CMD →
     Tau.client_recv L e w c line = Ok (w, c, Tau.syntax_error)).
Proof.
  split_and!.
  - intros L cli_execute e w c line Hlen. split.
    + by apply Zwo_client_recv_image.
    + by apply Zwo_client_recv_other.
  - apply Tau_client_recv_image.
  - apply Tau_client_recv_no_image.
  - apply Tau_client_recv_syntax.
Qed.

Lemma occurs_take_image : occurs_ci IMAGE_CMD "take image".
Proof. by exists "take "%string, "image"%string, ""%string. Qed.

Lemma image_request_matching_witness :
  Tau.client_recv Lib.reference Examples.tau_no_file Examples.tau_idle
    Examples.new_client "  ImAgE " =
  Tau.takeImage Examples.tau_no_file Examples.tau_idle Examples.new_client ∧
  ((∀ e', Tau.client_recv Lib.reference e' Examples.tau_idle
            Examples.new_client "imagex" =
          Tau.client_recv Lib.reference Examples.tau_no_file Examples.tau_idle
            Examples.new_client "imagex") ∧
   (∀ w' c' t,
      Tau.client_recv Lib.reference Examples.tau_no_file Examples.tau_idle
        Examples.new_client "imagex" = Ok (w', c', t) →
      (∀ n, t ≠ image_pass n) ∧ (∀ msg, t ≠ Tau.image_fail msg))) ∧
  Tau.client_recv Lib.reference Examples.tau_no_file Examples.tau_idle
    Examples.new_client "take image" =
  Ok (Examples.tau_idle, Examples.new_client, Tau.syntax_error).
Proof.
  split; [|split].
  - apply (proj1 (proj2 image_request_matching)). reflexivity.
  - apply (proj1 (proj2 (proj2 image_request_matching))).
    + repeat split; discriminate.
    + vm_compute. discriminate.
  - apply (proj2 (proj2 (proj2 image_request_matching))
             _ _ _ _ "take image"%string "take"%string "image"%string).
    + repeat split; discriminate.
    + reflexivity.
    + repeat split; discriminate.
    + vm_compute. discriminate.
    + vm_compute. discriminate.
Defined.

(** C7, counterexample.  The line "take image" contains the word, yet the
    Tau server does not start an acquisition: it answers with the syntax
    error and leaves the state as it was. *)
Lemma image_request_tau_counterexample :
  occurs_ci IMAGE_CMD "take image" ∧
  Tau.client_recv Lib.reference Examples.tau_no_file Examples.tau_idle
    Examples.new_client "take image" =
  Ok (Examples.tau_idle, Examples.new_client, Tau.syntax_error) ∧
  Tau.takeImage Examples.tau_no_file Examples.tau_idle Examples.new_client ≠
  Ok (Examples.tau_idle, Examples.new_client, Tau.syntax_error).
Proof.
  split_and!.
  - apply occurs_take_image.
  - reflexivity.
  - vm_compute. discriminate.
Qed.
(** ** The gain commands *)

Lemma Zwo_com_gain_invalid L w arg :
  atoi L (cli_arg1 L arg) < MIN_GAIN ∨ MAX_GAIN < atoi L (cli_arg1 L arg) →
  Zwo.com_gain L w arg =
    Ok (PASS,
        Zwo.set_response w (Lit ("! gain " ++ CString.quoted "invalid value"))).
Proof.
  intros H. unfold Zwo.com_gain.
  replace (_ || _) with true; [done|].
  symmetry. apply orb_true_iff. rewrite Z.ltb_lt, Z.gtb_lt. lia.
Qed.

(** What a put leaves in the registry of the ZWO server. *)
Lemma Zwo_ssPutPrintf_spec L w name t :
  Zwo.serv (Zwo.ssPutPrintf L w name t) = Zwo.serv w ∧
  Zwo.mem (Zwo.ssPutPrintf L w name t) = Zwo.mem w ∧
  (ssPut_ok L name t = true →
   Zwo.ss (Zwo.ssPutPrintf L w name t) !! name = Some t) ∧
  (ssPut_ok L name t = false → Zwo.ss (Zwo.ssPutPrintf L w name t) = Zwo.ss w).
Proof.
  unfold Zwo.ssPutPrintf. destruct (ssPut_ok L name t); simpl.
  - split_and!; try done. intros _. apply lookup_insert_eq.
  - by split_and!.
Qed.

Lemma Zwo_com_gain_valid L w arg :
  MIN_GAIN ≤ atoi L (cli_arg1 L arg) ≤ MAX_GAIN →
  ∃ w', Zwo.com_gain L w arg = Ok (PASS, w') ∧
    Zwo.gain (Zwo.serv w') = atoi L (cli_arg1 L arg) ∧
    (ssPut_ok L Zwo.SS_GAIN (Fmt "%d" [AInt (atoi L (cli_arg1 L arg))]) = true →
     Zwo.ss w' !! Zwo.SS_GAIN =
       Some (Fmt "%d" [AInt (atoi L (cli_arg1 L arg))])) ∧
    (ssPut_ok L Zwo.SS_GAIN (Fmt "%d" [AInt (atoi L (cli_arg1 L arg))]) = false →
     Zwo.ss w' = Zwo.ss w) ∧
    Zwo.response_buffer (Zwo.serv w') =
      Fmt ". gain %d" [AInt (atoi L (cli_arg1 L arg))].
Proof.
  intros H. unfold Zwo.com_gain.
  replace (_ || _) with false.
  2:{ symmetry. apply orb_false_iff.
      rewrite Z.ltb_ge, Z.gtb_ltb, Z.ltb_ge. lia. }
  cbv zeta. eexists. split; [done|].
  set (w1 := Zwo.set_gain w (atoi L (cli_arg1 L arg))).
  change (Zwo.gain (Zwo.serv w1)) with (atoi L (cli_arg1 L arg)).
  destruct (Zwo_ssPutPrintf_spec L w1 Zwo.SS_GAIN
              (Fmt "%d" [AInt (atoi L (cli_arg1 L arg))]))
    as (Hs & _ & Hput & Hnot).
  cbn [Zwo.set_response Zwo.set_serv Zwo.serv Zwo.ss Zwo.gain
         Zwo.response_buffer].
  rewrite !Hs. split_and!; try done.
Qed.

(** The symbolic gain an argument names, letter case ignored. *)
Lemma gain_of_string_name a g :
  upper a = gain_name g → Tau.gain_of_string a = Some g.
Proof.
  intros H. unfold Tau.gain_of_string.
  rewrite <-!(strcasecmp_upper a), H. by destruct g.
Qed.

Lemma gain_of_string_none a :
  nul_free a → (∀ g, upper a ≠ gain_name g) → Tau.gain_of_string a = None.
Proof.
  intros Ha H. unfold Tau.gain_of_string.
  assert (∀ g, (CString.strcasecmp a (gain_name g) =? 0) = false) as Hg.
  { intros g. apply Z.eqb_neq, strcasecmp_differs; [done| |].
    - destruct g; repeat split; discriminate.
    - replace (upper (gain_name g)) with (gain_name g) by (by destruct g).
      apply H. }
  pose proof (Hg TauCam.GAIN_AUTO) as H1. pose proof (Hg TauCam.GAIN_HIGH) as H2.
  pose proof (Hg TauCam.GAIN_LOW) as H3. pose proof (Hg TauCam.GAIN_MANUAL) as H4.
  cbn [gain_name] in H1, H2, H3, H4.
  unfold Tau.GAIN_AUTO_STRING, Tau.GAIN_HIGH_STRING, Tau.GAIN_LOW_STRING,
    Tau.GAIN_MANUAL_STRING.
  by rewrite H1, H2, H3, H4.
Qed.

(** What a put leaves in the registry of the Tau server. *)
Lemma Tau_ssPut_spec L w name t :
  Tau.serv (Tau.ssPut L w name t) = Tau.serv w ∧
  Tau.cam (Tau.ssPut L w name t) = Tau.cam w ∧
  Tau.mem (Tau.ssPut L w name t) = Tau.mem w ∧
  (ssPut_ok L name t = true → Tau.ss (Tau.ssPut L w name t) !! name = Some t) ∧
  (ssPut_ok L name t = false → Tau.ss (Tau.ssPut L w name t) = Tau.ss w).
Proof.
  unfold Tau.ssPut. destruct (ssPut_ok L name t); simpl.
  - split_and!; try done. intros _. apply lookup_insert_eq.
  - by split_and!.
Qed.

(** A line of the Tau server with a blank: the command word is looked at
    in upper case, the rest is split into arguments. *)
Lemma Tau_line_split (line cmd rest : string) :
  CString.trim line = (cmd ++ " " ++ rest)%string → lacks " " cmd →
  CString.strchr (CString.trim line) " " = Some (String " " rest) ∧
  CString.before (CString.trim line) " " = cmd.
Proof.
  intros -> Hcmd. change (" " ++ rest)%string with (String " " rest).
  by apply strchr_split.
Qed.

Lemma Tau_gain_recv L e w c line cmd rest a :
  CString.trim line = (cmd ++ " " ++ rest)%string → lacks " " cmd →
  upper cmd = Tau.GAIN_CMD →
  cli_argv_quoted L rest = [a] →
  Tau.client_recv L e w c line =
    match Tau.gain_of_string a with
    | Some g =>
        Ok (Tau.applyGain L (Tau.set_serv w (TauCam.set_gain (Tau.serv w) g)) g,
            c, Fmt "%c %s" [AChr PASS_CHAR; AStr Tau.GAIN_CMD])
    | None =>
        Ok (w, c, Tau.command_fail Tau.GAIN_CMD "Invalid gain argument specified")
    end.
Proof.
  intros Hline Hcmd Hup Ha. unfold Tau.client_recv.
  destruct (Tau_line_split line cmd rest Hline Hcmd) as [-> ->].
  cbn [CString.tail]. rewrite Ha.
  rewrite <-!(strcasecmp_upper cmd), Hup. simpl.
  by destruct (Tau.gain_of_string a).
Qed.

(** C6 as the code has it.  ZWO: a gain outside [MIN_GAIN, MAX_GAIN] gets
    the fail response and changes neither the gain nor the registry; a
    gain inside is stored, put to the registry (which holds it when the
    put passes and is unchanged when it fails) and echoed after the pass
    marker.  Tau: for a line whose first word reads GAIN and that has one
    argument, an argument that reads AUTO, HIGH, LOW or MANUAL in some
    letter case is stored as the session gain, applied to the camera and
    put to the registry, and the pass response names the command only; an
    argument that reads none of the four gets a fail response and changes
    nothing. *)
Theorem gain_command_validation :
  (∀ L w arg,
     atoi L (cli_arg1 L arg) < MIN_GAIN ∨ MAX_GAIN < atoi L (cli_arg1 L arg) →
     ∃ w', Zwo.com_gain L w arg = Ok (PASS, w') ∧
       Zwo.gain (Zwo.serv w') = Zwo.gain (Zwo.serv w) ∧
       Zwo.ss w' = Zwo.ss w ∧
       Zwo.response_buffer (Zwo.serv w') =
         Lit ("! gain " ++ CString.quoted "invalid value")) ∧
  (∀ L w arg,
     MIN_GAIN ≤ atoi L (cli_arg1 L arg) ≤ MAX_GAIN →
     ∃ w', Zwo.com_gain L w arg = Ok (PASS, w') ∧
       Zwo.gain (Zwo.serv w') = atoi L (cli_arg1 L arg) ∧
       (ssPut_ok L Zwo.SS_GAIN
          (Fmt "%d" [AInt (atoi L (cli_arg1 L arg))]) = true →
        Zwo.ss w' !! Zwo.SS_GAIN =
          Some (Fmt "%d" [AInt (atoi L (cli_arg1 L arg))])) ∧
       (ssPut_ok L Zwo.SS_GAIN
          (Fmt "%d" [AInt (atoi L (cli_arg1 L arg))]) = false →
        Zwo.ss w' = Zwo.ss w) ∧
       Zwo.response_buffer (Zwo.serv w') =
         Fmt ". gain %d" [AInt (atoi L (cli_arg1 L arg))]) ∧
  (∀ L e w c line cmd rest a,
     CString.trim line = (cmd ++ " " ++ rest)%string → lacks " " cmd →
     upper cmd = Tau.GAIN_CMD →
     cli_argv_quoted L rest = [a] → nul_free a →
     (∀ g, upper a = gain_name g →
        ∃ w', Tau.client_recv L e w c line =
                Ok (w', c, Fmt "%c %s" [AChr PASS_CHAR; AStr Tau.GAIN_CMD]) ∧
          TauCam.gain (Tau.serv w') = g ∧ Tau.cam w' = Some g ∧
          (ssPut_ok L Tau.SS_GAIN (Lit (gain_name g)) = true →
           Tau.ss w' !! Tau.SS_GAIN = Some (Lit (gain_name g))) ∧
          (ssPut_ok L Tau.SS_GAIN (Lit (gain_name g)) = false →
           Tau.ss w' = Tau.ss w)) ∧
     ((∀ g, upper a ≠ gain_name g) →
      Tau.client_recv L e w c line =
        Ok (w, c,
            Tau.command_fail Tau.GAIN_CMD "Invalid gain argument specified"))).
Proof.
  split_and!.
  - intros L w arg H. rewrite Zwo_com_gain_invalid by done.
    eexists. by split_and!.
  - apply Zwo_com_gain_valid.
  - intros L e w c line cmd rest a Hline Hcmd Hup Ha Hnul.
    rewrite (Tau_gain_recv L e w c line cmd rest a) by done. split.
    + intros g Hg. rewrite (gain_of_string_name a g Hg).
      eexists. split; [done|]. unfold Tau.applyGain.
      replace (match g with
               | TauCam.GAIN_AUTO => "AUTO"
               | TauCam.GAIN_HIGH => "HIGH"
               | TauCam.GAIN_LOW => "LOW"
               | TauCam.GAIN_MANUAL => "MANUAL"
               end)%string with (gain_name g) by (by destruct g).
      match goal with
      | |- context [Tau.ssPut L ?w0 _ _] =>
          destruct (Tau_ssPut_spec L w0 Tau.SS_GAIN (Lit (gain_name g)))
            as (Hs & Hc & _ & Hput & Hnot)
      end.
      rewrite Hs, Hc. by split_and!.
    + intros Hg. by rewrite (gain_of_string_none a Hnul Hg).
Qed.

Lemma gain_command_validation_witness :
  ∃ w', Zwo.com_gain Lib.reference Examples.zwo_idle "600" = Ok (PASS, w') ∧
    Zwo.gain (Zwo.serv w') = Zwo.gain (Zwo.serv Examples.zwo_idle) ∧
    Zwo.ss w' = Zwo.ss Examples.zwo_idle ∧
    Zwo.response_buffer (Zwo.serv w') =
      Lit ("! gain " ++ CString.quoted "invalid value").
Proof.
  apply (proj1 gain_command_validation Lib.reference Examples.zwo_idle "600").
  right. vm_compute. reflexivity.
Defined.

(** C6, counterexample.  The Tau server accepts "GAIN HIGH" and stores the
    gain, but its pass response carries the command name and no value. *)
Lemma gain_tau_counterexample :
  ∃ w', Tau.client_recv Lib.reference Examples.tau_no_file Examples.tau_idle
          Examples.new_client "GAIN HIGH" =
        Ok (w', Examples.new_client,
            Fmt "%c %s" [AChr "."; AStr "GAIN"]) ∧
    TauCam.gain (Tau.serv w') = TauCam.GAIN_HIGH.
Proof. eexists. split; reflexivity. Qed.
(** ** The exposure time commands *)

Section etime.
Local Open Scope Q_scope.

Lemma Qltb_true a b : Qltb a b = true ↔ a < b.
Proof.
  unfold Qltb. rewrite negb_true_iff, <-not_true_iff_false, Qle_bool_iff.
  split; [apply Qnot_le_lt|apply Qlt_not_le].
Qed.

Lemma Qltb_false a b : Qltb a b = false ↔ b <= a.
Proof. unfold Qltb. by rewrite negb_false_iff, Qle_bool_iff. Qed.

Lemma Qneqb_true a b : Qneqb a b = true ↔ ¬ a == b.
Proof.
  unfold Qneqb. by rewrite negb_true_iff, <-not_true_iff_false, Qeq_bool_iff.
Qed.

Lemma Qneqb_false a b : Qneqb a b = false ↔ a == b.
Proof. unfold Qneqb. by rewrite negb_false_iff, Qeq_bool_iff. Qed.

Lemma Qfloor_unique (x : Q) (k : Z) :
  inject_Z k <= x → x < inject_Z (k + 1) → Qfloor x = k.
Proof.
  intros H1 H2. apply Z.le_antisymm.
  - apply Z.lt_succ_r. rewrite Zlt_Qlt.
    eapply Qle_lt_trans; [apply Qfloor_le|]. exact H2.
  - rewrite <-(Qfloor_Z k). by apply Qfloor_resp_le.
Qed.

Lemma Qtrunc_nonneg (x : Q) : 0 <= x → Qtrunc x = Qfloor x.
Proof.
  intros H. unfold Qtrunc, Qfloor. destruct x as [n d]. simpl.
  apply Z.quot_div_nonneg; [|lia].
  unfold Qle in H. simpl in H. lia.
Qed.

Lemma inject_Z_succ (k : Z) : inject_Z (k + 1) == inject_Z k + 1.
Proof. rewrite inject_Z_plus. reflexivity. Qed.

Lemma shown3_near (q : Q) (k : Z) :
  Qabs (q - inject_Z k * (1 # 1000)) <= 1 # 10000 → shown3 q = k.
Proof.
  intros H. apply Qabs_Qle_condition in H as [H1 H2].
  unfold shown3. apply Qfloor_unique; rewrite ?inject_Z_succ; lra.
Qed.

(** The step count [com_etime] computes for an argument within range. *)
Lemma quantize_in_range (v : Q) :
  (Zwo.tgt_min <= v ∧ v <= Zwo.tgt_max) →
  let k := Qtrunc ((v + Zwo.tgt_stp / (2 # 1)) / Zwo.tgt_stp) in
  (1 ≤ k ≤ 600000)%Z ∧
  Qabs (inject_Z k * Zwo.tgt_stp - v) <= Zwo.tgt_stp / (2 # 1).
Proof.
  intros [Hlo Hhi] k. unfold Zwo.tgt_min, Zwo.tgt_max, Zwo.tgt_stp in *.
  set (x := (v + (1 # 1000) / (2 # 1)) / (1 # 1000)) in *.
  assert (x == v * (1000 # 1) + (1 # 2)) as Hx by (subst x; field).
  assert (k = Qfloor x) as Hk by (apply Qtrunc_nonneg; lra).
  pose proof (Qfloor_le x) as H1. pose proof (Qlt_floor x) as H2.
  rewrite <-Hk in H1, H2. rewrite inject_Z_succ in H2.
  clearbody k x. clear Hk.
  split.
  - split.
    + assert (inject_Z 0 < inject_Z k) as H.
      { change (inject_Z 0) with (0 # 1). lra. }
      rewrite <-Zlt_Qlt in H. lia.
    + assert (inject_Z k < inject_Z 600001) as H.
      { change (inject_Z 600001) with (600001 # 1). lra. }
      rewrite <-Zlt_Qlt in H. lia.
  - assert ((1 # 1000) / (2 # 1) == 1 # 2000) as -> by reflexivity.
    apply Qabs_Qle_condition. split; lra.
Qed.

End etime.

(** The value [arg_seconds] computes is the one the argument stands
    for. *)
Lemma seconds_arg L s v : seconds L s v → Zwo.arg_seconds L s = v.
Proof.
  intros [Hs|m r -> Hm]; unfold Zwo.arg_seconds.
  - by rewrite strchr_lacks.
  - change (":" ++ r)%string with (String ":" r).
    by destruct (strchr_split ":" m r Hm) as [-> _].
Qed.

(** The cast of a step count that fits an [int]. *)
Lemma to_int_steps (x : Q) :
  - 2147483648 ≤ Qtrunc (x / Zwo.tgt_stp) ≤ INT_MAX →
  to_int (ddiv (Fin x) (Fin Zwo.tgt_stp)) = Ok (Qtrunc (x / Zwo.tgt_stp)).
Proof.
  intros [H1 H2]. unfold ddiv, to_int.
  change (Qeq_bool Zwo.tgt_stp (0 # 1)) with false. cbv iota.
  apply Z.leb_le in H1, H2. by rewrite H1, H2.
Qed.

Lemma Zwo_com_etime_in_range L w arg v :
  seconds L (cli_arg1 L arg) (Fin v) →
  (Zwo.tgt_min <= v ∧ v <= Zwo.tgt_max)%Q →
  ∃ (k : Z) w',
    Zwo.com_etime L w arg = Ok (PASS, w') ∧
    (Qabs (inject_Z k * Zwo.tgt_stp - v) <= Zwo.tgt_stp / (2 # 1))%Q ∧
    (Zwo.tgt_min <= inject_Z k * Zwo.tgt_stp ∧
     inject_Z k * Zwo.tgt_stp <= Zwo.tgt_max)%Q ∧
    ((1 # 10000 < Qabs (Zwo.etime (Zwo.serv w) - inject_Z k * Zwo.tgt_stp))%Q →
     Zwo.etime (Zwo.serv w') = (inject_Z k * Zwo.tgt_stp)%Q) ∧
    ((Qabs (Zwo.etime (Zwo.serv w) - inject_Z k * Zwo.tgt_stp) <= 1 # 10000)%Q →
     Zwo.etime (Zwo.serv w') = Zwo.etime (Zwo.serv w)) ∧
    (ssPut_ok L Zwo.SS_ETIME
       (Fmt "%.4f" [ADbl (Fin (Zwo.etime (Zwo.serv w')))]) = true →
     Zwo.ss w' !! Zwo.SS_ETIME =
       Some (Fmt "%.4f" [ADbl (Fin (Zwo.etime (Zwo.serv w')))])) ∧
    (ssPut_ok L Zwo.SS_ETIME
       (Fmt "%.4f" [ADbl (Fin (Zwo.etime (Zwo.serv w')))]) = false →
     Zwo.ss w' = Zwo.ss w) ∧
    Zwo.response_buffer (Zwo.serv w') =
      Fmt ". etime %.3f" [ADbl (Fin (Zwo.etime (Zwo.serv w')))] ∧
    shown3 (Zwo.etime (Zwo.serv w')) = k.
Proof.
  intros Hsec Hv. destruct (quantize_in_range v Hv) as [Hk Hq].
  set (k := Qtrunc ((v + Zwo.tgt_stp / (2 # 1)) / Zwo.tgt_stp)) in *.
  set (new := (inject_Z k * Zwo.tgt_stp)%Q) in *.
  assert (Zwo.tgt_min <= new ∧ new <= Zwo.tgt_max)%Q as Hnew.
  { subst new. unfold Zwo.tgt_min, Zwo.tgt_max, Zwo.tgt_stp in *.
    assert (inject_Z 1 <= inject_Z k)%Q as H1 by (rewrite <-Zle_Qle; lia).
    assert (inject_Z k <= inject_Z 600000)%Q as H2 by (rewrite <-Zle_Qle; lia).
    change (inject_Z 1) with (1 # 1) in H1.
    change (inject_Z 600000) with (600000 # 1) in H2. split; lra. }
  exists k. unfold Zwo.com_etime. rewrite (seconds_arg _ _ _ Hsec).
  cbv zeta. cbn [dne dadd].
  replace (Qneqb v (0 # 1)) with true.
  2:{ symmetry. apply Qneqb_true. unfold Zwo.tgt_min in Hv. lra. }
  rewrite to_int_steps by (fold k; unfold INT_MAX; lia).
  rewrite bind_Ok. fold k. fold new.
  replace (Qltb Zwo.tgt_max new) with false
    by (symmetry; apply Qltb_false; tauto).
  replace (Qltb new Zwo.tgt_min) with false
    by (symmetry; apply Qltb_false; tauto).
  destruct (Qltb (1 # 10000) (Qabs (Zwo.etime (Zwo.serv w) - new))) eqn:E;
    rewrite bind_Ok.
  - apply Qltb_true in E. eexists. split; [done|].
    match goal with
    | |- context [Zwo.ssPutPrintf L ?w0 ?n ?t] =>
        destruct (Zwo_ssPutPrintf_spec L w0 n t) as (Hs & _ & Hput & Hnot)
    end.
    cbn [Zwo.set_response Zwo.set_serv Zwo.serv Zwo.ss Zwo.etime
           Zwo.response_buffer] in *.
    rewrite !Hs. cbn [Zwo.set_etime Zwo.set_serv Zwo.serv Zwo.etime] in *.
    split_and!; try done; try tauto.
    + intros H. exfalso. revert H. by apply Qlt_not_le.
    + apply shown3_near. subst new.
      assert (inject_Z k * Zwo.tgt_stp - inject_Z k * (1 # 1000) == 0)%Q
        as -> by (unfold Zwo.tgt_stp; ring).
      done.
  - apply Qltb_false in E. eexists. split; [done|].
    match goal with
    | |- context [Zwo.ssPutPrintf L ?w0 ?n ?t] =>
        destruct (Zwo_ssPutPrintf_spec L w0 n t) as (Hs & _ & Hput & Hnot)
    end.
    cbn [Zwo.set_response Zwo.set_serv Zwo.serv Zwo.ss Zwo.etime
           Zwo.response_buffer] in *.
    rewrite !Hs.
    split_and!; try done; try tauto.
    + intros H. exfalso. revert E. by apply Qlt_not_le.
    + apply shown3_near. by unfold new, Zwo.tgt_stp in E.
Qed.

Lemma Zwo_com_etime_zero L w arg v :
  seconds L (cli_arg1 L arg) (Fin v) → (v == 0)%Q →
  ∃ w', Zwo.com_etime L w arg = Ok (PASS, w') ∧
    Zwo.etime (Zwo.serv w') = Zwo.etime (Zwo.serv w) ∧
    (ssPut_ok L Zwo.SS_ETIME
       (Fmt "%.4f" [ADbl (Fin (Zwo.etime (Zwo.serv w)))]) = true →
     Zwo.ss w' !! Zwo.SS_ETIME =
       Some (Fmt "%.4f" [ADbl (Fin (Zwo.etime (Zwo.serv w)))])) ∧
    (ssPut_ok L Zwo.SS_ETIME
       (Fmt "%.4f" [ADbl (Fin (Zwo.etime (Zwo.serv w)))]) = false →
     Zwo.ss w' = Zwo.ss w) ∧
    Zwo.response_buffer (Zwo.serv w') =
      Fmt ". etime %.3f" [ADbl (Fin (Zwo.etime (Zwo.serv w)))].
Proof.
  intros Hsec Hv. unfold Zwo.com_etime. rewrite (seconds_arg _ _ _ Hsec).
  cbv zeta. cbn [dne].
  replace (Qneqb _ (0 # 1)) with false by (symmetry; by apply Qneqb_false).
  rewrite bind_Ok. eexists. split; [done|].
  destruct (Zwo_ssPutPrintf_spec L w Zwo.SS_ETIME
              (Fmt "%.4f" [ADbl (Fin (Zwo.etime (Zwo.serv w)))]))
    as (Hs & _ & Hput & Hnot).
  cbn [Zwo.set_response Zwo.set_serv Zwo.serv Zwo.ss Zwo.etime
         Zwo.response_buffer].
  rewrite !Hs. by split_and!.
Qed.

(** What the Tau server does with ETIME and one argument that [strtod]
    converts to the end without an error. *)
Lemma Tau_etime_recv L e w c line cmd rest a :
  CString.trim line = (cmd ++ " " ++ rest)%string → lacks " " cmd →
  upper cmd = Tau.ETIME_CMD →
  cli_argv_quoted L rest = [a] →
  sd_error (strtod L a) = false → sd_stop_at (strtod L a) = ""%string →
  Tau.client_recv L e w c line =
    let v := sd_value (strtod L a) in
    if dlt v (Fin TauCam.MIN_ETIME) || dlt (Fin TauCam.MAX_ETIME) v then
      Ok (w, c,
          Tau.command_fail Tau.ETIME_CMD "Invalid exposure time specified")
    else
      let s := TauCam.set_exp_start_ts
                 (TauCam.set_frame_count (TauCam.set_etime (Tau.serv w) v) 0)
                 (0 # 1) in
      match Client.image_data c with
      | Some q =>
          h ← free (Tau.mem w) q;
          Ok (Tau.ssPut L (Tau.set_mem (Tau.set_serv w s) h) Tau.SS_ETIME
                (Fmt "%.3f" [ADbl v]),
              Client.with_stream c (Client.send_data c) (Client.data_count c)
                (Client.total_count c) None,
              Fmt "%c %s" [AChr PASS_CHAR; AStr Tau.ETIME_CMD])
      | None =>
          Ok (Tau.ssPut L (Tau.set_serv w s) Tau.SS_ETIME (Fmt "%.3f" [ADbl v]),
              c, Fmt "%c %s" [AChr PASS_CHAR; AStr Tau.ETIME_CMD])
      end.
Proof.
  intros Hline Hcmd Hup Ha Herr Hstop. unfold Tau.client_recv.
  destruct (Tau_line_split line cmd rest Hline Hcmd) as [-> ->].
  cbn [CString.tail]. rewrite Ha.
  rewrite <-!(strcasecmp_upper cmd), Hup. rewrite Herr, Hstop. simpl.
  destruct (_ || _); [done|].
  destruct (Client.image_data c) as [q|]; [|done].
  simpl. by destruct (free (Tau.mem w) q).
Qed.

(** The two comparisons of the range test, on every double. *)
Lemma etime_range_test (v : double) :
  dlt v (Fin TauCam.MIN_ETIME) || dlt (Fin TauCam.MAX_ETIME) v = false ↔
  v = NaN ∨ ∃ q, v = Fin q ∧ (TauCam.MIN_ETIME <= q ∧ q <= TauCam.MAX_ETIME)%Q.
Proof.
  destruct v as [q| | |]; cbn [dlt].
  - rewrite orb_false_iff, !Qltb_false. split.
    + intros [H1 H2]. right. by exists q.
    + intros [H|(q' & [= <-] & H1 & H2)]; done.
  - split; [done|]. by intros [H|(q & H & _)].
  - split; [done|]. by intros [H|(q & H & _)].
  - split; [by left|done].
Qed.

Lemma etime_range_test_fails (v : double) :
  dlt v (Fin TauCam.MIN_ETIME) || dlt (Fin TauCam.MAX_ETIME) v = true ↔
  v = PInf ∨ v = NInf ∨
  ∃ q, v = Fin q ∧ (q < TauCam.MIN_ETIME ∨ TauCam.MAX_ETIME < q)%Q.
Proof.
  destruct v as [q| | |]; cbn [dlt].
  - rewrite orb_true_iff, !Qltb_true. split.
    + intros H. right. right. by exists q.
    + intros [H|[H|(q' & [= <-] & H)]]; done.
  - split; [by left|done].
  - split; [by right; left|done].
  - split; [done|]. by intros [H|[H|(q & H & _)]].
Qed.

(** The state an accepted ETIME leaves on the Tau server. *)
Lemma Tau_etime_effects L e w c line cmd rest a v :
  CString.trim line = (cmd ++ " " ++ rest)%string → lacks " " cmd →
  upper cmd = Tau.ETIME_CMD →
  cli_argv_quoted L rest = [a] →
  sd_error (strtod L a) = false → sd_stop_at (strtod L a) = ""%string →
  sd_value (strtod L a) = v →
  (v = NaN ∨
   ∃ q, v = Fin q ∧ (TauCam.MIN_ETIME <= q ∧ q <= TauCam.MAX_ETIME)%Q) →
  (∀ q, Client.image_data c = Some q → is_Some (Tau.mem w !! q)) →
  ∃ w' c',
    Tau.client_recv L e w c line =
      Ok (w', c', Fmt "%c %s" [AChr PASS_CHAR; AStr Tau.ETIME_CMD]) ∧
    TauCam.etime (Tau.serv w') = v ∧
    (ssPut_ok L Tau.SS_ETIME (Fmt "%.3f" [ADbl v]) = true →
     Tau.ss w' !! Tau.SS_ETIME = Some (Fmt "%.3f" [ADbl v])) ∧
    (ssPut_ok L Tau.SS_ETIME (Fmt "%.3f" [ADbl v]) = false →
     Tau.ss w' = Tau.ss w) ∧
    TauCam.frame_count (Tau.serv w') = 0 ∧
    TauCam.exp_start_ts (Tau.serv w') = 0 # 1 ∧
    Client.image_data c' = None ∧
    (∀ q, Client.image_data c = Some q → Tau.mem w' !! q = None) ∧
    Client.send_data c' = Client.send_data c ∧
    Client.data_count c' = Client.data_count c ∧
    Client.total_count c' = Client.total_count c.
Proof.
  intros Hline Hcmd Hup Ha Herr Hstop Hv Hrange Hmem.
  rewrite (Tau_etime_recv L e w c line cmd rest a) by done. cbv zeta.
  rewrite Hv. apply etime_range_test in Hrange. rewrite Hrange.
  destruct (Client.image_data c) as [q|] eqn:Hq.
  - destruct (Hmem q eq_refl) as [bytes Hb]. unfold free. rewrite Hb.
    rewrite bind_Ok. eexists _, _. split; [done|].
    match goal with
    | |- context [Tau.ssPut L ?w0 ?n ?t] =>
        destruct (Tau_ssPut_spec L w0 n t) as (Hs & _ & Hm & Hput & Hnot)
    end.
    rewrite Hs, Hm. cbn. split_and!; try done.
    intros q' [= <-]. apply lookup_delete_eq.
  - eexists _, _. split; [done|].
    match goal with
    | |- context [Tau.ssPut L ?w0 ?n ?t] =>
        destruct (Tau_ssPut_spec L w0 n t) as (Hs & _ & Hm & Hput & Hnot)
    end.
    rewrite Hs, Hm. cbn. by split_and!.
Qed.

Lemma Tau_etime_rejected L e w c line cmd rest a v :
  CString.trim line = (cmd ++ " " ++ rest)%string → lacks " " cmd →
  upper cmd = Tau.ETIME_CMD →
  cli_argv_quoted L rest = [a] →
  sd_error (strtod L a) = false → sd_stop_at (strtod L a) = ""%string →
  sd_value (strtod L a) = v →
  (v = PInf ∨ v = NInf ∨
   ∃ q, v = Fin q ∧ (q < TauCam.MIN_ETIME ∨ TauCam.MAX_ETIME < q)%Q) →
  Tau.client_recv L e w c line =
    Ok (w, c, Tau.command_fail Tau.ETIME_CMD "Invalid exposure time specified").
Proof.
  intros Hline Hcmd Hup Ha Herr Hstop Hv Hrange.
  rewrite (Tau_etime_recv L e w c line cmd rest a) by done. cbv zeta.
  rewrite Hv. apply etime_range_test_fails in Hrange. by rewrite Hrange.
Qed.



(** ** The frame callback *)

(** C2 at two frames inside one exposure window.  The frame count is 2,
    but the accumulator of the Tau server holds the last frame as it came,
    not the sum of the median-subtracted frames; the callback of
    taucamLocal.cc holds that sum. *)
Theorem callback_overwrites_accumulator :
  stacked 3 [[10; 20; 30]; [1; 2; 3]] = [-11; 0; 11] ∧
  (∃ s, TauCam.deliver Tau.callbackTauImage Examples.exposing
          [Examples.frame_a; Examples.frame_b] = Ok s ∧
        TauCam.frame_count s = 2 ∧
        TauCam.stack_data s = Some [1; 2; 3]) ∧
  (∃ s, TauCam.deliver TauLocal.callbackTauImage Examples.exposing
          [Examples.frame_a; Examples.frame_b] = Ok s ∧
        TauCam.frame_count s = 2 ∧
        TauCam.stack_data s = Some [-11; 0; 11]).
Proof.
  split_and!.
  - vm_compute. reflexivity.
  - eexists. split; [vm_compute; reflexivity|]. split; reflexivity.
  - eexists. split; [vm_compute; reflexivity|]. split; reflexivity.
Qed.

(** ** The exposure timeout *)

(** C4 at an exposure during which no frame arrives.  The Tau server
    answers with the timeout failure and the frame count is 0, but the
    exposure-start timestamp still holds the start time, 100 s.  The same
    holds in taucamLocal.cc. *)
Theorem timeout_keeps_exposure_start :
  (∃ w, Tau.takeImage Examples.tau_no_frames Examples.tau_idle
          Examples.new_client =
        Ok (w, Examples.new_client, Tau.image_fail "Exposure timeout") ∧
        TauCam.frame_count (Tau.serv w) = 0 ∧
        TauCam.exp_start_ts (Tau.serv w) = 100 # 1) ∧
  (∃ s, TauLocal.takeImage Examples.tau_no_frames
          (Tau.serv Examples.tau_idle) ∅ =
        Ok (s, ∅, None, Some (TauLocal.image_fail "Exposure timeout")) ∧
        TauCam.frame_count s = 0 ∧
        TauCam.exp_start_ts s = 100 # 1).
Proof.
  split; eexists; (split; [vm_compute; reflexivity|]); split; reflexivity.
Qed.

(** ** Bias correction *)

(** C5 at accumulators that all exceed 65535.  The loop starts its
    minimum at 65535 and never lowers it, so the values are shifted by
    65535 only: no output pixel is 0.  In taucamLocal.cc four frames on a
    sensor of two pixels lead there. *)
Theorem bias_minimum_not_zero :
  TauCam.min_val [70000; 80000] = 65535 ∧
  Tau.image [70000; 80000] (TauCam.min_val [70000; 80000]) = [4465; 14465] ∧
  (∃ s, TauLocal.takeImage Examples.tau_four_frames
          (Tau.serv Examples.tau_idle) ∅ =
        Ok (s, {[ 1%positive := [26214; 26214] ]}, Some 1%positive, None) ∧
        TauCam.stack_data s = Some [131070; 131070]).
Proof.
  split_and!.
  - reflexivity.
  - reflexivity.
  - eexists. split; [vm_compute; reflexivity|]. reflexivity.
Qed.

(** ** Disconnection *)

(** C9 at a client that leaves with its download pending.  The hook of
    the ZWO server frees the host name only: the image buffer stays
    allocated with nothing left that points to it.  The hook of the Tau
    server frees both. *)
Theorem zwo_client_del_keeps_image :
  (∃ h, Zwo.client_del Examples.leaving_heap Examples.leaving_client = Ok h ∧
        h !! 1%positive = None ∧
        h !! 2%positive = Some [70; 73; 84; 83]) ∧
  Tau.client_del Examples.leaving_heap Examples.leaving_client = Ok ∅.
Proof.
  split.
  - eexists. split; [reflexivity|]. split; reflexivity.
  - vm_compute. reflexivity.
Qed.

(** ** ETIME during a download *)

(** C10 at a client whose download is armed.  ETIME sets the exposure
    time, resets the frame count and the start timestamp and frees the
    image buffer, but [send_data] stays set and the cursor stays below the
    total: the next call of the send hook copies from the NULL buffer. *)
Theorem etime_leaves_stream_armed :
  ∃ w c,
    Tau.client_recv Lib.reference Examples.tau_no_file Examples.tau_streaming
      Examples.streaming_client "ETIME 2" =
    Ok (w, c, Fmt "%c %s" [AChr PASS_CHAR; AStr Tau.ETIME_CMD]) ∧
    TauCam.frame_count (Tau.serv w) = 0 ∧
    TauCam.exp_start_ts (Tau.serv w) = 0 # 1 ∧
    Client.image_data c = None ∧ Tau.mem w = ∅ ∧
    Client.send_data c = 1 ∧ Client.data_count c = 0 ∧
    Client.total_count c = 6 ∧
    Client.client_send_binary (Tau.mem w) c = Fault.
Proof.
  eexists _, _. split; [vm_compute; reflexivity|].
  split_and!; try reflexivity. 
Qed.

(** ** Stacking in taucamLocal.cc *)

Section stacking.
Import TauCam.

Lemma lower_median_elem (data : list Z) :
  (1 ≤ length data)%nat →
  ∃ v, merge_sort Z.le data !! Z.to_nat ((len data - 1) / 2) = Some v ∧
       lower_median data = v ∧ v ∈ data.
Proof.
  intros Hn. unfold lower_median.
  destruct (merge_sort Z.le data !! Z.to_nat ((len data - 1) / 2))
    as [v|] eqn:E.
  - exists v. split_and!; [done..|].
    rewrite <-(merge_sort_Permutation Z.le data).
    by eapply list_elem_of_lookup_2.
  - apply lookup_ge_None in E.
    rewrite (Permutation_length (merge_sort_Permutation Z.le data)) in E.
    unfold len in E.
    assert ((Z.of_nat (length data) - 1) / 2 < Z.of_nat (length data))
      by (Z.div_mod_to_equations; lia).
    lia.
Qed.

Lemma zip_with_sub_add (m : Z) (stack data : list Z) :
  zip_with (λ old new, old + (new - m)) stack data =
  zip_with Z.add stack (map (λ x, x - m) data).
Proof.
  revert data. induction stack as [|x stack IH]; intros [|d data]; simpl;
    [done..|]. by rewrite IH.
Qed.

Lemma zip_with_wrap (m : Z) (stack data : list Z) :
  Forall (λ x, Z.abs x + 65535 ≤ INT_MAX) stack →
  u16 data → 0 ≤ m < 65536 →
  zip_with (λ old new, wrap32 (old + (new - m))) stack data =
  zip_with (λ old new, old + (new - m)) stack data.
Proof.
  unfold INT_MAX, u16. intros Hs. revert data.
  induction Hs as [|x stack Hx _ IH]; intros [|d data] Hd Hm; simpl;
    [done..|].
  apply Forall_cons in Hd as [Hd Hdata].
  rewrite wrap32_id by lia. by rewrite IH.
Qed.

(** One frame that fits, inside an exposure window. *)
Lemma TauLocal_callback_adds (s : server_info) (b : TauRawBitmap)
    (stack : list Z) :
  (1 ≤ pixels s)%nat → Z.of_nat (pixels s) ≤ 1073741824 →
  stack_data s = Some stack → length stack = pixels s →
  Qeq_bool (exp_start_ts s) (0 # 1) = false →
  b_width b = width s → b_height b = height s →
  length (b_data b) = pixels s → u16 (b_data b) →
  Forall (λ x, Z.abs x + 65535 ≤ INT_MAX) stack →
  TauLocal.callbackTauImage s b =
    Ok (set_frame_count
          (set_stack_data s
             (Some (zip_with Z.add stack (median_subtracted (b_data b)))))
          (wrapu32 (frame_count s + 1))).
Proof.
  intros Hn1 Hn2 Hst Hlen Hts Hw Hh Hd Hu Hov.
  unfold TauLocal.callbackTauImage, callbackTauImage_with.
  rewrite Hst, Hw, Hh, !Z.eqb_refl, Hts. cbn [negb orb]. rewrite bind_Ok.
  rewrite decide_True by lia. rewrite bind_Ok.
  rewrite (take_ge (b_data b)) by lia.
  destruct (lower_median_elem (b_data b)) as (v & Hv & Hm & Hin); [lia|].
  destruct (medianCalculation_spec (S (3 * pixels s)) (b_data b)
              (Z.of_nat (pixels s)))
    as (v' & arr' & -> & _ & Hv'); [unfold len; lia|lia|done|lia|].
  rewrite bind_Ok. cbn beta iota.
  assert (v' = v) as ->.
  { unfold len in Hv. rewrite Hd in Hv. congruence. }
  rewrite Hst. unfold stack_loop.
  rewrite decide_True by lia. rewrite bind_Ok.
  rewrite (take_ge stack), (take_ge (b_data b)), (drop_ge stack), app_nil_r
    by lia.
  assert (0 ≤ v < 65536) as Hvr.
  { unfold u16 in Hu. rewrite Forall_forall in Hu. by apply Hu. }
  rewrite zip_with_wrap, zip_with_sub_add by done.
  unfold median_subtracted. by rewrite Hm.
Qed.

Lemma median_subtracted_bound (data : list Z) :
  (1 ≤ length data)%nat → u16 data →
  Forall (λ x, Z.abs x ≤ 65535) (median_subtracted data).
Proof.
  intros Hn Hu. destruct (lower_median_elem data Hn) as (v & _ & Hm & Hin).
  unfold median_subtracted, u16 in *. rewrite Hm.
  rewrite Forall_forall in Hu. pose proof (Hu v Hin).
  apply Forall_map, Forall_forall. intros x Hx. pose proof (Hu x Hx). lia.
Qed.

(** A run of frames that fit, inside one exposure window: every frame is
    counted and its median-subtracted pixels are added to the
    accumulator. *)
Lemma TauLocal_deliver_stacks (frames : list TauRawBitmap) :
  ∀ (s : server_info) (stack : list Z),
    (1 ≤ pixels s)%nat → Z.of_nat (pixels s) ≤ 1073741824 →
    stack_data s = Some stack → length stack = pixels s →
    Qeq_bool (exp_start_ts s) (0 # 1) = false →
    0 ≤ frame_count s < 4294967296 →
    Forall (λ b, b_width b = width s ∧ b_height b = height s ∧
                 length (b_data b) = pixels s ∧ u16 (b_data b)) frames →
    Forall (λ x, Z.abs x + 65535 * Z.of_nat (length frames) ≤ INT_MAX) stack →
    ∃ s',
      deliver TauLocal.callbackTauImage s frames = Ok s' ∧
      frame_count s' = wrapu32 (frame_count s + Z.of_nat (length frames)) ∧
      stack_data s' =
        Some (foldl (zip_with Z.add) stack
                (median_subtracted <$> (b_data <$> frames))) ∧
      exp_start_ts s' = exp_start_ts s.
Proof.
  induction frames as [|b frames IH];
    intros s stack Hn1 Hn2 Hst Hlen Hts Hfc Hfr Hov.
  - exists s. simpl. split_and!; try done.
    by rewrite Z.add_0_r, wrapu32_id.
  - apply Forall_cons in Hfr as [(Hw & Hh & Hd & Hu) Hfr].
    cbn [deliver].
    rewrite (TauLocal_callback_adds s b stack); try done.
    2:{ eapply Forall_impl; [exact Hov|]. simpl. intros x Hx. lia. }
    rewrite bind_Ok.
    set (stack1 := zip_with Z.add stack (median_subtracted (b_data b))).
    set (s1 := set_frame_count (set_stack_data s (Some stack1))
                 (wrapu32 (frame_count s + 1))).
    destruct (IH s1 stack1) as (s' & Hdel & Hcount & Hstack & Hstart);
      try done.
    + subst stack1. rewrite length_zip_with.
      unfold median_subtracted. rewrite length_map. unfold s1, pixels. simpl.
      fold (pixels s). lia.
    + simpl. unfold wrapu32. apply Z.mod_pos_bound. lia.
    + subst stack1.
      pose proof (median_subtracted_bound (b_data b)) as Hb.
      specialize (Hb ltac:(lia) Hu).
      clear -Hov Hb. revert Hb. generalize (median_subtracted (b_data b)).
      induction Hov as [|x stack Hx _ IH']; intros [|d ds] Hb; simpl;
        try constructor.
      * apply Forall_cons in Hb as [Hd _]. simpl in Hx. lia.
      * apply Forall_cons in Hb as [_ Hds]. by apply IH'.
    + exists s'. split_and!; try done.
      rewrite Hcount. simpl. unfold wrapu32.
      rewrite Z.add_mod_idemp_l by lia. f_equal. simpl length. lia.
Qed.

(** From the start of an exposure window: after N frames the count is N
    and the accumulator is the sum of the median-subtracted frames. *)
Lemma TauLocal_window_stacks (frames : list TauRawBitmap) (s : server_info) :
  (1 ≤ pixels s)%nat → Z.of_nat (pixels s) ≤ 1073741824 →
  stack_data s = Some (replicate (pixels s) 0) → frame_count s = 0 →
  Qeq_bool (exp_start_ts s) (0 # 1) = false →
  Forall (λ b, b_width b = width s ∧ b_height b = height s ∧
               length (b_data b) = pixels s ∧ u16 (b_data b)) frames →
  Z.of_nat (length frames) ≤ 32767 →
  ∃ s',
    deliver TauLocal.callbackTauImage s frames = Ok s' ∧
    frame_count s' = Z.of_nat (length frames) ∧
    stack_data s' = Some (stacked (pixels s) (b_data <$> frames)).
Proof.
  intros Hn1 Hn2 Hst Hfc Hts Hfr HN.
  destruct (TauLocal_deliver_stacks frames s (replicate (pixels s) 0))
    as (s' & Hdel & Hcount & Hstack & _); try done.
  - apply length_replicate.
  - lia.
  - apply Forall_replicate. unfold INT_MAX. lia.
  - exists s'. split_and!; try done.
    rewrite Hcount, Hfc, wrapu32_id; lia.
Qed.

End stacking.

(** ** Every timeout keeps the start timestamp *)

Section timeout.
Import TauCam.

Lemma clear_stack_fields s s' :
  clear_stack s = Ok s' →
  exp_start_ts s' = exp_start_ts s ∧ frame_count s' = frame_count s ∧
  etime s' = etime s.
Proof.
  unfold clear_stack. intros H.
  repeat case_match; by simplify_eq/=.
Qed.

Lemma callback_keeps_start pixel s b s' :
  callbackTauImage_with pixel s b = Ok s' →
  exp_start_ts s' = exp_start_ts s.
Proof.
  unfold callbackTauImage_with. intros H.
  set (s0 := match stack_data s with
             | Some _ => s
             | None => _
             end) in H.
  assert (exp_start_ts s0 = exp_start_ts s) as <-
    by (subst s0; by destruct (stack_data s)).
  clearbody s0.
  destruct (_ || _); [by simplify_eq|].
  apply bind_Ok_inv in H as (s1 & H1 & H).
  assert (exp_start_ts s1 = exp_start_ts s0) as <-.
  { destruct (Qeq_bool _ _); [|by simplify_eq].
    by apply clear_stack_fields in H1 as (-> & _). }
  apply bind_Ok_inv in H as (copy & _ & H).
  apply bind_Ok_inv in H as ([m arr] & _ & H).
  apply bind_Ok_inv in H as (st & _ & H). by simplify_eq/=.
Qed.

Lemma deliver_keeps_start pixel frames :
  ∀ s s', deliver (callbackTauImage_with pixel) s frames = Ok s' →
          exp_start_ts s' = exp_start_ts s.
Proof.
  induction frames as [|b frames IH]; intros s s' H; simpl in H.
  - by simplify_eq.
  - apply bind_Ok_inv in H as (s1 & H1 & H).
    rewrite (IH _ _ H). by eapply callback_keeps_start.
Qed.

Lemma wait_frames_timeout pixel fuel :
  ∀ s stop_ts clk arr s',
    wait_frames (callbackTauImage_with pixel) fuel s stop_ts clk arr =
      Ok (TimedOut s') →
    frame_count s' = 0 ∧ exp_start_ts s' = exp_start_ts s.
Proof.
  induction fuel as [|fuel IH]; intros s stop_ts clk arr s' H; [done|].
  cbn [wait_frames] in H.
  apply bind_Ok_inv in H as (s1 & H1 & H).
  apply deliver_keeps_start in H1 as <-.
  destruct (frame_count s1 =? 0) eqn:Hfc.
  - apply Z.eqb_eq in Hfc.
    destruct clk as [|now clk]; [done|]. rewrite bind_Ok in H.
    destruct (Qltb _ now); [by simplify_eq|].
    destruct clk as [|now' clk]; [done|].
    destruct (_ || _); [|done]. by apply IH in H.
  - rewrite bind_Ok in H. destruct clk as [|now clk]; [done|].
    destruct (_ || _); [|done]. by apply IH in H.
Qed.

Lemma expose_timeout pixel e s s' :
  expose (callbackTauImage_with pixel) e s = Ok (TimedOut s') →
  frame_count s' = 0 ∧
  ∃ t0 rest, clock e = t0 :: rest ∧ exp_start_ts s' = t0.
Proof.
  unfold expose. intros H.
  apply bind_Ok_inv in H as (s1 & _ & H).
  destruct (clock e) as [|t0 [|t1 clk]]; try done.
  apply wait_frames_timeout in H as [? ?]. split; [done|].
  by exists t0, (t1 :: clk).
Qed.

(** Whenever the Tau server's [takeImage] answers with the timeout
    failure, the frame count is 0 and the exposure-start timestamp is the
    clock reading taken at the start. *)
Lemma Tau_takeImage_timeout e w c w' c' :
  Tau.takeImage e w c = Ok (w', c', Tau.image_fail "Exposure timeout") →
  frame_count (Tau.serv w') = 0 ∧
  ∃ t0 rest, clock e = t0 :: rest ∧ exp_start_ts (Tau.serv w') = t0.
Proof.
  unfold Tau.takeImage, Tau.image_fail. intros H.
  destruct (open_ok e); simpl in H; [|by simplify_eq/=].
  destruct (_ || _); [by simplify_eq/=|].
  apply bind_Ok_inv in H as (x & Hx & H).
  destruct x as [s|s].
  - apply bind_Ok_inv in H as ([[r w1] bytes] & _ & H).
    destruct r; [|by simplify_eq/=].
    destruct (fstat_ok e); simpl in H; [|by simplify_eq/=].
    destruct (read_ok e); simpl in H; by simplify_eq/=.
  - simplify_eq/=. by apply expose_timeout in Hx.
Qed.

End timeout.

(** ** Bias correction when the minimum is within 16 bits *)

Section bias.
Import TauCam.

Lemma min_val_fold (stack : list Z) (m : Z) :
  fold_left (λ m x, if x <? m then x else m) stack m ≤ m ∧
  (∀ x, x ∈ stack → fold_left (λ m x, if x <? m then x else m) stack m ≤ x) ∧
  (fold_left (λ m x, if x <? m then x else m) stack m = m ∨
   fold_left (λ m x, if x <? m then x else m) stack m ∈ stack).
Proof.
  revert m. induction stack as [|y stack IH]; intros m; simpl.
  - split_and!; [lia| |by left]. intros x Hx. by apply elem_of_nil in Hx.
  - destruct (IH (if y <? m then y else m)) as (H1 & H2 & H3).
    destruct (y <? m) eqn:E; [apply Z.ltb_lt in E|apply Z.ltb_ge in E].
    + split_and!; [lia| |].
      * intros x [->|Hx]%elem_of_cons; [done|by apply H2].
      * right. destruct H3 as [->|H3]; [by left|by right].
    + split_and!; [lia| |].
      * intros x [->|Hx]%elem_of_cons; [lia|by apply H2].
      * destruct H3 as [H3|H3]; [by left|right; by right].
Qed.

(** For non-negative accumulators of which one is at most 65535, the
    corrected image has a pixel equal to 0 and none below. *)
Lemma bias_minimum_zero_if_reached (stack : list Z) :
  Forall (λ x, 0 ≤ x ≤ INT_MAX) stack →
  (∃ x, x ∈ stack ∧ x ≤ 65535) →
  0 ∈ Tau.image stack (min_val stack) ∧
  Forall (λ y, 0 ≤ y) (Tau.image stack (min_val stack)).
Proof.
  unfold INT_MAX. intros Hs (x & Hx & Hx').
  destruct (min_val_fold stack 65535) as (H1 & H2 & H3).
  fold (min_val stack) in *.
  rewrite Forall_forall in Hs.
  assert (0 ≤ min_val stack ≤ 65535) as Hm.
  { split; [|done]. destruct H3 as [->|H3]; [lia|]. by apply Hs. }
  assert (min_val stack ∈ stack) as Hin.
  { destruct H3 as [H3|H3]; [|done].
    pose proof (H2 x Hx). by replace (min_val stack) with x by lia. }
  split.
  - unfold Tau.image. apply list_elem_of_fmap. exists (min_val stack).
    split; [|done]. rewrite Z.sub_diag. reflexivity.
  - unfold Tau.image. apply Forall_map, Forall_forall. intros y Hy. simpl.
    pose proof (Hs y Hy). pose proof (H2 y Hy).
    rewrite wrap32_id by lia.
    destruct (y - min_val stack >? 65535); [lia|].
    unfold wrapu16. apply Z.mod_pos_bound. lia.
Qed.

End bias.

(** ** Disconnection, in general *)

(** A client that leaves with a host name and a pending image buffer: the
    ZWO hook frees the host name and keeps the image buffer, the Tau hook
    frees both. *)
Lemma client_del_buffers (h : heap) (c : Client.client_info) (p q : loc)
    (data : list Z) :
  Client.hostname c = Some p → Client.image_data c = Some q → p ≠ q →
  is_Some (h !! p) → h !! q = Some data →
  Zwo.client_del h c = Ok (delete p h) ∧
  delete p h !! q = Some data ∧
  Tau.client_del h c = Ok (delete q (delete p h)).
Proof.
  intros Hp Hq Hne [name Hn] Hd.
  unfold Zwo.client_del, Tau.client_del, free. rewrite Hp, Hq, Hn.
  rewrite bind_Ok, lookup_delete_ne, Hd by done.
  split_and!; try done.
Qed.


(** * Further properties *)

(** ** Strings *)

Section strings.
Import CString.

Lemma strncmp_eq n :
  ∀ a b, nul_free a → nul_free b → (String.length a < n)%nat →
         strncmp a b n = 0 ↔ a = b.
Proof.
  induction n as [|n IH]; intros a b Ha Hb Hn; [lia|].
  destruct a as [|c a], b as [|d b]; simpl.
  - done.
  - destruct Hb as [Hd _]. split; [|done]. intros H.
    destruct Hd. apply code_NUL. lia.
  - destruct Ha as [Hc _]. split; [|done]. intros H.
    destruct Hc. by apply code_NUL.
  - destruct Ha as [Hc Ha], Hb as [Hd Hb].
    destruct (code c =? code d) eqn:E.
    + apply Z.eqb_eq, code_inj in E as ->.
      rewrite IH by (done || simpl in Hn; lia). split; [by intros ->|].
      by intros [=].
    + apply Z.eqb_neq in E. split; [lia|]. intros [=]. by subst.
Qed.

End strings.

(** ** The gain named on the command line ([str_to_gain], taucamLocal.cc) *)

(** X1. [str_to_gain] gives GAIN_LOW for LOW and GAIN_MANUAL for MANUAL,
    letter case observed, and GAIN_AUTO for every other string, HIGH
    included: the value the first [if] statement assigns is overwritten by
    the second, so GAIN_HIGH is never returned. *)
Theorem str_to_gain_never_high (gain_str : string) :
  nul_free gain_str →
  TauLocal.str_to_gain gain_str =
    (if String.eqb gain_str "LOW" then TauCam.GAIN_LOW
     else if String.eqb gain_str "MANUAL" then TauCam.GAIN_MANUAL
     else TauCam.GAIN_AUTO) ∧
  TauLocal.str_to_gain gain_str ≠ TauCam.GAIN_HIGH ∧
  TauLocal.str_to_gain "HIGH" = TauCam.GAIN_AUTO.
Proof.
  intros Hn.
  assert (∀ lit, nul_free lit → (String.length lit < 10)%nat →
                 (CString.strncmp lit gain_str 10 =? 0) = String.eqb gain_str lit)
    as Hlit.
  { intros lit Hl Hlen.
    destruct (String.eqb gain_str lit) eqn:E.
    - apply String.eqb_eq in E as ->. apply Z.eqb_eq.
      by apply strncmp_eq.
    - apply String.eqb_neq in E. apply Z.eqb_neq. intros H.
      apply strncmp_eq in H; [by subst|done..]. }
  assert (TauLocal.str_to_gain gain_str =
    (if String.eqb gain_str "LOW" then TauCam.GAIN_LOW
     else if String.eqb gain_str "MANUAL" then TauCam.GAIN_MANUAL
     else TauCam.GAIN_AUTO)) as Heq.
  { unfold TauLocal.str_to_gain.
    rewrite (Hlit "LOW"%string), (Hlit "MANUAL"%string);
      [|repeat split; discriminate|simpl; lia
       |repeat split; discriminate|simpl; lia].
    by repeat case_match. }
  split_and!; [done| |reflexivity].
  rewrite Heq. by repeat case_match.
Qed.

Lemma str_to_gain_never_high_witness :
  TauLocal.str_to_gain "MANUAL" =
    (if String.eqb "MANUAL" "LOW" then TauCam.GAIN_LOW
     else if String.eqb "MANUAL" "MANUAL" then TauCam.GAIN_MANUAL
     else TauCam.GAIN_AUTO) ∧
  TauLocal.str_to_gain "MANUAL" ≠ TauCam.GAIN_HIGH ∧
  TauLocal.str_to_gain "HIGH" = TauCam.GAIN_AUTO.
Proof.
  apply (str_to_gain_never_high "MANUAL").
  repeat split; discriminate.
Defined.


(** ** The exposure time named on the command line ([main], taucamLocal.cc) *)

Lemma Qeq_bool_inject_Z_0 (z : Z) : Qeq_bool (inject_Z z) (0 # 1) = (z =? 0).
Proof. unfold Qeq_bool, inject_Z. simpl. by rewrite Z.mul_1_r. Qed.

Lemma Qltb_inject_Z (a b : Z) (p : positive) :
  Qltb (inject_Z a) (b # p) = (a * Z.pos p <? b).
Proof.
  unfold Qltb, Qle_bool, inject_Z. simpl. rewrite Z.mul_1_r.
  destruct (a * Z.pos p <? b) eqn:E.
  - apply Z.ltb_lt in E. apply negb_true_iff, Z.leb_gt. lia.
  - apply Z.ltb_ge in E. apply negb_false_iff, Z.leb_le. lia.
Qed.

Lemma Qltb_inject_Z_r (a b : Z) (p : positive) :
  Qltb (b # p) (inject_Z a) = (b <? a * Z.pos p).
Proof.
  unfold Qltb, Qle_bool, inject_Z. simpl. rewrite Z.mul_1_r.
  destruct (b <? a * Z.pos p) eqn:E.
  - apply Z.ltb_lt in E. apply negb_true_iff, Z.leb_gt. lia.
  - apply Z.ltb_ge in E. apply negb_false_iff, Z.leb_le. lia.
Qed.

(** X2. The exposure time [main] of taucamLocal.cc works with is a whole
    number of seconds: the milliseconds of [argv[1]] are divided by 1000
    as integers.  An argument of less than one second in size gives the
    default of 1 s.  [takeImage] accepts the resulting time exactly when
    the argument lies between -999 and 600999 ms. *)
Theorem main_etime_whole_seconds (L : library) (argv1 : string) :
  (-1000 < atoi L argv1 < 1000 →
   TauLocal.main_etime L argv1 = TauCam.DEFAULT_ETIME) ∧
  (atoi L argv1 ≤ -1000 ∨ 1000 ≤ atoi L argv1 →
   TauLocal.main_etime L argv1 = inject_Z (Z.quot (atoi L argv1) 1000)) ∧
  (dlt (Fin (TauLocal.main_etime L argv1)) (Fin TauCam.MIN_ETIME) ||
   dlt (Fin TauCam.MAX_ETIME) (Fin (TauLocal.main_etime L argv1)) = false
   ↔ -1000 < atoi L argv1 < 601000).
Proof.
  cbn [dlt].
  unfold TauLocal.main_etime. cbv zeta. rewrite Qeq_bool_inject_Z_0.
  set (a := atoi L argv1). clearbody a.
  split_and!.
  - intros Ha. assert (Z.quot a 1000 = 0) as -> by (Z.quot_rem_to_equations; lia). done.
  - intros Ha. destruct (Z.quot a 1000 =? 0) eqn:E; [|done].
    apply Z.eqb_eq in E. Z.quot_rem_to_equations. lia.
  - destruct (Z.quot a 1000 =? 0) eqn:E.
    + apply Z.eqb_eq in E. split; [|done]. intros _. Z.quot_rem_to_equations. lia.
    + apply Z.eqb_neq in E.
      unfold TauCam.MIN_ETIME, TauCam.MAX_ETIME.
      rewrite Qltb_inject_Z, Qltb_inject_Z_r, orb_false_iff, !Z.ltb_ge.
      Z.quot_rem_to_equations. lia.
Qed.

Lemma main_etime_whole_seconds_witness :
  TauLocal.main_etime Lib.reference "1999" = inject_Z 1 ∧
  TauLocal.main_etime Lib.reference "500" = TauCam.DEFAULT_ETIME.
Proof.
  split.
  - rewrite (proj1 (proj2 (main_etime_whole_seconds Lib.reference "1999"))).
    + reflexivity.
    + right. vm_compute. discriminate.
  - apply (proj1 (main_etime_whole_seconds Lib.reference "500")).
    split; reflexivity.
Defined.


(** ** Memory *)

Lemma fresh_unused (h : heap) : h !! fresh (dom h) = None.
Proof. apply not_elem_of_dom, is_fresh. Qed.

Lemma cli_malloc_spec (h : heap) (contents : list Z) :
  ∃ p, cli_malloc h contents = (<[p := contents]> h, p) ∧ h !! p = None.
Proof. exists (fresh (dom h)). split; [done|apply fresh_unused]. Qed.

Lemma free_insert (h : heap) (p : loc) (contents : list Z) :
  h !! p = None → free (<[p := contents]> h) p = Ok h.
Proof.
  intros Hp. unfold free. rewrite lookup_insert_eq.
  by rewrite delete_insert_id.
Qed.

Lemma free_twice (h h' : heap) (p : loc) :
  free h p = Ok h' → free h' p = Fault.
Proof.
  unfold free. destruct (h !! p); [|done]. intros [= <-].
  by rewrite lookup_delete_eq.
Qed.

(** ** The difference image ([takeDifferential], taucamLocal.cc) *)

Section differential.
Import TauCam TauLocal.

Lemma difference_u16 (img_1 img_2 : list Z) :
  u16 img_1 → u16 img_2 →
  zip_with (λ x1 x2, wrap32 (x2 - x1)) img_1 img_2 =
  zip_with (λ x1 x2, x2 - x1) img_1 img_2.
Proof.
  intros H1. revert img_2. induction H1 as [|x img_1 Hx _ IH];
    intros [|y img_2] H2; simpl; try done.
  apply Forall_cons in H2 as [Hy H2].
  rewrite IH by done. f_equal. apply wrap32_id. lia.
Qed.

(** X3. [takeDifferential] on two images of the sensor's size: the pixels
    it hands to the FITS writer are the differences second minus first,
    none of them wrapped.  When the file cannot be opened or its header
    cannot be written the routine reports so and the heap is as before;
    when all is written it returns PASS and the heap is as before; when
    the writer refuses the pixel data, [writeFITSImage] has freed the
    difference buffer and [takeDifferential] frees it a second time. *)
Theorem takeDifferential_outcomes (e : env) (s : server_info) (h : heap)
    (img_1 img_2 : list Z) :
  length img_1 = pixels s → length img_2 = pixels s →
  u16 img_1 → u16 img_2 →
  takeDifferential e s h (Some img_1) (Some img_2) =
    if negb (open_ok e) then
      Ok (DIFF_NULL, s, h,
          Some (image_fail "Unable to save temporary file on the camera server"))
    else if negb (fh_write_ok e) then
      Ok (DIFF_FAIL, set_exp_start_ts s (0 # 1), h,
          Some (image_fail "Unable to save temporary file on the guide server"))
    else
      match fh_write_padded_image e
              (zip_with (λ x1 x2, x2 - x1) img_1 img_2) with
      | Some _ => Ok (DIFF_PASS, s, h, None)
      | None => Fault
      end.
Proof.
  intros H1 H2 Hu1 Hu2. unfold takeDifferential.
  destruct (cli_malloc_spec h (replicate (pixels s) 0)) as (p & -> & Hp).
  assert (difference (pixels s) (Some img_1) (Some img_2) =
          Ok (zip_with (λ x1 x2, x2 - x1) img_1 img_2)) as ->.
  { unfold difference. destruct (decide (pixels s = 0)%nat) as [E|E].
    - rewrite E in H1, H2. destruct img_1, img_2; done.
    - rewrite decide_True by lia.
      rewrite <-H1 at 1. rewrite <-H2, !firstn_all.
      by rewrite difference_u16. }
  rewrite bind_Ok, insert_insert_eq.
  set (diff := zip_with _ img_1 img_2).
  destruct (open_ok e); simpl.
  2:{ by rewrite free_insert. }
  unfold writeFITSImage.
  destruct (fh_write_ok e); simpl.
  2:{ by rewrite free_insert. }
  rewrite lookup_insert_eq.
  destruct (fh_write_padded_image e diff); simpl.
  - by rewrite free_insert.
  - rewrite free_insert by done. simpl.
    unfold free. by rewrite Hp.
Qed.

Lemma takeDifferential_outcomes_witness :
  takeDifferential Examples.tau_four_frames Examples.exposing ∅
    (Some [10; 20; 30]) (Some [1; 2; 3]) =
  Ok (DIFF_PASS, Examples.exposing, ∅, None).
Proof.
  rewrite (takeDifferential_outcomes Examples.tau_four_frames
             Examples.exposing ∅ [10; 20; 30] [1; 2; 3]).
  - reflexivity.
  - reflexivity.
  - reflexivity.
  - unfold u16. repeat constructor; lia.
  - unfold u16. repeat constructor; lia.
Defined.

(** X4. When one of the two images is NULL, as [takeImage] returns it on
    every failure and [main] passes it on, [takeDifferential] reads
    through the null pointer as soon as the sensor has a pixel. *)
Theorem takeDifferential_null_image (e : env) (s : server_info) (h : heap)
    (img_1 img_2 : option (list Z)) :
  pixels s ≠ 0%nat → img_1 = None ∨ img_2 = None →
  takeDifferential e s h img_1 img_2 = Fault.
Proof.
  intros Hn Hnull. unfold takeDifferential.
  destruct (cli_malloc h _) as [h' p].
  unfold difference. rewrite decide_False by done.
  destruct Hnull as [-> | ->]; [done|by destruct img_1].
Qed.

Lemma takeDifferential_null_image_witness :
  takeDifferential Examples.tau_four_frames Examples.exposing ∅
    None (Some [1; 2; 3]) = Fault.
Proof.
  apply (takeDifferential_null_image Examples.tau_four_frames
           Examples.exposing ∅ None (Some [1; 2; 3])).
  - vm_compute. lia.
  - by left.
Defined.

End differential.


(** ** Trimming ([ltrim], [rtrim], [trim]) *)

Section trimming.
Import CString.

Lemma rtrim_cons c r :
  rtrim (String c r) =
    match rtrim r with
    | EmptyString => if isspace c then EmptyString else String c EmptyString
    | r' => String c r'
    end.
Proof. done. Qed.

Lemma rtrim_stop_cons c r n :
  rtrim_stop (String c r) (S n) =
    match rtrim_stop r n with
    | O => if isspace c then O else 1%nat
    | k => S k
    end.
Proof.
  induction n as [|i IH].
  - simpl. by destruct (isspace c).
  - change (rtrim_stop (String c r) (S (S i))) with
      (if isspace (default NUL (String.get i r))
       then rtrim_stop (String c r) (S i) else S (S i)).
    cbn [rtrim_stop].
    destruct (isspace (default NUL (String.get i r))); [apply IH|done].
Qed.

Lemma rtrim_stop_length s :
  rtrim_stop s (String.length s) = String.length (rtrim s).
Proof.
  induction s as [|c r IH]; [done|].
  cbn [String.length]. rewrite rtrim_stop_cons, IH, rtrim_cons.
  destruct (rtrim r); [by destruct (isspace c)|done].
Qed.

Lemma substring_rtrim s :
  String.substring 0 (String.length (rtrim s)) s = rtrim s.
Proof.
  induction s as [|c r IH]; [done|].
  rewrite rtrim_cons. destruct (rtrim r) as [|d r'] eqn:E.
  - destruct (isspace c); [done|]. simpl. by destruct r.
  - cbn [String.length String.substring]. f_equal. exact IH.
Qed.

(** The index loop of the source and the recursion on the string give the
    same string. *)
Lemma rtrim_loop_rtrim s : rtrim_loop s = rtrim s.
Proof. unfold rtrim_loop. rewrite rtrim_stop_length. apply substring_rtrim. Qed.

Lemma append_cons c (a b : string) :
  (String c a ++ b)%string = String c (a ++ b)%string.
Proof. reflexivity. Qed.

Lemma ltrim_split s :
  ∃ pre, s = (pre ++ ltrim s)%string ∧ all_space pre = true ∧
         isspace (deref (ltrim s)) = false.
Proof.
  induction s as [|c r (pre & Hs & Hpre & Hf)].
  - by exists EmptyString.
  - simpl. destruct (isspace c) eqn:E.
    + exists (String c pre). simpl. rewrite E, Hpre. split_and!; try done.
      by rewrite append_cons, <-Hs.
    + by exists EmptyString.
Qed.

Lemma rtrim_split s :
  ∃ post, s = (rtrim s ++ post)%string ∧ all_space post = true ∧
          isspace (last_char (rtrim s)) = false.
Proof.
  induction s as [|c r (post & Hs & Hpost & Hl)].
  - by exists EmptyString.
  - rewrite rtrim_cons. destruct (rtrim r) as [|d r'] eqn:E.
    + destruct (isspace c) eqn:Ec.
      * exists (String c post). simpl in *. rewrite Ec, Hpost.
        split_and!; try done. by rewrite Hs.
      * exists post. simpl in *. split_and!; try done.
        by rewrite append_cons, <-Hs.
    + exists post. split_and!; try done.
      by rewrite append_cons, <-Hs.
Qed.

Lemma rtrim_head s :
  isspace (deref s) = false → deref (rtrim s) = deref s.
Proof.
  destruct s as [|c r]; [done|]. simpl. intros Hc.
  destruct (rtrim r); [by rewrite Hc|done].
Qed.

Lemma ltrim_id s : isspace (deref s) = false → ltrim s = s.
Proof. destruct s as [|c r]; [done|]. simpl. by intros ->. Qed.

Lemma rtrim_id s : isspace (last_char s) = false → rtrim s = s.
Proof.
  induction s as [|c r IH]; [done|]. intros Hl.
  rewrite rtrim_cons. destruct r as [|d r].
  - simpl in *. by rewrite Hl.
  - rewrite IH by done. done.
Qed.

(** X5. [trim] cuts whitespace off both ends and nothing else: the line is
    the trimmed string between two runs of whitespace, the trimmed string
    neither starts nor ends with whitespace, and trimming it again changes
    nothing.  The index loop of [rtrim] computes the same cut. *)
Theorem trim_cuts_surrounding_whitespace (str : string) :
  (∃ pre post,
     str = (pre ++ trim str ++ post)%string ∧
     all_space pre = true ∧ all_space post = true) ∧
  isspace (deref (trim str)) = false ∧
  isspace (last_char (trim str)) = false ∧
  trim (trim str) = trim str ∧
  trim str = rtrim_loop (ltrim str).
Proof.
  unfold trim.
  destruct (ltrim_split str) as (pre & Hs & Hpre & Hf).
  destruct (rtrim_split (ltrim str)) as (post & Hs' & Hpost & Hl).
  assert (isspace (deref (rtrim (ltrim str))) = false) as Hf'.
  { by rewrite rtrim_head. }
  split_and!.
  - exists pre, post. split_and!; try done.
    by rewrite <-Hs', <-Hs.
  - done.
  - done.
  - rewrite (ltrim_id (rtrim _)) by done. by apply rtrim_id.
  - by rewrite rtrim_loop_rtrim.
Qed.

End trimming.


(** ** Case insensitive search ([stristr], zwocamServ.c) *)

Section stristr_more.
Import CString.

Lemma find_ci_first pat s t :
  find_ci pat s = Some t →
  ∃ pre, s = (pre ++ t)%string ∧ has_prefix_ci pat t = true ∧
    ∀ pre' t', s = (pre' ++ t')%string →
               (String.length pre' < String.length pre)%nat →
               has_prefix_ci pat t' = false.
Proof.
  revert t. induction s as [|c s IH]; intros t; rewrite find_ci_unfold.
  - destruct (has_prefix_ci pat EmptyString) eqn:E; [|done].
    intros [= <-]. exists EmptyString. split_and!; try done.
    intros pre' t' _ Hlt. simpl in Hlt. lia.
  - destruct (has_prefix_ci pat (String c s)) eqn:E.
    + intros [= <-]. exists EmptyString. split_and!; try done.
      intros pre' t' _ Hlt. simpl in Hlt. lia.
    + intros Hf. destruct (IH _ Hf) as (pre & -> & Hp & Hfirst).
      exists (String c pre). split_and!; try done.
      intros [|c' pre'] t' Heq Hlt.
      * change (String c (pre ++ t)%string = t') in Heq. by subst.
      * change (String c (pre ++ t)%string = String c' (pre' ++ t')%string)
          in Heq.
        simplify_eq. apply (Hfirst pre'); [done|]. simpl in Hlt. lia.
Qed.

(** X6. For a pattern that is not empty, [stristr] stays inside both
    strings and returns NULL exactly when the pattern does not occur in
    the string, letter case ignored; otherwise it returns the place of the
    first occurrence. *)
Theorem stristr_first_occurrence (str : string) (p : ascii) (pat : string) :
  p ≠ NUL → nul_free pat →
  strlen str < 4294967296 → strlen (String p pat) < 4294967296 →
  ∃ r, stristr str (String p pat) = Ok r ∧
    match r with
    | None => ¬ occurs_ci (String p pat) str
    | Some t =>
        ∃ pre, str = (pre ++ t)%string ∧
          has_prefix_ci (String p pat) t = true ∧
          ∀ pre' t', str = (pre' ++ t')%string →
                     (String.length pre' < String.length pre)%nat →
                     has_prefix_ci (String p pat) t' = false
    end.
Proof.
  intros Hp Hn Hs Hpat. exists (find_ci (String p pat) str).
  split; [by apply stristr_spec|].
  destruct (find_ci (String p pat) str) as [t|] eqn:E.
  - by apply find_ci_first.
  - intros Hocc. apply find_ci_Some_iff in Hocc as [t Ht]. congruence.
Qed.

Lemma stristr_first_occurrence_witness :
  ∃ r, stristr "take an Image now" "IMAGE" = Ok r ∧
    match r with
    | None => ¬ occurs_ci "IMAGE" "take an Image now"
    | Some t =>
        ∃ pre, "take an Image now"%string = (pre ++ t)%string ∧
          has_prefix_ci "IMAGE" t = true ∧
          ∀ pre' t', "take an Image now"%string = (pre' ++ t')%string →
                     (String.length pre' < String.length pre)%nat →
                     has_prefix_ci "IMAGE" t' = false
    end.
Proof.
  apply (stristr_first_occurrence "take an Image now" "I" "MAGE").
  - discriminate.
  - repeat split; discriminate.
  - vm_compute. reflexivity.
  - vm_compute. reflexivity.
Defined.

Lemma find_start_empty_pattern fuel :
  ∀ start slen, (String.length start < fuel)%nat →
    ∃ s' l, find_start fuel start EmptyString slen 0 = Ok (Some (s', l)) ∧
            toupper (deref s') = NUL.
Proof.
  induction fuel as [|fuel IH]; intros start slen Hf; [lia|].
  cbn [find_start]. change (toupper (deref EmptyString)) with NUL.
  destruct (Ascii.eqb (toupper (deref start)) NUL) eqn:E.
  - apply Ascii.eqb_eq in E. by exists start, slen.
  - destruct start as [|c start]; [done|].
    cbn [next]. rewrite bind_Ok.
    assert ((wrapu32 (slen - 1) <? 0) = false) as ->.
    { apply Z.ltb_ge. unfold wrapu32. apply Z.mod_pos_bound. lia. }
    apply IH. simpl in Hf. lia.
Qed.

(** X7. With the empty pattern [stristr] runs off the end: the scan for
    the first character of the pattern stops at a terminator, the
    comparison loop finds both characters equal and steps both pointers
    over their terminators. *)
Theorem stristr_empty_pattern (str : string) :
  stristr str EmptyString = Fault.
Proof.
  unfold stristr.
  change (strlen EmptyString) with 0. change (wrapu32 0) with 0.
  rewrite Nat.add_0_r. cbn [stristr_loop Nat.add].
  assert ((wrapu32 (strlen str) <? 0) = false) as ->.
  { apply Z.ltb_ge. unfold wrapu32. apply Z.mod_pos_bound. lia. }
  destruct (find_start_empty_pattern (S (String.length str)) str
              (wrapu32 (strlen str))) as (s' & l & -> & Hs'); [lia|].
  rewrite bind_Ok. cbn [compare_here].
  change (toupper (deref EmptyString)) with NUL.
  rewrite Hs', Ascii.eqb_refl.
  destruct s' as [|c s']; [done|]. cbn [next]. by rewrite bind_Ok.
Qed.

End stristr_more.


(** ** Outcomes of [takeImage] *)

Section take_image.
Import TauCam.

Lemma Tau_takeImage_cases e w c w' c' t :
  Tau.takeImage e w c = Ok (w', c', t) →
  (w' = w ∧ c' = c ∧
   (t = Tau.image_fail "Unable to save temporary file on the camera server" ∨
    t = Tau.image_fail "Exposure time isn't set")) ∨
  (∃ s, expose Tau.callbackTauImage e (Tau.serv w) = Ok (TimedOut s) ∧
        w' = Tau.set_serv w s ∧ c' = c ∧
        t = Tau.image_fail "Exposure timeout") ∨
  (∃ s, expose Tau.callbackTauImage e (Tau.serv w) = Ok (Exposed s) ∧
        Tau.serv w' = set_exp_start_ts s (0 # 1) ∧
        Tau.ss w' = Tau.ss w ∧ Tau.cam w' = Tau.cam w ∧
        ((Tau.mem w' = Tau.mem w ∧ c' = c ∧
          t = Tau.image_fail
                "Unable to save temporary file on the guide server") ∨
         (∃ p n, Tau.mem w !! p = None ∧
            Tau.mem w' = <[p := replicate n 0]> (Tau.mem w) ∧
            c' = Client.with_stream c (Client.send_data c)
                   (Client.data_count c) (Client.total_count c) (Some p) ∧
            t = Tau.image_fail
                  "Unable to retrieve FITS image data from tmpfs") ∨
         (∃ p bytes, Tau.mem w !! p = None ∧
            Tau.mem w' = <[p := bytes]> (Tau.mem w) ∧
            c' = Client.with_stream c 1 0
                   (wrap32 (Z.of_nat (length bytes))) (Some p) ∧
            t = image_pass (Z.of_nat (length bytes))))).
Proof.
  unfold Tau.takeImage. intros H.
  destruct (open_ok e); cbn [negb] in H.
  2:{ simplify_eq. left. eauto. }
  destruct (_ || _).
  { simplify_eq. left. eauto. }
  right. apply bind_Ok_inv in H as (x & Hx & H).
  destruct x as [s|s].
  2:{ simplify_eq. left. eauto. }
  right. exists s. split; [done|].
  apply bind_Ok_inv in H as ([[r w1] bytes] & Hw & H).
  assert (Tau.ss w1 = Tau.ss w ∧ Tau.cam w1 = Tau.cam w ∧
          Tau.mem w1 = Tau.mem w ∧
          set_exp_start_ts (Tau.serv w1) (0 # 1) = set_exp_start_ts s (0 # 1))
    as (Hss & Hcam & Hmem & Hserv).
  { unfold Tau.writeFITSImage in Hw.
    repeat case_match; simplify_eq; done. }
  destruct r.
  - destruct (fstat_ok e); cbn [negb] in H.
    2:{ injection H as <- <- <-. cbn. split_and!; try done.
        left. by rewrite Hmem. }
    destruct (read_ok e); cbn [negb] in H.
    + destruct (cli_malloc_spec (Tau.mem (Tau.set_serv w1
                  (set_exp_start_ts (Tau.serv w1) (0 # 1)))) bytes)
        as (p & Hm & Hp).
      rewrite Hm in H. injection H as <- <- <-. cbn in *.
      split_and!; try done.
      right. right. exists p, bytes. rewrite <-Hmem. by split_and!.
    + destruct (cli_malloc_spec (Tau.mem (Tau.set_serv w1
                  (set_exp_start_ts (Tau.serv w1) (0 # 1))))
                  (replicate (length bytes) 0)) as (p & Hm & Hp).
      rewrite Hm in H. injection H as <- <- <-. cbn in *.
      split_and!; try done.
      right. left. exists p, (length bytes). rewrite <-Hmem. by split_and!.
  - injection H as <- <- <-. cbn. split_and!; try done.
    left. by rewrite Hmem.
Qed.

(** The readout buffer is allocated once: at the first exposure that
    succeeds. *)
Lemma Zwo_readout_buffer_spec w w2 buf :
  Zwo.readout_buffer w = (w2, buf) →
  (Zwo.image_data (Zwo.serv w) = Some buf ∧ w2 = w) ∨
  (Zwo.image_data (Zwo.serv w) = None ∧ Zwo.mem w !! buf = None ∧
   w2 = Zwo.set_image_data
          (Zwo.set_mem w
             (<[buf := replicate (Zwo.readout_bytes w) 0]> (Zwo.mem w)))
          (Some buf)).
Proof.
  unfold Zwo.readout_buffer. intros H.
  destruct (Zwo.image_data (Zwo.serv w)) as [p|].
  - injection H as <- <-. by left.
  - destruct (cli_malloc_spec (Zwo.mem w)
                (replicate (Zwo.readout_bytes w) 0))
      as (p & Hm & Hp).
    rewrite Hm in H. injection H as <- <-. right. by split_and!.
Qed.

Lemma Zwo_takeImage_cases e w c w' c' :
  Zwo.takeImage e w c = Ok (w', c') →
  (∃ msg, w' = Zwo.set_response w (Zwo.image_fail msg) ∧ c' = c) ∨
  ∃ w2 buf,
    Zwo.readout_buffer w = (w2, buf) ∧
    let w1 := Zwo.set_frame_sequence w2
                (wrap32 (Zwo.frame_sequence (Zwo.serv w2) + 1)) in
    (∃ msg, w' = Zwo.set_response w2 (Zwo.image_fail msg) ∧ c' = c) ∨
    (∃ msg, w' = Zwo.set_response w1 (Zwo.image_fail msg) ∧ c' = c) ∨
    (∃ p n, Zwo.mem w2 !! p = None ∧
       w' = Zwo.set_response
              (Zwo.set_mem w1 (<[p := replicate n 0]> (Zwo.mem w2)))
              (Zwo.image_fail
                 "Unable to retrieve FITS image data from tmpfs") ∧
       c' = Client.with_stream c (Client.send_data c)
              (Client.data_count c) (Client.total_count c) (Some p)) ∨
    (∃ p, Zwo.mem w2 !! p = None ∧
       w' = Zwo.set_response
              (Zwo.set_mem w1 (<[p := Zwo.file e]> (Zwo.mem w2)))
              (image_pass (Z.of_nat (length (Zwo.file e)))) ∧
       c' = Client.with_size
              (Client.with_stream c 1 0
                 (wrap32 (Z.of_nat (length (Zwo.file e)))) (Some p))
              (Zwo.image_width (Zwo.serv w2))
              (Zwo.image_height (Zwo.serv w2))).
Proof.
  intros H. unfold Zwo.takeImage in H.
  destruct (Zwo.open_ok e); cbn [negb] in H.
  2:{ simplify_eq. left. eauto. }
  apply bind_Ok_inv in H as ([st0 sts] & _ & H).
  destruct (Zwo.set_exposure_ok e); cbn [negb] in H.
  2:{ simplify_eq. left. eauto. }
  destruct (Zwo.set_gain_ok e); cbn [negb] in H.
  2:{ simplify_eq. left. eauto. }
  destruct (Zwo.start_exposure_ok e); cbn [negb] in H.
  2:{ simplify_eq. left. eauto. }
  apply bind_Ok_inv in H as ([st sts'] & _ & H).
  destruct st; try (simplify_eq; left; by eauto).
  destruct (Zwo.readout_buffer w) as [w2 buf] eqn:Hb.
  right. exists w2, buf. split; [done|]. cbv zeta.
  destruct (Zwo.get_data_ok e); cbn [negb] in H.
  2:{ simplify_eq. left. eauto. }
  apply bind_Ok_inv in H as ([r w4] & Hw & H).
  assert (w4 = Zwo.set_frame_sequence w2
                 (wrap32 (Zwo.frame_sequence (Zwo.serv w2) + 1))) as ->.
  { unfold Zwo.writeFITSImage in Hw.
    repeat case_match; simplify_eq; done. }
  right. destruct r.
  2:{ simplify_eq. left. eauto. }
  destruct (Zwo.fstat_ok e); cbn [negb] in H.
  2:{ simplify_eq. left. eauto. }
  right. destruct (Zwo.read_ok e); cbn [negb] in H.
  - match type of H with
    | context [cli_malloc ?h ?d] =>
        destruct (cli_malloc_spec h d) as (p & Hm & Hp)
    end.
    rewrite Hm in H. simplify_eq. right. exists p. by split_and!.
  - match type of H with
    | context [cli_malloc ?h ?d] =>
        destruct (cli_malloc_spec h d) as (p & Hm & Hp)
    end.
    rewrite Hm in H. simplify_eq. left. exists p, (length (Zwo.file e)).
    by split_and!.
Qed.

End take_image.


Section take_image_properties.
Import Client.

(** X8. An IMAGE request that fails never arms the binary stream: on both
    servers [takeImage] either answers with the pass marker and the byte
    count, and then the client is armed with the cursor at 0 and that
    count as the total, or answers with a failure, and then [send_data],
    the cursor and the total are what they were. *)
Theorem takeImage_failure_keeps_stream :
  (∀ e w c w' c' t,
     Tau.takeImage e w c = Ok (w', c', t) →
     (∃ L, t = image_pass L ∧ send_data c' = 1 ∧ data_count c' = 0 ∧
           total_count c' = wrap32 L) ∨
     (∃ msg, t = Tau.image_fail msg ∧ send_data c' = send_data c ∧
             data_count c' = data_count c ∧
             total_count c' = total_count c)) ∧
  (∀ e w c w' c',
     Zwo.takeImage e w c = Ok (w', c') →
     (∃ L, Zwo.response_buffer (Zwo.serv w') = image_pass L ∧
           send_data c' = 1 ∧ data_count c' = 0 ∧
           total_count c' = wrap32 L) ∨
     (∃ msg, Zwo.response_buffer (Zwo.serv w') = Zwo.image_fail msg ∧
             send_data c' = send_data c ∧
             data_count c' = data_count c ∧
             total_count c' = total_count c)).
Proof.
  split.
  - intros e w c w' c' t H.
    apply Tau_takeImage_cases in H
      as [(-> & -> & Ht)|[(s & _ & -> & -> & ->)|(s & _ & _ & _ & _ & H)]].
    + right. destruct Ht as [-> | ->]; eauto.
    + right. eauto.
    + destruct H as [(_ & -> & ->)|[(p & n & _ & _ & -> & ->)
                                   |(p & bytes & _ & _ & -> & ->)]].
      * right. eauto.
      * right. eexists. by split_and!.
      * left. eexists. by split_and!.
  - intros e w c w' c' H.
    apply Zwo_takeImage_cases in H
      as [(msg & -> & ->)
         |(w2 & buf & _ & [(msg & -> & ->)|[(msg & -> & ->)
             |[(p & n & _ & -> & ->)|(p & _ & -> & ->)]]])].
    + right. eauto.
    + right. eauto.
    + right. eauto.
    + right. eexists. by split_and!.
    + left. eexists. by split_and!.
Qed.

Lemma takeImage_failure_keeps_stream_witness :
  (∃ L, Zwo.response_buffer (Zwo.serv Examples.zwo_exposed) = image_pass L ∧
        send_data Examples.zwo_armed_client = 1 ∧
        data_count Examples.zwo_armed_client = 0 ∧
        total_count Examples.zwo_armed_client = wrap32 L) ∨
  (∃ msg, Zwo.response_buffer (Zwo.serv Examples.zwo_exposed) =
            Zwo.image_fail msg ∧
          send_data Examples.zwo_armed_client =
            send_data Examples.new_client ∧
          data_count Examples.zwo_armed_client =
            data_count Examples.new_client ∧
          total_count Examples.zwo_armed_client =
            total_count Examples.new_client).
Proof.
  apply (proj2 takeImage_failure_keeps_stream
           Examples.zwo_exposure Examples.zwo_idle Examples.new_client).
  vm_compute. reflexivity.
Defined.

(** X9. An IMAGE request that succeeds while an earlier image is still
    held by the client starts the stream over on the new image; the
    earlier buffer is neither freed nor referenced any more.  Both
    servers. *)
Theorem takeImage_abandons_pending_image :
  (∀ e w c w' c' L q old,
     Tau.takeImage e w c = Ok (w', c', image_pass L) →
     image_data c = Some q → Tau.mem w !! q = Some old →
     ∃ p, p ≠ q ∧ image_data c' = Some p ∧ data_count c' = 0 ∧
          Tau.mem w' !! q = Some old ∧ is_Some (Tau.mem w' !! p)) ∧
  (∀ e w c w' c' L q old,
     Zwo.takeImage e w c = Ok (w', c') →
     Zwo.response_buffer (Zwo.serv w') = image_pass L →
     image_data c = Some q → Zwo.mem w !! q = Some old →
     ∃ p, p ≠ q ∧ image_data c' = Some p ∧ data_count c' = 0 ∧
          Zwo.mem w' !! q = Some old ∧ is_Some (Zwo.mem w' !! p)).
Proof.
  split.
  - intros e w c w' c' L q old H Hq Hold.
    apply Tau_takeImage_cases in H
      as [(_ & _ & [Ht|Ht])|[(s & _ & _ & _ & Ht)|(s & _ & _ & _ & _ & H)]];
      try discriminate.
    destruct H as [(_ & _ & Ht)|[(p & n & _ & _ & _ & Ht)
                                |(p & bytes & Hp & Hm & -> & _)]];
      try discriminate.
    exists p. assert (p ≠ q) by congruence.
    rewrite Hm, lookup_insert_ne, lookup_insert_eq by done.
    split_and!; first [done|by eexists].
  - intros e w c w' c' L q old H Hr Hq Hold.
    apply Zwo_takeImage_cases in H
      as [(msg & -> & _)
         |(w2 & buf & Hb & [(msg & -> & _)|[(msg & -> & _)
             |[(p & n & _ & -> & _)|(p & Hp & -> & ->)]]])];
      try discriminate.
    assert (Zwo.mem w2 !! q = Some old) as Hold2.
    { apply Zwo_readout_buffer_spec in Hb as [(_ & ->)|(_ & Hf & ->)];
        [done|]. cbn. rewrite lookup_insert_ne; [done|congruence]. }
    exists p. assert (p ≠ q) by congruence. cbn.
    rewrite lookup_insert_ne, lookup_insert_eq by done.
    split_and!; first [done|by eexists].
Qed.

Lemma takeImage_abandons_pending_image_witness :
  ∃ p, p ≠ 2%positive ∧
    image_data Examples.zwo_rearmed_client = Some p ∧
    data_count Examples.zwo_rearmed_client = 0 ∧
    Zwo.mem Examples.zwo_pending_exposed !! 2%positive =
      Some [70; 73; 84; 83] ∧
    is_Some (Zwo.mem Examples.zwo_pending_exposed !! p).
Proof.
  apply (proj2 takeImage_abandons_pending_image
           Examples.zwo_exposure Examples.zwo_pending
           Examples.leaving_client Examples.zwo_pending_exposed
           Examples.zwo_rearmed_client 6 2%positive [70; 73; 84; 83]).
  - vm_compute. reflexivity.
  - reflexivity.
  - reflexivity.
  - reflexivity.
Defined.

(** X10. The frame sequence number of the ZWO server: [takeImage] never
    touches the exposure time, the gain or the image size; it leaves the
    sequence number alone when it fails before the FITS file is written
    and advances it by one otherwise, so the images sent to clients carry
    consecutive numbers. *)
Theorem Zwo_takeImage_sequence (e : Zwo.env) (w w' : Zwo.world)
    (c c' : client_info) :
  Zwo.takeImage e w c = Ok (w', c') →
  Zwo.etime (Zwo.serv w') = Zwo.etime (Zwo.serv w) ∧
  Zwo.gain (Zwo.serv w') = Zwo.gain (Zwo.serv w) ∧
  Zwo.image_width (Zwo.serv w') = Zwo.image_width (Zwo.serv w) ∧
  Zwo.image_height (Zwo.serv w') = Zwo.image_height (Zwo.serv w) ∧
  (Zwo.frame_sequence (Zwo.serv w') = Zwo.frame_sequence (Zwo.serv w) ∨
   Zwo.frame_sequence (Zwo.serv w') =
     wrap32 (Zwo.frame_sequence (Zwo.serv w) + 1)) ∧
  (∀ L, Zwo.response_buffer (Zwo.serv w') = image_pass L →
        Zwo.frame_sequence (Zwo.serv w') =
          wrap32 (Zwo.frame_sequence (Zwo.serv w) + 1)).
Proof.
  intros H.
  apply Zwo_takeImage_cases in H
    as [(msg & -> & ->)
       |(w2 & buf & Hb & [(msg & -> & ->)|[(msg & -> & ->)
           |[(p & n & _ & -> & ->)|(p & _ & -> & ->)]]])];
    try (apply Zwo_readout_buffer_spec in Hb as [(_ & ->)|(_ & _ & ->)]);
    cbn; split_and!; try done; eauto.
Qed.

Lemma Zwo_takeImage_sequence_witness :
  Zwo.etime (Zwo.serv Examples.zwo_exposed) =
    Zwo.etime (Zwo.serv Examples.zwo_idle) ∧
  Zwo.gain (Zwo.serv Examples.zwo_exposed) =
    Zwo.gain (Zwo.serv Examples.zwo_idle) ∧
  Zwo.image_width (Zwo.serv Examples.zwo_exposed) =
    Zwo.image_width (Zwo.serv Examples.zwo_idle) ∧
  Zwo.image_height (Zwo.serv Examples.zwo_exposed) =
    Zwo.image_height (Zwo.serv Examples.zwo_idle) ∧
  (Zwo.frame_sequence (Zwo.serv Examples.zwo_exposed) =
     Zwo.frame_sequence (Zwo.serv Examples.zwo_idle) ∨
   Zwo.frame_sequence (Zwo.serv Examples.zwo_exposed) =
     wrap32 (Zwo.frame_sequence (Zwo.serv Examples.zwo_idle) + 1)) ∧
  (∀ L, Zwo.response_buffer (Zwo.serv Examples.zwo_exposed) = image_pass L →
        Zwo.frame_sequence (Zwo.serv Examples.zwo_exposed) =
          wrap32 (Zwo.frame_sequence (Zwo.serv Examples.zwo_idle) + 1)).
Proof.
  apply (Zwo_takeImage_sequence Examples.zwo_exposure Examples.zwo_idle
           Examples.zwo_exposed Examples.new_client
           Examples.zwo_armed_client).
  vm_compute. reflexivity.
Defined.

End take_image_properties.


(** ** A whole session *)

Section session.
Import Client.

Lemma client_add_spec h ip hp now h1 c1 node :
  client_add h ip hp now = (h1, c1, node) →
  ∃ q name, h !! q = None ∧ (<[q := name]> h) !! node = None ∧
    h1 = <[node := list_node]> (<[q := name]> h) ∧
    name = bytes (default "UNKNOWN"%string hp) ++ [0] ∧
    hostname c1 = Some q ∧ image_data c1 = None ∧ send_data c1 = 0 ∧
    data_count c1 = 0 ∧ total_count c1 = 0.
Proof.
  unfold client_add, cli_strdup. intros H.
  destruct hp as [name|]; cbv beta iota in H.
  - destruct (cli_malloc_spec h (bytes name ++ [0])) as (q & Hm & Hq).
    rewrite Hm in H.
    destruct (cli_malloc_spec (<[q := bytes name ++ [0]]> h) list_node)
      as (n & Hn & Hnq).
    rewrite Hn in H. simplify_eq. eexists q, _. by split_and!.
  - destruct (cli_malloc_spec h (bytes "UNKNOWN" ++ [0])) as (q & Hm & Hq).
    rewrite Hm in H.
    destruct (cli_malloc_spec (<[q := bytes "UNKNOWN" ++ [0]]> h) list_node)
      as (n & Hn & Hnq).
    rewrite Hn in H. simplify_eq. eexists q, _. by split_and!.
Qed.

(** Freeing below a cell that was allocated later. *)
Lemma free_under (h h' : heap) (p q : loc) (x : list Z) :
  free h q = Ok h' → h !! p = None → free (<[p := x]> h) q = Ok (<[p := x]> h').
Proof.
  unfold free. intros H Hp. destruct (h !! q) eqn:Hq; [|done].
  injection H as <-. assert (p ≠ q) by congruence.
  rewrite lookup_insert_ne, Hq by done. by rewrite delete_insert_ne.
Qed.

Lemma client_send_binary_hostname h c h' c' out :
  client_send_binary h c = Ok (h', c', out) → hostname c' = hostname c.
Proof.
  unfold client_send_binary. intros H.
  destruct (send_data c =? 0); [by simplify_eq|].
  destruct (data_count c =? total_count c).
  - destruct (image_data c).
    + apply bind_Ok_inv in H as (h1 & _ & H). by simplify_eq.
    + by simplify_eq.
  - apply bind_Ok_inv in H as (chunk & _ & H). by simplify_eq.
Qed.

Lemma poll_hostname n :
  ∀ h c tr h' c', poll n h c = Ok (tr, h', c') → hostname c' = hostname c.
Proof.
  induction n as [|n IH]; intros h c tr h' c' H; simpl in H.
  - by simplify_eq.
  - apply bind_Ok_inv in H as ([[h1 c1] out] & H1 & H).
    apply bind_Ok_inv in H as ([[tr' h2] c2] & H2 & H). simplify_eq.
    rewrite (IH _ _ _ _ _ H2). by eapply client_send_binary_hostname.
Qed.

(** From a client armed on a buffer that was allocated last, the download
    runs to its end and gives the heap back. *)
Lemma download_completes h p data c :
  h !! p = None →
  send_data c = 1 → data_count c = 0 → image_data c = Some p →
  total_count c = Z.of_nat (length data) → total_count c ≤ INT_MAX →
  ∃ k tr c',
    poll k (<[p := data]> h) c = Ok (tr, h, c') ∧
    last (tr.*1) = Some (Some []) ∧
    hostname c' = hostname c ∧ image_data c' = None ∧ send_data c' = 0.
Proof.
  intros Hp Hs Hd Hi Ht Hmax.
  destruct (poll_stream (length data) (<[p := data]> h) c data p 0)
    as (chunks & cursors & tr & c' & Hpoll & Hf & _ & _ & _ & _ & _ & Hs' & Hi');
    try done; try lia.
  { apply lookup_insert_eq. }
  rewrite delete_insert_id in Hpoll by done.
  exists (length chunks + 1)%nat, tr, c'. split_and!; try done.
  - rewrite Hf. apply last_snoc.
  - by eapply poll_hostname.
Qed.



End session.


(** ** The exposure loop of the Tau camera *)

Section exposure.
Import TauCam.

Lemma clear_stack_settings s s' :
  clear_stack s = Ok s' → etime s' = etime s ∧ gain s' = gain s.
Proof.
  unfold clear_stack. intros H.
  repeat case_match; by simplify_eq/=.
Qed.

Lemma callback_keeps_settings pixel s b s' :
  callbackTauImage_with pixel s b = Ok s' →
  etime s' = etime s ∧ gain s' = gain s.
Proof.
  unfold callbackTauImage_with. intros H.
  set (s0 := match stack_data s with
             | Some _ => s
             | None => _
             end) in H.
  assert (etime s0 = etime s ∧ gain s0 = gain s) as [<- <-]
    by (subst s0; by destruct (stack_data s)).
  clearbody s0.
  destruct (_ || _); [by simplify_eq|].
  apply bind_Ok_inv in H as (s1 & H1 & H).
  assert (etime s1 = etime s0 ∧ gain s1 = gain s0) as [<- <-].
  { destruct (Qeq_bool _ _); [|by simplify_eq].
    by apply clear_stack_settings in H1. }
  apply bind_Ok_inv in H as (copy & _ & H).
  apply bind_Ok_inv in H as ([m arr] & _ & H).
  apply bind_Ok_inv in H as (st & _ & H). by simplify_eq/=.
Qed.

Lemma deliver_keeps_settings pixel frames :
  ∀ s s', deliver (callbackTauImage_with pixel) s frames = Ok s' →
          etime s' = etime s ∧ gain s' = gain s.
Proof.
  induction frames as [|b frames IH]; intros s s' H; simpl in H.
  - by simplify_eq.
  - apply bind_Ok_inv in H as (s1 & H1 & H).
    apply IH in H as [-> ->]. by eapply callback_keeps_settings.
Qed.

(** The loop is left with an exposure only when a frame has been counted
    and a clock reading has reached the stop time. *)
Lemma wait_frames_exposed pixel fuel :
  ∀ s stop_ts clk arr s',
    wait_frames (callbackTauImage_with pixel) fuel s stop_ts clk arr =
      Ok (Exposed s') →
    frame_count s' ≠ 0 ∧ etime s' = etime s ∧ gain s' = gain s ∧
    ∃ now, now ∈ clk ∧ dlt (Fin now) stop_ts = false.
Proof.
  induction fuel as [|fuel IH]; intros s stop_ts clk arr s' H; [done|].
  cbn [wait_frames] in H.
  apply bind_Ok_inv in H as (s1 & H1 & H).
  apply deliver_keeps_settings in H1 as [<- <-].
  assert (∀ now clk',
    (if dlt (Fin now) stop_ts || (frame_count s1 =? 0)
     then wait_frames (callbackTauImage_with pixel) fuel s1 stop_ts clk'
            (tl arr)
     else Ok (Exposed s1)) = Ok (Exposed s') →
    frame_count s' ≠ 0 ∧ etime s' = etime s1 ∧ gain s' = gain s1 ∧
    ∃ now', now' ∈ now :: clk' ∧ dlt (Fin now') stop_ts = false) as Hstep.
  { intros now clk' Hx.
    destruct (dlt (Fin now) stop_ts || (frame_count s1 =? 0)) eqn:E.
    - apply IH in Hx as (? & ? & ? & now' & Hin & Hle).
      split_and!; try done. exists now'. split; [by right|done].
    - apply orb_false_iff in E as [E1 E2]. simplify_eq.
      apply Z.eqb_neq in E2. split_and!; try done.
      exists now. split; [by left|done]. }
  destruct (frame_count s1 =? 0) eqn:Hfc.
  - destruct clk as [|now clk]; [done|]. rewrite bind_Ok in H.
    destruct (Qltb _ now); [by simplify_eq|].
    destruct clk as [|now' clk]; [done|].
    apply Hstep in H as (? & ? & ? & now'' & Hin & Hle).
    split_and!; try done. exists now''. split; [by right|done].
  - rewrite bind_Ok in H. destruct clk as [|now clk]; [done|].
    by apply Hstep in H.
Qed.

Lemma wait_frames_timeout_settings pixel fuel :
  ∀ s stop_ts clk arr s',
    wait_frames (callbackTauImage_with pixel) fuel s stop_ts clk arr =
      Ok (TimedOut s') →
    etime s' = etime s ∧ gain s' = gain s.
Proof.
  induction fuel as [|fuel IH]; intros s stop_ts clk arr s' H; [done|].
  cbn [wait_frames] in H.
  apply bind_Ok_inv in H as (s1 & H1 & H).
  apply deliver_keeps_settings in H1 as [<- <-].
  destruct (frame_count s1 =? 0) eqn:Hfc.
  - destruct clk as [|now clk]; [done|]. rewrite bind_Ok in H.
    destruct (Qltb _ now); [by simplify_eq|].
    destruct clk as [|now' clk]; [done|].
    destruct (_ || _); [|done]. by apply IH in H.
  - rewrite bind_Ok in H. destruct clk as [|now clk]; [done|].
    destruct (_ || _); [|done]. by apply IH in H.
Qed.

Lemma expose_exposed pixel e s s' :
  expose (callbackTauImage_with pixel) e s = Ok (Exposed s') →
  frame_count s' ≠ 0 ∧ etime s' = etime s ∧ gain s' = gain s ∧
  ∃ t0 t1 rest now,
    clock e = t0 :: t1 :: rest ∧ now ∈ rest ∧
    dlt (Fin now) (dadd (Fin t1) (etime s)) = false.
Proof.
  unfold expose. intros H.
  apply bind_Ok_inv in H as (s1 & H1 & H).
  apply clear_stack_settings in H1 as [He Hg]. cbn in He, Hg.
  destruct (clock e) as [|t0 [|t1 clk]]; try done.
  apply wait_frames_exposed in H as (? & He' & Hg' & now & Hin & Hle).
  cbn in He', Hg', Hle. rewrite He in He', Hle. rewrite Hg in Hg'.
  split_and!; try done. by exists t0, t1, clk, now.
Qed.

Lemma expose_timeout_settings pixel e s s' :
  expose (callbackTauImage_with pixel) e s = Ok (TimedOut s') →
  etime s' = etime s ∧ gain s' = gain s.
Proof.
  unfold expose. intros H.
  apply bind_Ok_inv in H as (s1 & H1 & H).
  apply clear_stack_settings in H1 as [He Hg]. cbn in He, Hg.
  destruct (clock e) as [|t0 [|t1 clk]]; try done.
  apply wait_frames_timeout_settings in H as [He' Hg'].
  cbn in He', Hg'. by rewrite He', Hg'.
Qed.

(** The stop time has been reached: the comparison [now < stop_ts] is
    false. *)
Lemma stop_time_reached (now t1 : Q) (d : double) :
  dlt d (Fin MIN_ETIME) || dlt (Fin MAX_ETIME) d = false →
  dlt (Fin now) (dadd (Fin t1) d) = false →
  d = NaN ∨ ∃ q, d = Fin q ∧ (t1 + q <= now)%Q.
Proof.
  intros Hr H. destruct d as [q| | |]; try done.
  - right. exists q. split; [done|]. cbn in H.
    unfold Qltb in H. apply negb_false_iff in H. by apply Qle_bool_iff.
  - by left.
Qed.

(** X12. What an IMAGE request leaves behind on the Tau server.  It never
    changes the exposure time or the gain.  When the file cannot be
    opened or the exposure time fails the range test nothing changes at
    all.  When it answers with the timeout, no frame is counted and the
    start timestamp holds the first clock reading.  In every other case
    the start timestamp is back at 0 and at least one frame is counted;
    then either the exposure time is NaN, which the range test lets
    through and for which the loop does not wait, or a clock reading was
    at or past the stop time: the second clock reading plus the exposure
    time. *)
Theorem Tau_takeImage_exposure_state (e : env) (w w' : Tau.world)
    (c c' : Client.client_info) (t : text) :
  Tau.takeImage e w c = Ok (w', c', t) →
  etime (Tau.serv w') = etime (Tau.serv w) ∧
  gain (Tau.serv w') = gain (Tau.serv w) ∧
  ((w' = w ∧ c' = c ∧
    (t = Tau.image_fail "Unable to save temporary file on the camera server" ∨
     t = Tau.image_fail "Exposure time isn't set")) ∨
   (t = Tau.image_fail "Exposure timeout" ∧ c' = c ∧
    frame_count (Tau.serv w') = 0 ∧
    ∃ t0 rest, clock e = t0 :: rest ∧ exp_start_ts (Tau.serv w') = t0) ∨
   (exp_start_ts (Tau.serv w') = 0 # 1 ∧
    frame_count (Tau.serv w') ≠ 0 ∧
    (etime (Tau.serv w) = NaN ∨
     ∃ q t0 t1 rest now,
       etime (Tau.serv w) = Fin q ∧
       clock e = t0 :: t1 :: rest ∧ now ∈ rest ∧ (t1 + q <= now)%Q))).
Proof.
  intros H.
  destruct (dlt (etime (Tau.serv w)) (Fin MIN_ETIME)
            || dlt (Fin MAX_ETIME) (etime (Tau.serv w))) eqn:Hr.
  { unfold Tau.takeImage in H. rewrite Hr in H.
    destruct (open_ok e); cbn [negb] in H; simplify_eq;
      split_and!; try done; left; split_and!; eauto. }
  apply Tau_takeImage_cases in H
    as [(-> & -> & Ht)|[(s & Hx & -> & -> & ->)|(s & Hx & Hs & _ & _ & _)]].
  - split_and!; try done. by left.
  - destruct (expose_timeout_settings _ _ _ _ Hx) as [He Hg].
    apply expose_timeout in Hx as [Hfc Hts].
    split_and!; try done. right. left. by split_and!.
  - apply expose_exposed in Hx
      as (Hfc & He & Hg & t0 & t1 & rest & now & Hclk & Hin & Hstop).
    rewrite Hs. cbn. split_and!; try done. right. right.
    split_and!; try done.
    destruct (stop_time_reached _ _ _ Hr Hstop) as [Hn|(q & Hq & Hle)];
      [by left|].
    right. by exists q, t0, t1, rest, now.
Qed.

Lemma Tau_takeImage_exposure_state_witness :
  etime (Tau.serv Examples.tau_timed_out) =
    etime (Tau.serv Examples.tau_idle) ∧
  gain (Tau.serv Examples.tau_timed_out) = gain (Tau.serv Examples.tau_idle) ∧
  ((Examples.tau_timed_out = Examples.tau_idle ∧
    Examples.new_client = Examples.new_client ∧
    (Tau.image_fail "Exposure timeout" =
       Tau.image_fail "Unable to save temporary file on the camera server" ∨
     Tau.image_fail "Exposure timeout" =
       Tau.image_fail "Exposure time isn't set")) ∨
   (Tau.image_fail "Exposure timeout" = Tau.image_fail "Exposure timeout" ∧
    Examples.new_client = Examples.new_client ∧
    frame_count (Tau.serv Examples.tau_timed_out) = 0 ∧
    ∃ t0 rest, clock Examples.tau_no_frames = t0 :: rest ∧
               exp_start_ts (Tau.serv Examples.tau_timed_out) = t0) ∨
   (exp_start_ts (Tau.serv Examples.tau_timed_out) = 0 # 1 ∧
    frame_count (Tau.serv Examples.tau_timed_out) ≠ 0 ∧
    (etime (Tau.serv Examples.tau_idle) = NaN ∨
     ∃ q t0 t1 rest now,
       etime (Tau.serv Examples.tau_idle) = Fin q ∧
       clock Examples.tau_no_frames = t0 :: t1 :: rest ∧ now ∈ rest ∧
       (t1 + q <= now)%Q))).
Proof.
  apply (Tau_takeImage_exposure_state Examples.tau_no_frames
           Examples.tau_idle Examples.tau_timed_out
           Examples.new_client Examples.new_client
           (Tau.image_fail "Exposure timeout")).
  vm_compute. reflexivity.
Defined.

End exposure.


(** ** A status server value that cannot be read *)

(** X13. When the exposure is over and the FITS header is to be filled, a
    status server value that cannot be read ends the server process:
    [writeFITSImage] calls [exit] and the client gets no answer.  On the
    Tau server this is so for the dome azimuth, the temperature, the
    pressure and the humidity; on the ZWO server for the dome
    azimuth. *)
Theorem status_read_failure_exits :
  (∀ e w c s,
     TauCam.open_ok e = true →
     dlt (TauCam.etime (Tau.serv w)) (Fin TauCam.MIN_ETIME) ||
       dlt (Fin TauCam.MAX_ETIME) (TauCam.etime (Tau.serv w)) = false →
     TauCam.expose Tau.callbackTauImage e (Tau.serv w) =
       Ok (TauCam.Exposed s) →
     Tau.ss w !! Tau.SS_DOME_AZ = None ∨ Tau.ss w !! Tau.SS_TEMP = None ∨
     Tau.ss w !! Tau.SS_PRES = None ∨ Tau.ss w !! Tau.SS_HUMID = None →
     Tau.takeImage e w c = Exit) ∧
  (∀ e w c st sts sts',
     Zwo.open_ok e = true →
     Zwo.wait_exposure (Zwo.exp_status e) = Ok (st, sts) →
     Zwo.set_exposure_ok e = true → Zwo.set_gain_ok e = true →
     Zwo.start_exposure_ok e = true →
     Zwo.wait_exposure sts = Ok (Zwo.ASI_EXP_SUCCESS, sts') →
     Zwo.get_data_ok e = true →
     Zwo.ss w !! Zwo.SS_DOME_AZ = None →
     Zwo.takeImage e w c = Exit).
Proof.
  split.
  - intros e w c s Ho He Hx Hss. unfold Tau.takeImage.
    rewrite Ho, He, Hx. cbn [negb]. rewrite bind_Ok.
    unfold Tau.writeFITSImage. cbn [Tau.ss Tau.set_serv].
    destruct Hss as [-> |[-> |[-> | ->]]]; by repeat case_match.
  - intros e w c st sts sts' Ho Hw1 H1 H2 H3 Hw2 H4 Hss.
    unfold Zwo.takeImage.
    rewrite Ho, Hw1. cbn [negb]. rewrite bind_Ok. cbn beta iota.
    rewrite H1, H2, H3, Hw2. cbn [negb]. rewrite bind_Ok. cbn beta iota.
    destruct (Zwo.readout_buffer w) as [w2 buf] eqn:Hb.
    rewrite H4. cbn [negb].
    assert (Zwo.ss w2 = Zwo.ss w) as Hss2.
    { unfold Zwo.readout_buffer in Hb.
      destruct (Zwo.image_data (Zwo.serv w)); [by injection Hb as <- _|].
      destruct (cli_malloc (Zwo.mem w) _). by injection Hb as <- _. }
    unfold Zwo.writeFITSImage. by rewrite Hss2, Hss.
Qed.

Lemma status_read_failure_exits_witness :
  Tau.takeImage Examples.tau_four_frames Examples.tau_idle
    Examples.new_client = Exit.
Proof.
  eapply (proj1 status_read_failure_exits Examples.tau_four_frames
            Examples.tau_idle Examples.new_client).
  - reflexivity.
  - reflexivity.
  - vm_compute. reflexivity.
  - left. reflexivity.
Defined.


(** ** Frames outside an exposure *)

Section idle_frames.
Import TauCam.

(** One frame that fits, whatever the statement of the pixel loop. *)
Lemma callback_frame pixel (s : server_info) (b : TauRawBitmap)
    (stack : list Z) :
  (1 ≤ pixels s)%nat → Z.of_nat (pixels s) ≤ 1073741824 →
  stack_data s = Some stack → length stack = pixels s →
  b_width b = width s → b_height b = height s →
  length (b_data b) = pixels s → u16 (b_data b) →
  callbackTauImage_with pixel s b =
    if Qeq_bool (exp_start_ts s) (0 # 1) then
      Ok (set_frame_count
            (set_stack_data s
               (Some (map (pixel (lower_median (b_data b)) 0) (b_data b))))
            1)
    else
      Ok (set_frame_count
            (set_stack_data s
               (Some (zip_with (pixel (lower_median (b_data b)))
                        stack (b_data b))))
            (wrapu32 (frame_count s + 1))).
Proof.
  intros Hn1 Hn2 Hst Hlen Hw Hh Hd Hu.
  unfold callbackTauImage_with.
  rewrite Hst, Hw, Hh, !Z.eqb_refl. cbn [negb orb].
  destruct (lower_median_elem (b_data b)) as (v & Hv & Hm & Hin); [lia|].
  destruct (medianCalculation_spec (S (3 * pixels s)) (b_data b)
              (Z.of_nat (pixels s)))
    as (v' & arr' & Hmed & _ & Hv'); [unfold len; lia|lia|done|lia|].
  assert (v' = v) as ->.
  { unfold len in Hv. rewrite Hd in Hv. congruence. }
  destruct (Qeq_bool (exp_start_ts s) (0 # 1)) eqn:Hts.
  - unfold clear_stack. cbn [stack_data set_frame_count]. rewrite Hst.
    change (pixels (set_frame_count s 0)) with (pixels s).
    rewrite decide_True by lia. rewrite bind_Ok.
    rewrite (drop_ge stack), app_nil_r by lia.
    set (s1 := set_stack_data (set_frame_count s 0)
                 (Some (replicate (pixels s) 0))).
    change (pixels s1) with (pixels s).
    rewrite decide_True by lia. rewrite bind_Ok.
    rewrite (take_ge (b_data b)) by lia.
    rewrite Hmed, bind_Ok. cbn beta iota.
    change (stack_data s1) with (Some (replicate (pixels s) 0)).
    unfold stack_loop. rewrite decide_True by (rewrite length_replicate; lia).
    rewrite bind_Ok.
    rewrite (take_ge (b_data b)), (take_ge (replicate _ _)),
      (drop_ge (replicate _ _)), app_nil_r
      by (rewrite ?length_replicate; lia).
    rewrite Hm. subst s1. f_equal.
    change (wrapu32 (frame_count (set_stack_data (set_frame_count s 0)
              (Some (replicate (pixels s) 0))) + 1)) with 1.
    assert (zip_with (pixel v) (replicate (pixels s) 0) (b_data b) =
            map (pixel v 0) (b_data b)) as ->; [|done].
    rewrite <-Hd. clear. induction (b_data b) as [|x l IH]; [done|].
    simpl. by rewrite IH.
  - rewrite bind_Ok. rewrite decide_True by lia. rewrite bind_Ok.
    rewrite (take_ge (b_data b)) by lia.
    rewrite Hmed, bind_Ok. cbn beta iota. rewrite Hst.
    unfold stack_loop. rewrite decide_True by lia. rewrite bind_Ok.
    rewrite (take_ge (b_data b)), (take_ge stack), (drop_ge stack), app_nil_r
      by lia.
    by rewrite Hm.
Qed.

Lemma deliver_idle pixel (frames : list TauRawBitmap) :
  ∀ (b : TauRawBitmap) (s : server_info) (stack : list Z),
    (1 ≤ pixels s)%nat → Z.of_nat (pixels s) ≤ 1073741824 →
    stack_data s = Some stack → length stack = pixels s →
    Qeq_bool (exp_start_ts s) (0 # 1) = true →
    Forall (λ b, b_width b = width s ∧ b_height b = height s ∧
                 length (b_data b) = pixels s ∧ u16 (b_data b))
      (frames ++ [b]) →
    deliver (callbackTauImage_with pixel) s (frames ++ [b]) =
      Ok (set_frame_count
            (set_stack_data s
               (Some (map (pixel (lower_median (b_data b)) 0) (b_data b))))
            1).
Proof.
  induction frames as [|b0 frames IH];
    intros b s stack Hn1 Hn2 Hst Hlen Hts Hfr.
  - apply Forall_singleton in Hfr as (Hw & Hh & Hd & Hu).
    cbn [app deliver].
    rewrite (callback_frame pixel s b stack), Hts by done.
    by rewrite bind_Ok.
  - rewrite <-app_comm_cons in Hfr.
    apply Forall_cons in Hfr as [(Hw & Hh & Hd & Hu) Hfr].
    rewrite <-app_comm_cons. cbn [deliver].
    rewrite (callback_frame pixel s b0 stack), Hts by done.
    rewrite bind_Ok.
    erewrite IH; [done|done|done|reflexivity| |done|done].
    by rewrite length_map.
Qed.

Lemma median_subtracted_wrap (data : list Z) :
  (1 ≤ length data)%nat → u16 data →
  map (λ x, wrap32 (0 + (x - lower_median data))) data =
  median_subtracted data.
Proof.
  intros Hn Hu. destruct (lower_median_elem data Hn) as (v & _ & Hm & Hin).
  unfold median_subtracted. rewrite Hm.
  unfold u16 in Hu. rewrite Forall_forall in Hu. pose proof (Hu v Hin).
  apply map_ext_in. intros x Hx%list_elem_of_In.
  pose proof (Hu x Hx). rewrite Z.add_0_l. apply wrap32_id. lia.
Qed.

(** X14. Frames that arrive while no exposure is running do not add up.
    After any run of frames of the sensor's size delivered with the start
    timestamp at 0, the frame count is 1 and the accumulator holds the
    last frame only: with its median taken off in taucamLocal.cc, as it
    came in the Tau server.  Nothing else of the server state changes. *)
Theorem idle_frames_do_not_accumulate (frames : list TauRawBitmap)
    (b : TauRawBitmap) (s : server_info) (stack : list Z) :
  (1 ≤ pixels s)%nat → Z.of_nat (pixels s) ≤ 1073741824 →
  stack_data s = Some stack → length stack = pixels s →
  Qeq_bool (exp_start_ts s) (0 # 1) = true →
  Forall (λ b, b_width b = width s ∧ b_height b = height s ∧
               length (b_data b) = pixels s ∧ u16 (b_data b))
    (frames ++ [b]) →
  deliver TauLocal.callbackTauImage s (frames ++ [b]) =
    Ok (set_frame_count
          (set_stack_data s (Some (median_subtracted (b_data b)))) 1) ∧
  deliver Tau.callbackTauImage s (frames ++ [b]) =
    Ok (set_frame_count (set_stack_data s (Some (b_data b))) 1).
Proof.
  intros Hn1 Hn2 Hst Hlen Hts Hfr.
  unfold TauLocal.callbackTauImage, Tau.callbackTauImage.
  rewrite !(deliver_idle _ frames b s stack) by done.
  apply Forall_app in Hfr as [_ (_ & _ & Hd & Hu)%Forall_singleton].
  rewrite median_subtracted_wrap by (done || lia).
  by rewrite map_id.
Qed.

Lemma idle_frames_do_not_accumulate_witness :
  deliver TauLocal.callbackTauImage
    (set_exp_start_ts Examples.exposing (0 # 1))
    ([Examples.frame_a] ++ [Examples.frame_b]) =
    Ok (set_frame_count
          (set_stack_data (set_exp_start_ts Examples.exposing (0 # 1))
             (Some (median_subtracted (b_data Examples.frame_b)))) 1) ∧
  deliver Tau.callbackTauImage
    (set_exp_start_ts Examples.exposing (0 # 1))
    ([Examples.frame_a] ++ [Examples.frame_b]) =
    Ok (set_frame_count
          (set_stack_data (set_exp_start_ts Examples.exposing (0 # 1))
             (Some (b_data Examples.frame_b))) 1).
Proof.
  apply (idle_frames_do_not_accumulate [Examples.frame_a] Examples.frame_b
           (set_exp_start_ts Examples.exposing (0 # 1)) [0; 0; 0]).
  - vm_compute. lia.
  - vm_compute. discriminate.
  - reflexivity.
  - reflexivity.
  - reflexivity.
  - repeat constructor; vm_compute; try reflexivity; try lia;
      try discriminate.
Defined.

End idle_frames.


(** ** The size of the accumulator *)

Section frame_size.
Import TauCam.

Lemma zip_with_zeros (f : Z → Z → Z) (data : list Z) :
  zip_with f (replicate (length data) 0) data = map (f 0) data.
Proof. induction data as [|x l IH]; [done|]. simpl. by rewrite IH. Qed.

Lemma callback_alloc pixel (s : server_info) (b : TauRawBitmap) :
  stack_data s = None →
  callbackTauImage_with pixel s b =
  callbackTauImage_with pixel
    (set_stack_data (set_size (set_frame_count s 0) (b_width b) (b_height b))
       (Some (replicate (Z.to_nat (wrapu32 (b_width b * b_height b))) 0)))
    b.
Proof. intros Hst. unfold callbackTauImage_with. by rewrite Hst. Qed.

(** X15. The first frame fixes the size of the accumulator.  With no
    accumulator yet, a frame is taken as it is: width and height become
    those of the frame, the accumulator is allocated and holds what the
    pixel loop makes of the frame and zeros, and the frame count is 1.
    Once there is an accumulator, a frame of another width or height is
    dropped without any change of state, and no frame ever changes the
    width or the height.  This holds for the callback of the server and
    for that of taucamLocal.cc, whose pixel loops [pixel] stands for. *)
Theorem first_frame_fixes_size (pixel : Z → Z → Z → Z) :
  (∀ s b,
     stack_data s = None →
     (1 ≤ length (b_data b))%nat → Z.of_nat (length (b_data b)) ≤ 1073741824 →
     wrapu32 (b_width b * b_height b) = Z.of_nat (length (b_data b)) →
     u16 (b_data b) →
     callbackTauImage_with pixel s b =
       Ok (set_frame_count
             (set_stack_data (set_size s (b_width b) (b_height b))
                (Some (map (pixel (lower_median (b_data b)) 0) (b_data b))))
             1)) ∧
  (∀ s b stack,
     stack_data s = Some stack →
     b_width b ≠ width s ∨ b_height b ≠ height s →
     callbackTauImage_with pixel s b = Ok s) ∧
  (∀ s b stack s',
     stack_data s = Some stack →
     callbackTauImage_with pixel s b = Ok s' →
     width s' = width s ∧ height s' = height s ∧
     ∃ stack', stack_data s' = Some stack').
Proof.
  split_and!.
  - intros s b Hst Hn1 Hn2 Hsz Hu. rewrite callback_alloc by done.
    rewrite Hsz, Nat2Z.id.
    set (s0 := set_stack_data _ _).
    assert (pixels s0 = length (b_data b)) as Hpx.
    { unfold pixels. subst s0. cbn. rewrite Hsz. apply Nat2Z.id. }
    rewrite (callback_frame pixel s0 b (replicate (length (b_data b)) 0));
      try done; try (rewrite Hpx; lia).
    2:{ by rewrite length_replicate. }
    rewrite zip_with_zeros.
    by destruct (Qeq_bool (exp_start_ts s0) (0 # 1)).
  - intros s b stack Hst Hne. unfold callbackTauImage_with. rewrite Hst.
    destruct Hne as [Hne|Hne]; apply Z.eqb_neq in Hne; rewrite Hne;
      [done|]. by rewrite orb_true_r.
  - intros s b stack s' Hst H. unfold callbackTauImage_with in H.
    rewrite Hst in H.
    destruct (_ || _).
    { simplify_eq. eauto. }
    apply bind_Ok_inv in H as (s1 & H1 & H).
    assert (width s1 = width s ∧ height s1 = height s) as [<- <-].
    { destruct (Qeq_bool _ _); [|by simplify_eq].
      unfold clear_stack in H1. cbn in H1. rewrite Hst in H1.
      destruct (decide _); by simplify_eq. }
    apply bind_Ok_inv in H as (copy & _ & H).
    apply bind_Ok_inv in H as ([m arr] & _ & H).
    apply bind_Ok_inv in H as (st & _ & H). simplify_eq/=. eauto.
Qed.

Lemma first_frame_fixes_size_witness :
  callbackTauImage_with (λ median old new, new)
    (Tau.serv Examples.tau_idle) Examples.frame_a =
  Ok (set_frame_count
        (set_stack_data
           (set_size (Tau.serv Examples.tau_idle)
              (b_width Examples.frame_a) (b_height Examples.frame_a))
           (Some (map ((λ median old new, new)
                         (lower_median (b_data Examples.frame_a)) 0)
                    (b_data Examples.frame_a))))
        1).
Proof.
  apply (proj1 (first_frame_fixes_size (λ median old new, new))).
  - reflexivity.
  - simpl. lia.
  - simpl. lia.
  - reflexivity.
  - repeat constructor; lia.
Defined.

(** X16. A frame without pixels makes the callback read outside its copy
    of the frame: the copy has no element, and [medianCalculation] returns
    the element at index 0 when it is told there are none. *)
Theorem callback_empty_frame (pixel : Z → Z → Z → Z) (s : server_info)
    (b : TauRawBitmap) :
  stack_data s = None ∨
    (is_Some (stack_data s) ∧ b_width b = width s ∧ b_height b = height s) →
  wrapu32 (b_width b * b_height b) = 0 →
  callbackTauImage_with pixel s b = Fault.
Proof.
  intros Hs Hz.
  assert (∀ s0 stack,
    stack_data s0 = Some stack → b_width b = width s0 →
    b_height b = height s0 →
    callbackTauImage_with pixel s0 b = Fault) as Hfault.
  { intros s0 stack Hst Hw Hh. unfold callbackTauImage_with.
    rewrite Hst, Hw, Hh, !Z.eqb_refl. cbn [negb orb].
    assert (pixels s0 = 0%nat) as Hpx.
    { unfold pixels. by rewrite <-Hw, <-Hh, Hz. }
    assert (∀ s1, pixels s1 = 0%nat →
      (let n := pixels s1 in
       image_copy ←
         (if decide (n ≤ length (b_data b))%nat
          then Ok (take n (b_data b)) else Fault);
       '(median, _) ←
         Median.medianCalculation (S (3 * n)) image_copy (Z.of_nat n) 1;
       stack ←
         match stack_data s1 with
         | Some stack => stack_loop (pixel median) n stack (b_data b)
         | None => Fault
         end;
       Ok (set_frame_count (set_stack_data s1 (Some stack))
             (wrapu32 (frame_count s1 + 1)))) = Fault) as Hrest.
    { intros s1 H1. cbv zeta. rewrite H1.
      rewrite decide_True by lia. rewrite bind_Ok. reflexivity. }
    destruct (Qeq_bool (exp_start_ts s0) (0 # 1)).
    - unfold clear_stack. cbn [stack_data set_frame_count]. rewrite Hst.
      change (pixels (set_frame_count s0 0)) with (pixels s0).
      rewrite decide_True by lia. rewrite bind_Ok. by apply Hrest.
    - rewrite bind_Ok. by apply Hrest. }
  destruct Hs as [Hst|([stack Hst] & Hw & Hh)].
  - rewrite callback_alloc by done. by eapply Hfault.
  - by eapply Hfault.
Qed.

Lemma callback_empty_frame_witness :
  callbackTauImage_with (λ median old new, new)
    (Tau.serv Examples.tau_idle) (mk_bitmap 0 512 []) = Fault.
Proof.
  apply (callback_empty_frame (λ median old new, new)
           (Tau.serv Examples.tau_idle) (mk_bitmap 0 512 [])).
  - by left.
  - reflexivity.
Defined.

End frame_size.


(** ** The exposure time of the ZWO server, any argument *)

Section etime_clamp.
Local Open Scope Q_scope.

Lemma Qtrunc_below_1 (x : Q) : x < 1 → (Qtrunc x ≤ 0)%Z.
Proof.
  unfold Qtrunc, Qlt. destruct x as [n d]. simpl. intros H.
  rewrite Z.mul_1_r, Z.mul_1_l in H.
  destruct (decide (0 ≤ n)%Z).
  - rewrite Z.quot_small; lia.
  - apply Z.quot_le_upper_bound; lia.
Qed.

(** The value [com_etime] arrives at before it compares it with the
    current exposure time: rounded to the step, then cut to the range. *)
Lemma clamp_spec (v : Q) :
  let q := inject_Z (Qtrunc ((v + Zwo.tgt_stp / (2 # 1)) / Zwo.tgt_stp))
           * Zwo.tgt_stp in
  let q1 := if Qltb Zwo.tgt_max q then Zwo.tgt_max else q in
  let new := if Qltb q1 Zwo.tgt_min then Zwo.tgt_min else q1 in
  (Zwo.tgt_min <= new ∧ new <= Zwo.tgt_max) ∧
  (v <= Zwo.tgt_min → new == Zwo.tgt_min) ∧
  (Zwo.tgt_max <= v → new == Zwo.tgt_max).
Proof.
  intros q q1 new.
  assert (Zwo.tgt_min <= new ∧ new <= Zwo.tgt_max) as Hrange.
  { subst new q1. unfold Zwo.tgt_min, Zwo.tgt_max.
    destruct (Qltb (600 # 1) q) eqn:E1.
    - replace (Qltb (600 # 1) (1 # 1000)) with false by reflexivity. lra.
    - apply Qltb_false in E1.
      destruct (Qltb q (1 # 1000)) eqn:E2; [lra|].
      apply Qltb_false in E2. lra. }
  split; [done|].
  set (x := (v + Zwo.tgt_stp / (2 # 1)) / Zwo.tgt_stp) in *.
  assert (x == v * (1000 # 1) + (1 # 2)) as Hx
    by (subst x; unfold Zwo.tgt_stp; field).
  set (k := Qtrunc x) in *.
  unfold Zwo.tgt_min, Zwo.tgt_max, Zwo.tgt_stp in *.
  split.
  - intros Hv.
    assert (k ≤ 1)%Z as Hk.
    { destruct (Qlt_le_dec x 1) as [Hlt|Hge].
      - pose proof (Qtrunc_below_1 x Hlt). subst k. lia.
      - subst k. rewrite Qtrunc_nonneg by lra.
        apply Z.lt_succ_r. rewrite Zlt_Qlt.
        eapply Qle_lt_trans; [apply Qfloor_le|].
        change (inject_Z (Z.succ 1)) with (2 # 1). lra. }
    assert (inject_Z k <= 1) as Hk'.
    { change 1 with (inject_Z 1). by rewrite <-Zle_Qle. }
    assert (q <= 1 # 1000) as Hq by (subst q; lra).
    subst new q1.
    replace (Qltb (600 # 1) q) with false
      by (symmetry; apply Qltb_false; lra).
    destruct (Qltb q (1 # 1000)) eqn:E; [reflexivity|].
    apply Qltb_false in E. lra.
  - intros Hv.
    assert (600000 ≤ k)%Z as Hk.
    { subst k. rewrite Qtrunc_nonneg by lra.
      rewrite <-(Qfloor_Z 600000). apply Qfloor_resp_le.
      change (inject_Z 600000) with (600000 # 1). lra. }
    assert (600000 # 1 <= inject_Z k) as Hk'.
    { change (600000 # 1) with (inject_Z 600000). by rewrite <-Zle_Qle. }
    assert (600 # 1 <= q) as Hq by (subst q; lra).
    subst new q1.
    destruct (Qltb (600 # 1) q) eqn:E.
    + reflexivity.
    + apply Qltb_false in E.
      replace (Qltb q (1 # 1000)) with false
        by (symmetry; apply Qltb_false; lra).
      lra.
Qed.

(** The integral part of a number between two integers. *)
Lemma Qtrunc_between (x : Q) (a b : Z) :
  (a ≤ 0 ≤ b)%Z → inject_Z a <= x → x <= inject_Z b →
  (a ≤ Qtrunc x ≤ b)%Z.
Proof.
  unfold Qtrunc, Qle, inject_Z. destruct x as [n d]. simpl.
  rewrite !Z.mul_1_r. intros Hab H1 H2.
  Z.quot_rem_to_equations. nia.
Qed.

(** Rounding to the step: for a value not below minus half a step the
    cast gives the number of steps nearest to it. *)
Lemma steps_nearest (v : Q) :
  - (1 # 2000) <= v →
  Qabs (inject_Z (Qtrunc ((v + Zwo.tgt_stp / (2 # 1)) / Zwo.tgt_stp))
        * Zwo.tgt_stp - v) <= Zwo.tgt_stp / (2 # 1).
Proof.
  intros Hv. unfold Zwo.tgt_stp.
  set (x := (v + (1 # 1000) / (2 # 1)) / (1 # 1000)).
  assert (x == v * (1000 # 1) + (1 # 2)) as Hx by (subst x; field).
  rewrite Qtrunc_nonneg by lra.
  pose proof (Qfloor_le x) as H1. pose proof (Qlt_floor x) as H2.
  rewrite inject_Z_succ in H2.
  assert ((1 # 1000) / (2 # 1) == 1 # 2000) as -> by reflexivity.
  apply Qabs_Qle_condition. split; lra.
Qed.

End etime_clamp.


(** ** The command loop of the Tau server *)

Section tau_commands.
Import CString.

(** X18. The four words that end a connection: a line that, trimmed and
    put in upper case, reads QUIT, BYE, EXIT or LOGOUT is answered with
    the empty string, on which the connection server drops the client,
    and nothing of the state changes. *)
Theorem Tau_disconnect_words (L : library) (e : TauCam.env) (w : Tau.world)
    (c : Client.client_info) (buffer : string) :
  upper (trim buffer) ∈ [Tau.QUIT_CMD; Tau.BYE_CMD; Tau.EXIT_CMD;
                          Tau.LOGOUT_CMD] →
  Tau.client_recv L e w c buffer = Ok (w, c, Lit "").
Proof.
  intros Hin. unfold Tau.client_recv. cbv zeta.
  assert (strchr (trim buffer) " " = None) as ->.
  { apply strchr_space_upper.
    repeat (apply elem_of_cons in Hin as [-> |Hin]; [reflexivity|]).
    by apply elem_of_nil in Hin. }
  assert ((strcasecmp (trim buffer) Tau.QUIT_CMD =? 0)
          || (strcasecmp (trim buffer) Tau.BYE_CMD =? 0)
          || (strcasecmp (trim buffer) Tau.EXIT_CMD =? 0)
          || (strcasecmp (trim buffer) Tau.LOGOUT_CMD =? 0) = true) as ->;
    [|done].
  rewrite !orb_true_iff, !Z.eqb_eq.
  apply elem_of_cons in Hin as [Hin|Hin].
  { left. left. left. by apply strcasecmp_same_upper. }
  apply elem_of_cons in Hin as [Hin|Hin].
  { left. left. right. by apply strcasecmp_same_upper. }
  apply elem_of_cons in Hin as [Hin|Hin].
  { left. right. by apply strcasecmp_same_upper. }
  apply elem_of_cons in Hin as [Hin|Hin].
  { right. by apply strcasecmp_same_upper. }
  by apply elem_of_nil in Hin.
Qed.

Lemma Tau_disconnect_words_witness :
  Tau.client_recv Lib.reference Examples.tau_no_file Examples.tau_streaming
    Examples.streaming_client "  LogOut  " =
  Ok (Examples.tau_streaming, Examples.streaming_client, Lit "").
Proof.
  apply (Tau_disconnect_words Lib.reference Examples.tau_no_file
           Examples.tau_streaming Examples.streaming_client "  LogOut  ").
  vm_compute. do 3 right. by left.
Defined.

(** X19. A command of the Tau server that is refused changes nothing.
    Whatever the line, the hook either hands it to [takeImage], or answers
    with the pass marker and ETIME or GAIN, or leaves the server state and
    the client as they were. *)
Theorem Tau_refused_command_changes_nothing (L : library) (e : TauCam.env)
    (w w' : Tau.world) (c c' : Client.client_info) (buffer : string)
    (t : text) :
  Tau.client_recv L e w c buffer = Ok (w', c', t) →
  Tau.takeImage e w c = Ok (w', c', t) ∨
  t = Fmt "%c %s" [AChr PASS_CHAR; AStr Tau.ETIME_CMD] ∨
  t = Fmt "%c %s" [AChr PASS_CHAR; AStr Tau.GAIN_CMD] ∨
  (w' = w ∧ c' = c).
Proof.
  unfold Tau.client_recv. cbv zeta. intros H.
  destruct (strchr (trim buffer) " ") as [p|].
  - destruct (strcasecmp _ Tau.ETIME_CMD =? 0).
    + destruct (cli_argv_quoted L (tail p)) as [|a [|a' args]];
        [simplify_eq; eauto| |simplify_eq; eauto].
      destruct (_ || _); [simplify_eq; eauto|].
      destruct (_ || _); [simplify_eq; eauto|].
      apply bind_Ok_inv in H as ([w1 c1] & _ & H). simplify_eq. eauto.
    + destruct (strcasecmp _ Tau.GAIN_CMD =? 0); [|simplify_eq; eauto].
      destruct (cli_argv_quoted L (tail p)) as [|a [|a' args]];
        [simplify_eq; eauto| |simplify_eq; eauto].
      destruct (Tau.gain_of_string a); simplify_eq; eauto.
  - destruct (_ || _); [simplify_eq; eauto|].
    destruct (strcasecmp _ IMAGE_CMD =? 0); [eauto|].
    destruct (strcasecmp _ Tau.ETIME_CMD =? 0); [simplify_eq; eauto|].
    destruct (strcasecmp _ Tau.GAIN_CMD =? 0); simplify_eq; eauto.
Qed.

Lemma Tau_refused_command_changes_nothing_witness :
  Tau.takeImage Examples.tau_no_file Examples.tau_streaming
    Examples.streaming_client =
    Ok (Examples.tau_streaming, Examples.streaming_client,
        Tau.command_fail Tau.ETIME_CMD "Invalid exposure time specified") ∨
  Tau.command_fail Tau.ETIME_CMD "Invalid exposure time specified" =
    Fmt "%c %s" [AChr PASS_CHAR; AStr Tau.ETIME_CMD] ∨
  Tau.command_fail Tau.ETIME_CMD "Invalid exposure time specified" =
    Fmt "%c %s" [AChr PASS_CHAR; AStr Tau.GAIN_CMD] ∨
  (Examples.tau_streaming = Examples.tau_streaming ∧
   Examples.streaming_client = Examples.streaming_client).
Proof.
  apply (Tau_refused_command_changes_nothing Lib.reference
           Examples.tau_no_file Examples.tau_streaming Examples.tau_streaming
           Examples.streaming_client Examples.streaming_client
           "etime 0.05").
  vm_compute. reflexivity.
Defined.

End tau_commands.


(** ** What the Tau server stacks and writes *)

Section tau_pixels.
Import TauCam.

Lemma zip_with_snd (stack data : list Z) :
  length stack = length data → zip_with (λ _ new : Z, new) stack data = data.
Proof.
  revert data. induction stack as [|x stack IH]; intros [|d data] H;
    simpl in *; try done. f_equal. apply IH. lia.
Qed.

(** X20. Inside an exposure window the Tau server counts every frame of
    the sensor's size and keeps the pixels of the last one only: the
    pixel loop assigns where the comment above it, and taucamLocal.cc,
    add.  The count is taken in [unsigned int]. *)
Theorem Tau_window_keeps_last_frame (frames : list TauRawBitmap)
    (b : TauRawBitmap) (s : server_info) (stack : list Z) :
  (1 ≤ pixels s)%nat → Z.of_nat (pixels s) ≤ 1073741824 →
  stack_data s = Some stack → length stack = pixels s →
  Qeq_bool (exp_start_ts s) (0 # 1) = false →
  Forall (λ b, b_width b = width s ∧ b_height b = height s ∧
               length (b_data b) = pixels s ∧ u16 (b_data b))
    (frames ++ [b]) →
  deliver Tau.callbackTauImage s (frames ++ [b]) =
    Ok (set_frame_count (set_stack_data s (Some (b_data b)))
          (wrapu32 (frame_count s + Z.of_nat (length (frames ++ [b]))))).
Proof.
  unfold Tau.callbackTauImage. revert b s stack.
  induction frames as [|b0 frames IH];
    intros b s stack Hn1 Hn2 Hst Hlen Hts Hfr.
  - apply Forall_singleton in Hfr as (Hw & Hh & Hd & Hu).
    cbn [app deliver].
    rewrite (callback_frame _ s b stack), Hts by done.
    rewrite bind_Ok, zip_with_snd by lia. done.
  - rewrite <-app_comm_cons in Hfr.
    apply Forall_cons in Hfr as [(Hw & Hh & Hd & Hu) Hfr].
    rewrite <-app_comm_cons. cbn [deliver].
    rewrite (callback_frame _ s b0 stack), Hts by done.
    rewrite bind_Ok, zip_with_snd by lia.
    erewrite IH; [|done|done|reflexivity|done|done|done].
    cbn [frame_count set_frame_count set_stack_data]. do 2 f_equal.
    unfold wrapu32. rewrite Z.add_mod_idemp_l by lia. f_equal.
    cbn [length]. lia.
Qed.

Lemma Tau_window_keeps_last_frame_witness :
  deliver Tau.callbackTauImage Examples.exposing
    ([Examples.frame_a] ++ [Examples.frame_b]) =
  Ok (set_frame_count
        (set_stack_data Examples.exposing (Some (b_data Examples.frame_b)))
        (wrapu32 (frame_count Examples.exposing +
                  Z.of_nat (length ([Examples.frame_a] ++ [Examples.frame_b]))))).
Proof.
  apply (Tau_window_keeps_last_frame [Examples.frame_a] Examples.frame_b
           Examples.exposing [0; 0; 0]).
  - vm_compute. lia.
  - vm_compute. discriminate.
  - reflexivity.
  - reflexivity.
  - reflexivity.
  - repeat constructor; vm_compute; try reflexivity; try lia;
      try discriminate.
Defined.

Lemma min_val_u16 (stack : list Z) :
  stack ≠ [] → u16 stack →
  min_val stack ∈ stack ∧ ∀ x, x ∈ stack → min_val stack ≤ x.
Proof.
  intros Hne Hu. destruct (min_val_fold stack 65535) as (H1 & H2 & H3).
  fold (min_val stack) in *. split; [|done].
  destruct H3 as [H3|H3]; [|done].
  destruct stack as [|x stack]; [done|].
  apply Forall_cons in Hu as [Hx Hu].
  pose proof (H2 x ltac:(by left)).
  assert (x = min_val (x :: stack)) as <- by lia. by left.
Qed.

Lemma Tau_image_u16 (stack : list Z) (m : Z) :
  u16 stack → 0 ≤ m → (∀ x, x ∈ stack → m ≤ x) →
  Tau.image stack m = map (λ x, x - m) stack.
Proof.
  intros Hu Hm Hmin. unfold Tau.image. apply map_ext_in.
  intros x Hx%list_elem_of_In. unfold u16 in Hu. rewrite Forall_forall in Hu.
  pose proof (Hu x Hx). pose proof (Hmin x Hx).
  rewrite wrap32_id by lia.
  destruct (x - m >? 65535) eqn:E; [lia|].
  apply wrapu16_id. lia.
Qed.

(** X21. The pixels the Tau server writes.  Its accumulator holds a frame
    as the camera sent it, 16-bit values, so the search that starts at
    65535 finds the true minimum: the pixels handed to the FITS writer are
    the frame with its smallest value taken off every pixel, none of them
    clamped or wrapped, the smallest of them 0.  The start timestamp is
    reset whether the writer succeeds or not. *)
Theorem Tau_writes_frame_minus_minimum (e : env) (w : Tau.world)
    (stack : list Z) :
  is_Some (Tau.ss w !! Tau.SS_DOME_AZ) → is_Some (Tau.ss w !! Tau.SS_TEMP) →
  is_Some (Tau.ss w !! Tau.SS_PRES) → is_Some (Tau.ss w !! Tau.SS_HUMID) →
  stack_data (Tau.serv w) = Some stack →
  length stack = pixels (Tau.serv w) → stack ≠ [] → u16 stack →
  frame_count (Tau.serv w) ≠ 0 → fh_write_ok e = true →
  ∃ m, m ∈ stack ∧ (∀ x, x ∈ stack → m ≤ x) ∧
    0 ∈ map (λ x, x - m) stack ∧
    Tau.writeFITSImage e w =
      match fh_write_padded_image e (map (λ x, x - m) stack) with
      | Some bytes =>
          Ok (PASS,
              Tau.set_serv w (set_exp_start_ts (Tau.serv w) (0 # 1)), bytes)
      | None =>
          Ok (FAIL,
              Tau.set_serv w (set_exp_start_ts (Tau.serv w) (0 # 1)), [])
      end.
Proof.
  intros [? H1] [? H2] [? H3] [? H4] Hst Hlen Hne Hu Hfc Hfh.
  destruct (min_val_u16 stack Hne Hu) as [Hin Hmin].
  exists (min_val stack). split_and!; try done.
  - apply list_elem_of_fmap. exists (min_val stack). split; [lia|done].
  - unfold Tau.writeFITSImage. rewrite H1, H2, H3, H4, Hst.
    apply Z.eqb_neq in Hfc. rewrite Hfc, Hfh. cbn [negb].
    rewrite decide_True by lia. cbv zeta.
    rewrite take_ge by lia.
    rewrite Tau_image_u16; try done.
    unfold u16 in Hu. rewrite Forall_forall in Hu.
    pose proof (Hu _ Hin). lia.
Qed.

Lemma Tau_writes_frame_minus_minimum_witness :
  ∃ m, m ∈ [30; 10; 20] ∧ (∀ x, x ∈ [30; 10; 20] → m ≤ x) ∧
    0 ∈ map (λ x, x - m) [30; 10; 20] ∧
    Tau.writeFITSImage Examples.tau_four_frames Examples.tau_stacked =
      match fh_write_padded_image Examples.tau_four_frames
              (map (λ x, x - m) [30; 10; 20]) with
      | Some bytes =>
          Ok (PASS,
              Tau.set_serv Examples.tau_stacked
                (set_exp_start_ts (Tau.serv Examples.tau_stacked) (0 # 1)),
              bytes)
      | None =>
          Ok (FAIL,
              Tau.set_serv Examples.tau_stacked
                (set_exp_start_ts (Tau.serv Examples.tau_stacked) (0 # 1)),
              [])
      end.
Proof.
  apply (Tau_writes_frame_minus_minimum Examples.tau_four_frames
           Examples.tau_stacked [30; 10; 20]).
  - vm_compute. eauto.
  - vm_compute. eauto.
  - vm_compute. eauto.
  - vm_compute. eauto.
  - reflexivity.
  - reflexivity.
  - discriminate.
  - unfold u16. repeat constructor; lia.
  - vm_compute. discriminate.
  - reflexivity.
Defined.

End tau_pixels.


(** ** The median of every m-th element *)

Section stride.
Import Median.
Variables (N : nat) (M : Z) (arr0 : list Z).
Hypothesis HM : 1 ≤ M.
Hypothesis HNM : Z.of_nat N * M ≤ 4294967296.

Local Abbreviation m := (Z.to_nat M).
Local Abbreviation Sim := (strided_view (Z.to_nat M) N arr0).

Lemma idx_stride (i : Z) : (idx i 1 < N)%nat → idx i M = (idx i 1 * m)%nat.
Proof.
  unfold idx, wrapu32. rewrite Z.mul_1_r. intros H.
  pose proof (Z.mod_pos_bound i 4294967296 ltac:(lia)) as Hb.
  rewrite <-Z.mul_mod_idemp_l by lia.
  rewrite Z.mod_small by nia.
  rewrite Z2Nat.inj_mul by lia. done.
Qed.

Lemma sim_rd arr sm i x :
  Sim arr sm → rd sm (idx i 1) = Ok x → rd arr (idx i M) = Ok x.
Proof.
  intros (Hl & _ & Hs & _). unfold rd. intros H.
  destruct (sm !! idx i 1) as [y|] eqn:E; [|done]. injection H as ->.
  assert (idx i 1 < N)%nat as Hi.
  { rewrite <-Hl. by eapply lookup_lt_Some. }
  by rewrite idx_stride, Hs, E.
Qed.

Lemma rd_lt sm i x : length sm = N → rd sm (idx i 1) = Ok x → (idx i 1 < N)%nat.
Proof.
  unfold rd. intros <- H. destruct (sm !! idx i 1) eqn:E; [|done].
  by eapply lookup_lt_Some.
Qed.

Lemma sim_insert arr sm i x :
  Sim arr sm → (i < N)%nat → Sim (<[(i * m)%nat := x]> arr) (<[i := x]> sm).
Proof.
  intros (Hl & Hl0 & Hs & Ho) Hi.
  assert (1 ≤ m)%nat by lia.
  split_and!.
  - by rewrite length_insert.
  - by rewrite length_insert.
  - intros k Hk. destruct (decide (k = i)) as [->|Hne].
    + rewrite !list_lookup_insert_eq; [done|lia|].
      apply lookup_lt_is_Some. rewrite Hs by done.
      apply lookup_lt_is_Some. lia.
    + rewrite !list_lookup_insert_ne by nia. by apply Hs.
  - intros j Hj. rewrite list_lookup_insert_ne; [by apply Ho|].
    intros <-. by apply (Hj i).
Qed.

Lemma sim_ELEM_SWAP arr sm a b sm' :
  Sim arr sm → ELEM_SWAP sm (idx a 1) (idx b 1) = Ok sm' →
  ∃ arr', ELEM_SWAP arr (idx a M) (idx b M) = Ok arr' ∧ Sim arr' sm'.
Proof.
  intros Hsim H. unfold ELEM_SWAP in *.
  apply bind_Ok_inv in H as (t & Ht & H).
  apply bind_Ok_inv in H as (x & Hx & H). simplify_eq.
  pose proof (rd_lt _ _ _ (proj1 Hsim) Ht).
  pose proof (rd_lt _ _ _ (proj1 Hsim) Hx).
  rewrite (sim_rd _ _ _ _ Hsim Ht), (sim_rd _ _ _ _ Hsim Hx), !bind_Ok.
  eexists. split; [done|].
  rewrite !idx_stride by done.
  apply sim_insert; [by apply sim_insert|done].
Qed.

Lemma sim_swap_if_gt arr sm a b sm' :
  Sim arr sm → swap_if_gt sm (idx a 1) (idx b 1) = Ok sm' →
  ∃ arr', swap_if_gt arr (idx a M) (idx b M) = Ok arr' ∧ Sim arr' sm'.
Proof.
  intros Hsim H. unfold swap_if_gt in *.
  apply bind_Ok_inv in H as (x & Hx & H).
  apply bind_Ok_inv in H as (y & Hy & H).
  rewrite (sim_rd _ _ _ _ Hsim Hx), (sim_rd _ _ _ _ Hsim Hy), !bind_Ok.
  destruct (y <? x).
  - by eapply sim_ELEM_SWAP.
  - simplify_eq. by exists arr.
Qed.

Lemma sim_scan_up fuel arr sm low :
  Sim arr sm →
  ∀ ll r, scan_up fuel sm 1 low ll = Ok r → scan_up fuel arr M low ll = Ok r.
Proof.
  intros Hsim. induction fuel as [|fuel IH]; intros ll r H; [done|].
  cbn [scan_up] in *.
  apply bind_Ok_inv in H as (p & Hp & H).
  apply bind_Ok_inv in H as (x & Hx & H).
  rewrite (sim_rd _ _ _ _ Hsim Hp), (sim_rd _ _ _ _ Hsim Hx), !bind_Ok.
  destruct (x <? p); [by apply IH|done].
Qed.

Lemma sim_scan_down fuel arr sm low :
  Sim arr sm →
  ∀ hh r, scan_down fuel sm 1 low hh = Ok r →
          scan_down fuel arr M low hh = Ok r.
Proof.
  intros Hsim. induction fuel as [|fuel IH]; intros hh r H; [done|].
  cbn [scan_down] in *.
  apply bind_Ok_inv in H as (x & Hx & H).
  apply bind_Ok_inv in H as (p & Hp & H).
  rewrite (sim_rd _ _ _ _ Hsim Hp), (sim_rd _ _ _ _ Hsim Hx), !bind_Ok.
  destruct (p <? x); [by apply IH|done].
Qed.

Lemma sim_nibble fuel low :
  ∀ arr sm ll hh sm' ll' hh',
    Sim arr sm → nibble fuel sm 1 low ll hh = Ok (sm', ll', hh') →
    ∃ arr', nibble fuel arr M low ll hh = Ok (arr', ll', hh') ∧ Sim arr' sm'.
Proof.
  induction fuel as [|fuel IH]; intros arr sm ll hh sm' ll' hh' Hsim H;
    [done|].
  cbn [nibble] in *.
  apply bind_Ok_inv in H as (l1 & Hl & H).
  apply bind_Ok_inv in H as (h1 & Hh & H).
  rewrite (sim_scan_up _ _ _ _ Hsim _ _ Hl),
    (sim_scan_down _ _ _ _ Hsim _ _ Hh), !bind_Ok.
  destruct (h1 <? l1).
  - simplify_eq. by exists arr.
  - apply bind_Ok_inv in H as (sm1 & Hs & H).
    destruct (sim_ELEM_SWAP _ _ _ _ _ Hsim Hs) as (arr1 & -> & Hsim1).
    rewrite bind_Ok. by eapply IH.
Qed.

Lemma sim_select fuel median :
  ∀ arr sm low high v sm',
    Sim arr sm → select fuel sm 1 low high median = Ok (v, sm') →
    ∃ arr', select fuel arr M low high median = Ok (v, arr') ∧ Sim arr' sm'.
Proof.
  induction fuel as [|fuel IH]; intros arr sm low high v sm' Hsim H; [done|].
  cbn [select] in *.
  destruct (high <=? low).
  { apply bind_Ok_inv in H as (x & Hx & H). simplify_eq.
    rewrite (sim_rd _ _ _ _ Hsim Hx), bind_Ok. by exists arr. }
  destruct (high =? wrap32 (low + 1)).
  { apply bind_Ok_inv in H as (sm1 & Hs & H).
    destruct (sim_swap_if_gt _ _ _ _ _ Hsim Hs) as (arr1 & -> & Hsim1).
    apply bind_Ok_inv in H as (x & Hx & H). simplify_eq.
    rewrite bind_Ok, (sim_rd _ _ _ _ Hsim1 Hx), bind_Ok. by exists arr1. }
  cbv zeta in *.
  apply bind_Ok_inv in H as (sm1 & Hs1 & H).
  destruct (sim_swap_if_gt _ _ _ _ _ Hsim Hs1) as (arr1 & -> & Hsim1).
  rewrite bind_Ok.
  apply bind_Ok_inv in H as (sm2 & Hs2 & H).
  destruct (sim_swap_if_gt _ _ _ _ _ Hsim1 Hs2) as (arr2 & -> & Hsim2).
  rewrite bind_Ok.
  apply bind_Ok_inv in H as (sm3 & Hs3 & H).
  destruct (sim_swap_if_gt _ _ _ _ _ Hsim2 Hs3) as (arr3 & -> & Hsim3).
  rewrite bind_Ok.
  apply bind_Ok_inv in H as (sm4 & Hs4 & H).
  destruct (sim_ELEM_SWAP _ _ _ _ _ Hsim3 Hs4) as (arr4 & -> & Hsim4).
  rewrite bind_Ok.
  apply bind_Ok_inv in H as ([[sm5 ll] hh] & Hn & H).
  destruct (sim_nibble _ _ _ _ _ _ _ _ _ Hsim4 Hn) as (arr5 & -> & Hsim5).
  rewrite bind_Ok. cbn beta iota in *.
  apply bind_Ok_inv in H as (sm6 & Hs6 & H).
  destruct (sim_ELEM_SWAP _ _ _ _ _ Hsim5 Hs6) as (arr6 & -> & Hsim6).
  rewrite bind_Ok. by eapply IH.
Qed.

End stride.

Lemma strided_lookup (arr : list Z) (m n i : nat) :
  (i < n)%nat → (i * m < length arr)%nat →
  strided arr m n !! i = arr !! (i * m)%nat.
Proof.
  intros Hi Hl. unfold strided. rewrite list_lookup_fmap.
  rewrite lookup_seq_lt by done. simpl.
  symmetry. by apply list_lookup_lookup_total_lt.
Qed.

Lemma length_strided (arr : list Z) (m n : nat) : length (strided arr m n) = n.
Proof. unfold strided. by rewrite length_fmap, length_seq. Qed.

Lemma strided_u16 (arr : list Z) (m n : nat) :
  u16 arr → (n = 0 ∨ (n - 1) * m < length arr)%nat → u16 (strided arr m n).
Proof.
  intros Hu Hn. unfold u16 in *. apply Forall_lookup. intros i x Hx.
  assert (i < n)%nat as Hi.
  { rewrite <-(length_strided arr m n). by eapply lookup_lt_Some. }
  rewrite strided_lookup in Hx; [|done|nia].
  rewrite Forall_lookup in Hu. by eapply Hu.
Qed.

Lemma strided_view_eq (m n : nat) (arr0 arr sm : list Z) :
  strided_view m n arr0 arr sm → strided arr m n = sm.
Proof.
  intros (Hl & _ & Hs & _). apply list_eq. intros i.
  destruct (decide (i < n)%nat) as [Hi|Hi].
  - rewrite <-Hs by done. apply strided_lookup; [done|].
    apply lookup_lt_is_Some. rewrite Hs by done.
    apply lookup_lt_is_Some. lia.
  - rewrite !lookup_ge_None_2; [done|lia|]. rewrite length_strided. lia.
Qed.




(** ** Stacking, bias and disconnection in general *)

(** X23. Stacking in taucamLocal.cc.  From the start of an exposure
    window, with the accumulator cleared, after N frames of the sensor's
    size (N up to 32767, sensors up to 2^30 pixels) the frame count is N
    and the accumulator holds the pixel-wise sum of the frames, each with
    its own lower median taken off; no sum leaves the range of [int]. *)
Theorem TauLocal_stacks_median_subtracted (frames : list TauCam.TauRawBitmap)
    (s : TauCam.server_info) :
  (1 ≤ TauCam.pixels s)%nat → Z.of_nat (TauCam.pixels s) ≤ 1073741824 →
  TauCam.stack_data s = Some (replicate (TauCam.pixels s) 0) →
  TauCam.frame_count s = 0 →
  Qeq_bool (TauCam.exp_start_ts s) (0 # 1) = false →
  Forall (λ b, TauCam.b_width b = TauCam.width s ∧
               TauCam.b_height b = TauCam.height s ∧
               length (TauCam.b_data b) = TauCam.pixels s ∧
               u16 (TauCam.b_data b)) frames →
  Z.of_nat (length frames) ≤ 32767 →
  ∃ s',
    TauCam.deliver TauLocal.callbackTauImage s frames = Ok s' ∧
    TauCam.frame_count s' = Z.of_nat (length frames) ∧
    TauCam.stack_data s' =
      Some (stacked (TauCam.pixels s) (TauCam.b_data <$> frames)).
Proof. apply TauLocal_window_stacks. Qed.

Lemma TauLocal_stacks_median_subtracted_witness :
  ∃ s',
    TauCam.deliver TauLocal.callbackTauImage Examples.exposing
      [Examples.frame_a; Examples.frame_b] = Ok s' ∧
    TauCam.frame_count s' =
      Z.of_nat (length [Examples.frame_a; Examples.frame_b]) ∧
    TauCam.stack_data s' =
      Some (stacked (TauCam.pixels Examples.exposing)
              (TauCam.b_data <$> [Examples.frame_a; Examples.frame_b])).
Proof.
  apply (TauLocal_stacks_median_subtracted
           [Examples.frame_a; Examples.frame_b] Examples.exposing).
  - vm_compute. lia.
  - vm_compute. discriminate.
  - reflexivity.
  - reflexivity.
  - reflexivity.
  - repeat constructor; vm_compute; try reflexivity; try lia;
      try discriminate.
  - vm_compute. discriminate.
Defined.

Lemma TauLocal_image_zero (stack : list Z) (m : Z) :
  m ∈ stack → 0 ∈ TauLocal.image stack m.
Proof.
  intros Hin. unfold TauLocal.image. apply list_elem_of_fmap.
  exists m. split; [|done]. by rewrite Z.sub_diag.
Qed.

(** X24. Bias correction when the search for the minimum does find it.
    For accumulators that are not negative, one of them at most 65535, the
    image both programs compute has a pixel equal to 0 and none below
    0. *)
Theorem bias_minimum_zero_below_65535 (stack : list Z) :
  Forall (λ x, 0 ≤ x ≤ INT_MAX) stack →
  (∃ x, x ∈ stack ∧ x ≤ 65535) →
  (0 ∈ Tau.image stack (TauCam.min_val stack) ∧
   Forall (λ y, 0 ≤ y) (Tau.image stack (TauCam.min_val stack))) ∧
  (0 ∈ TauLocal.image stack (TauCam.min_val stack) ∧
   Forall (λ y, 0 ≤ y) (TauLocal.image stack (TauCam.min_val stack))).
Proof.
  intros Hs Hx. split; [by apply bias_minimum_zero_if_reached|].
  destruct Hx as (x & Hx & Hx').
  destruct (min_val_fold stack 65535) as (H1 & H2 & H3).
  fold (TauCam.min_val stack) in *.
  assert (TauCam.min_val stack ∈ stack) as Hin.
  { destruct H3 as [H3|H3]; [|done].
    pose proof (H2 x Hx). by replace (TauCam.min_val stack) with x by lia. }
  split; [by apply TauLocal_image_zero|].
  unfold TauLocal.image. apply Forall_map, Forall_forall. intros y Hy. simpl.
  destruct (wrap32 (y - TauCam.min_val stack) >? 65535); [lia|].
  unfold wrapu16. apply Z.mod_pos_bound. lia.
Qed.

Lemma bias_minimum_zero_below_65535_witness :
  (0 ∈ Tau.image [70000; 300; 80000] (TauCam.min_val [70000; 300; 80000]) ∧
   Forall (λ y, 0 ≤ y)
     (Tau.image [70000; 300; 80000] (TauCam.min_val [70000; 300; 80000]))) ∧
  (0 ∈ TauLocal.image [70000; 300; 80000]
         (TauCam.min_val [70000; 300; 80000]) ∧
   Forall (λ y, 0 ≤ y)
     (TauLocal.image [70000; 300; 80000]
        (TauCam.min_val [70000; 300; 80000]))).
Proof.
  apply (bias_minimum_zero_below_65535 [70000; 300; 80000]).
  - unfold INT_MAX. repeat constructor; lia.
  - exists 300. split; [|lia]. right. by left.
Defined.

(** X25. Disconnection with a host name and an image buffer, any heap.
    The hook of the ZWO server frees the host name and leaves the image
    buffer allocated; the hook of the Tau server frees both. *)
Theorem client_del_frees (h : heap) (c : Client.client_info) (p q : loc)
    (data : list Z) :
  Client.hostname c = Some p → Client.image_data c = Some q → p ≠ q →
  is_Some (h !! p) → h !! q = Some data →
  Zwo.client_del h c = Ok (delete p h) ∧
  delete p h !! q = Some data ∧
  Tau.client_del h c = Ok (delete q (delete p h)).
Proof. apply client_del_buffers. Qed.

Lemma client_del_frees_witness :
  Zwo.client_del Examples.leaving_heap Examples.leaving_client =
    Ok (delete 1%positive Examples.leaving_heap) ∧
  delete 1%positive Examples.leaving_heap !! 2%positive =
    Some [70; 73; 84; 83] ∧
  Tau.client_del Examples.leaving_heap Examples.leaving_client =
    Ok (delete 2%positive (delete 1%positive Examples.leaving_heap)).
Proof.
  apply (client_del_frees Examples.leaving_heap Examples.leaving_client
           1%positive 2%positive [70; 73; 84; 83]).
  - reflexivity.
  - reflexivity.
  - discriminate.
  - vm_compute. eauto.
  - reflexivity.
Defined.


(** ** The scaled image of taucamLocal.cc *)

Lemma Qtrunc_scaled (d : Z) :
  0 ≤ d ≤ 65535 → 0 ≤ Qtrunc ((4 # 10) * inject_Z d) ≤ 26214.
Proof.
  intros Hd. unfold Qtrunc, Qmult, inject_Z. simpl.
  rewrite Z.quot_div_nonneg by lia.
  split.
  - apply Z.div_pos; lia.
  - apply Z.div_le_upper_bound; lia.
Qed.

(** X26. The image [takeImage] of taucamLocal.cc returns.  With
    accumulators of less than 2^30 in size, every pixel is either 65535,
    for a value more than 65535 above the baseline, or at most 26214: the
    factor 0.4 is applied below the clamp only, so the values from 26215
    to 65534 do not occur.  The image has as many pixels as the
    accumulator. *)
Theorem TauLocal_image_range (stack : list Z) :
  Forall (λ x, Z.abs x < 1073741824) stack →
  length (TauLocal.image stack (TauCam.min_val stack)) = length stack ∧
  Forall (λ y, 0 ≤ y ≤ 26214 ∨ y = 65535)
    (TauLocal.image stack (TauCam.min_val stack)).
Proof.
  intros Hs. split; [apply length_map|].
  destruct (min_val_fold stack 65535) as (H1 & H2 & H3).
  fold (TauCam.min_val stack) in *.
  rewrite Forall_forall in Hs.
  assert (-1073741824 ≤ TauCam.min_val stack ≤ 65535) as Hm.
  { split; [|done]. destruct H3 as [-> |H3]; [lia|].
    pose proof (Hs _ H3). lia. }
  unfold TauLocal.image. apply Forall_map, Forall_forall. intros x Hx. simpl.
  pose proof (Hs x Hx). pose proof (H2 x Hx).
  rewrite wrap32_id by lia.
  destruct (x - TauCam.min_val stack >? 65535) eqn:E; [by right|].
  left. pose proof (Qtrunc_scaled (x - TauCam.min_val stack) ltac:(lia)).
  rewrite wrapu16_id; lia.
Qed.

Lemma TauLocal_image_range_witness :
  length (TauLocal.image [131070; 400; 65936]
            (TauCam.min_val [131070; 400; 65936])) =
    length [131070; 400; 65936] ∧
  Forall (λ y, 0 ≤ y ≤ 26214 ∨ y = 65535)
    (TauLocal.image [131070; 400; 65936]
       (TauCam.min_val [131070; 400; 65936])).
Proof.
  apply (TauLocal_image_range [131070; 400; 65936]).
  repeat constructor; lia.
Defined.


(** ** The frames of one exposure *)

Section exposure_frames.
Import TauCam.
Variable callback : server_info → TauRawBitmap → result server_info.

(** [Inv s fs]: the state [s] after the frames [fs]; [fit] what a frame
    has to meet; [few] a bound on the run of frames that holds for every
    run it holds for a longer one. *)
Variable Inv : server_info → list TauRawBitmap → Prop.
Variables (fit : TauRawBitmap → Prop) (few : list TauRawBitmap → Prop).
Hypothesis few_prefix : ∀ l l', few (l ++ l') → few l.
Hypothesis Inv_step :
  ∀ s fs b s', Inv s fs → callback s b = Ok s' → fit b → few (fs ++ [b]) →
               Inv s' (fs ++ [b]).
Hypothesis Inv_count :
  ∀ s fs, Inv s fs → few fs → fs ≠ [] → frame_count s ≠ 0.

Lemma deliver_Inv (batch : list TauRawBitmap) :
  ∀ s fs s', Inv s fs → Forall fit batch → few (fs ++ batch) →
             deliver callback s batch = Ok s' → Inv s' (fs ++ batch).
Proof.
  induction batch as [|b batch IH]; intros s fs s' HI Hfit Hfew H.
  - simpl in H. injection H as <-. by rewrite app_nil_r.
  - apply Forall_cons in Hfit as [Hb Hfit]. cbn [deliver] in H.
    apply bind_Ok_inv in H as (s1 & H1 & H).
    rewrite (cons_middle b fs batch), app_assoc in Hfew |- *.
    eapply IH; [|done..].
    eapply Inv_step; [done..|]. by eapply few_prefix.
Qed.

(** Once a frame has come the loop reads the clock once after each
    sleep, and it ends at the first reading that is not before the stop
    time: with the readings [early] before it, the loop has slept
    [S (length early)] times. *)
Lemma wait_frames_Inv (stop_ts : double) (now : Q) (rest : list Q)
    (early : list Q) :
  ∀ fuel s arr fs s',
    Inv s fs → Forall fit (concat arr) → few (fs ++ concat arr) →
    fs ++ hd [] arr ≠ [] →
    Forall (λ t, dlt (Fin t) stop_ts = true) early →
    dlt (Fin now) stop_ts = false →
    wait_frames callback fuel s stop_ts (early ++ now :: rest) arr =
      Ok (Exposed s') →
    Inv s' (fs ++ concat (take (S (length early)) arr)).
Proof.
  induction early as [|t early IH];
    intros fuel s arr fs s' HI Hfit Hfew Hne Hearly Hnow H;
    (destruct fuel as [|fuel]; [done|]);
    cbn [wait_frames] in H;
    apply bind_Ok_inv in H as (s1 & H1 & H);
    (assert (concat arr = hd [] arr ++ concat (tl arr)) as Hcat
       by (destruct arr; [done|reflexivity]));
    rewrite Hcat in Hfit, Hfew; apply Forall_app in Hfit as [Hfit1 Hfit2];
    rewrite app_assoc in Hfew;
    (assert (Inv s1 (fs ++ hd [] arr)) as HI1
       by (eapply deliver_Inv; [done..| |done]; by eapply few_prefix));
    (assert ((frame_count s1 =? 0) = false) as Hfc
       by (apply Z.eqb_neq; eapply Inv_count; [done| |done];
           by eapply few_prefix));
    (assert (∀ k, concat (take (S k) arr)
                  = hd [] arr ++ concat (take k (tl arr))) as Htake
       by (intros k; destruct arr as [|a r]; [|reflexivity];
           simpl; by destruct k));
    rewrite Hfc, bind_Ok in H; cbn [app] in H.
  - rewrite Hnow in H. cbn [orb] in H. injection H as <-.
    rewrite Htake, take_0. simpl. by rewrite app_nil_r.
  - apply Forall_cons in Hearly as [Ht Hearly].
    rewrite Ht in H. cbn [orb] in H.
    rewrite Htake, app_assoc. eapply IH; [done..| | | |exact H]; try done.
    intros E. apply app_eq_nil in E as [E _]. done.
Qed.

End exposure_frames.


(** ** From the frames to the image *)

Section exposure_image.
Import TauCam.

Lemma pixels_same (s s0 : server_info) :
  width s = width s0 → height s = height s0 → pixels s = pixels s0.
Proof. unfold pixels. by intros -> ->. Qed.

Lemma Forall_zip_with_add (A B : Z) (l1 l2 : list Z) :
  Forall (λ x, Z.abs x ≤ A) l1 → Forall (λ x, Z.abs x ≤ B) l2 →
  Forall (λ x, Z.abs x ≤ A + B) (zip_with Z.add l1 l2).
Proof.
  intros H1. revert l2. induction H1 as [|x l1 Hx H1 IH]; intros l2 H2;
    [by constructor|].
  destruct H2 as [|y l2 Hy H2]; [by constructor|].
  simpl. constructor; [lia|by apply IH].
Qed.

Lemma length_median_subtracted (d : list Z) :
  length (median_subtracted d) = length d.
Proof. unfold median_subtracted. by rewrite length_map. Qed.

Lemma stacked_snoc (n : nat) (ds : list (list Z)) (d : list Z) :
  stacked n (ds ++ [d]) = zip_with Z.add (stacked n ds) (median_subtracted d).
Proof. unfold stacked. by rewrite fmap_app, foldl_app. Qed.

Lemma stacked_spec (n : nat) (ds : list (list Z)) :
  (1 ≤ n)%nat → Forall (λ d, length d = n ∧ u16 d) ds →
  length (stacked n ds) = n ∧
  Forall (λ x, Z.abs x ≤ 65535 * Z.of_nat (length ds)) (stacked n ds).
Proof.
  intros Hn. induction ds as [|d ds IH] using rev_ind; intros Hds.
  - unfold stacked. simpl. rewrite length_replicate. split; [done|].
    apply Forall_replicate. lia.
  - apply Forall_app in Hds as [Hds Hd].
    apply Forall_singleton in Hd as [Hlen Hu].
    destruct (IH Hds) as [IHl IHb]. rewrite stacked_snoc. split.
    + rewrite length_zip_with, length_median_subtracted. lia.
    + rewrite length_app, Nat2Z.inj_add. cbn [length].
      replace (65535 * (Z.of_nat (length ds) + Z.of_nat 1))
        with (65535 * Z.of_nat (length ds) + 65535) by lia.
      apply Forall_zip_with_add; [done|].
      apply median_subtracted_bound; [lia|done].
Qed.

Lemma fits_data (s0 : server_info) (fs : list TauRawBitmap) :
  Forall (frame_fits s0) fs →
  Forall (λ d, length d = pixels s0 ∧ u16 d) (b_data <$> fs).
Proof.
  intros H. apply Forall_fmap. eapply Forall_impl; [exact H|].
  by intros b (_ & _ & ? & ?).
Qed.

Lemma length_concat_take (k : nat) (arr : list (list TauRawBitmap)) :
  (length (concat (take k arr)) ≤ length (concat arr))%nat.
Proof.
  rewrite <-(take_drop k arr) at 2. rewrite concat_app, length_app. lia.
Qed.

(** A frame that fits, inside the window, in the Tau server. *)
Lemma last_frame_kept_step (s0 : server_info) :
  (1 ≤ pixels s0)%nat → Z.of_nat (pixels s0) ≤ 1073741824 →
  ∀ s fs b s',
    last_frame_kept s0 s fs → Tau.callbackTauImage s b = Ok s' →
    frame_fits s0 b → True → last_frame_kept s0 s' (fs ++ [b]).
Proof.
  intros Hn1 Hn2 s fs b s' (Hw & Hh & Hts & Hfs & Hfc & stack & Hst & Hlen & _)
    Hcb (Hbw & Hbh & Hbl & Hbu) _.
  pose proof (pixels_same s s0 Hw Hh) as Hpx.
  unfold Tau.callbackTauImage in Hcb.
  rewrite (callback_frame _ s b stack), Hts in Hcb by (rewrite ?Hpx; congruence).
  injection Hcb as <-. rewrite zip_with_snd by lia.
  split_and!; try done.
  - apply Forall_app. split; [done|]. by apply Forall_singleton.
  - cbn. rewrite Hfc, length_app, Nat2Z.inj_add. cbn [length].
    unfold wrapu32. by rewrite Z.add_mod_idemp_l by lia.
  - exists (b_data b). split_and!; [done|done|].
    intros b'. rewrite last_snoc. by intros [= ->].
Qed.

(** The same in taucamLocal.cc, for at most 32767 frames. *)
Lemma frames_summed_step (s0 : server_info) :
  (1 ≤ pixels s0)%nat → Z.of_nat (pixels s0) ≤ 1073741824 →
  ∀ s fs b s',
    frames_summed s0 s fs → TauLocal.callbackTauImage s b = Ok s' →
    frame_fits s0 b → Z.of_nat (length (fs ++ [b])) ≤ 32767 →
    frames_summed s0 s' (fs ++ [b]).
Proof.
  intros Hn1 Hn2 s fs b s' (Hw & Hh & Hts & Hfs & Hfc & Hst)
    Hcb (Hbw & Hbh & Hbl & Hbu) Hfew.
  pose proof (pixels_same s s0 Hw Hh) as Hpx.
  destruct (stacked_spec (pixels s0) (b_data <$> fs) Hn1 (fits_data _ _ Hfs))
    as [Hlen Hbound].
  rewrite length_fmap in Hbound.
  rewrite length_app, Nat2Z.inj_add in Hfew. cbn [length] in Hfew.
  rewrite (TauLocal_callback_adds s b (stacked (pixels s0) (b_data <$> fs)))
    in Hcb; [|rewrite ?Hpx; try congruence; try done..].
  2:{ eapply Forall_impl; [exact Hbound|]. unfold INT_MAX.
      intros x Hx. cbn beta in Hx. lia. }
  injection Hcb as <-.
  split_and!; try done.
  - apply Forall_app. split; [done|]. by apply Forall_singleton.
  - cbn. rewrite Hfc, length_app, Nat2Z.inj_add. cbn [length].
    apply wrapu32_id. lia.
  - cbn [stack_data set_frame_count set_stack_data]. rewrite fmap_app.
    f_equal. symmetry. apply stacked_snoc.
Qed.

(** What [expose] hands on holds the frames that came during the
    sleeps of the loop: one more than the clock readings before the stop
    time. *)
Lemma expose_Inv callback
    (Inv : server_info → list TauRawBitmap → Prop)
    (few : list TauRawBitmap → Prop) (e : env) (s s' : server_info)
    (stack : list Z) (t0 t1 now : Q) (early rest : list Q) :
  (∀ l l', few (l ++ l') → few l) →
  (∀ s1 fs b s2, Inv s1 fs → callback s1 b = Ok s2 → frame_fits s b →
                 few (fs ++ [b]) → Inv s2 (fs ++ [b])) →
  (∀ s1 fs, Inv s1 fs → few fs → fs ≠ [] → frame_count s1 ≠ 0) →
  Inv (set_exp_start_ts
         (set_stack_data (set_frame_count s 0)
            (Some (replicate (pixels s) 0))) t0) [] →
  stack_data s = Some stack → length stack = pixels s →
  clock e = t0 :: t1 :: early ++ now :: rest →
  Forall (λ t, dlt (Fin t) (dadd (Fin t1) (etime s)) = true) early →
  dlt (Fin now) (dadd (Fin t1) (etime s)) = false →
  hd [] (arrivals e) ≠ [] →
  Forall (frame_fits s) (concat (arrivals e)) → few (concat (arrivals e)) →
  expose callback e s = Ok (Exposed s') →
  Inv s' (concat (take (S (length early)) (arrivals e))).
Proof.
  intros Hprefix Hstep Hcount Hinit Hst Hlen Hclk Hearly Hnow Hhd Hfit Hfew H.
  unfold expose, clear_stack in H. cbn [stack_data set_frame_count] in H.
  rewrite Hst in H.
  change (pixels (set_frame_count s 0)) with (pixels s) in H.
  destruct (decide _) as [_|Hn]; [|lia].
  rewrite bind_Ok, drop_ge, app_nil_r, Hclk in H by lia.
  eapply (wait_frames_Inv callback Inv (frame_fits s) few Hprefix Hstep
            Hcount) with (fs := []) in H; done.
Qed.

Lemma Qeq_bool_false (a b : Q) : (¬ a == b)%Q → Qeq_bool a b = false.
Proof.
  intros H. destruct (Qeq_bool a b) eqn:E; [|done].
  by apply Qeq_bool_iff in E.
Qed.

Lemma exposure_clock (t1 q now : Q) (early : list Q) :
  Forall (λ t, (t < t1 + q)%Q) early → (t1 + q <= now)%Q →
  Forall (λ t, dlt (Fin t) (dadd (Fin t1) (Fin q)) = true) early ∧
  dlt (Fin now) (dadd (Fin t1) (Fin q)) = false.
Proof.
  intros Hearly Hnow. cbn [dlt dadd]. split.
  - eapply Forall_impl; [exact Hearly|]. intros t Ht. by apply Qltb_true.
  - by apply Qltb_false.
Qed.

Lemma Tau_expose_last_frame (e : env) (s s' : server_info) (stack : list Z)
    (t0 t1 now q : Q) (early rest : list Q) :
  (1 ≤ pixels s)%nat → Z.of_nat (pixels s) ≤ 1073741824 →
  stack_data s = Some stack → length stack = pixels s →
  Forall (frame_fits s) (concat (arrivals e)) →
  Z.of_nat (length (concat (arrivals e))) < 4294967296 →
  hd [] (arrivals e) ≠ [] →
  clock e = t0 :: t1 :: early ++ now :: rest → (¬ t0 == 0)%Q →
  etime s = Fin q → Forall (λ t, (t < t1 + q)%Q) early → (t1 + q <= now)%Q →
  expose Tau.callbackTauImage e s = Ok (Exposed s') →
  last_frame_kept s s' (concat (take (S (length early)) (arrivals e))).
Proof.
  intros Hn1 Hn2 Hst Hlen Hfit Hfew Hhd Hclk Ht0 Hq Hearly Hnow H.
  destruct (exposure_clock t1 q now early Hearly Hnow) as [He Hn].
  eapply (expose_Inv _ (last_frame_kept s)
            (λ l, Z.of_nat (length l) < 4294967296));
    try done; try (by rewrite Hq).
  - intros l l'. rewrite length_app. lia.
  - intros s1 fs b s2 HI Hcb Hb _. by eapply last_frame_kept_step.
  - intros s1 fs (_ & _ & _ & _ & Hc & _) Hl Hne. rewrite Hc, wrapu32_id.
    + destruct fs; [done|]. simpl. lia.
    + lia.
  - split_and!; try done.
    + by apply Qeq_bool_false.
    + eexists. split_and!; [reflexivity|by rewrite length_replicate|done].
Qed.

Lemma TauLocal_expose_sum (e : env) (s s' : server_info) (stack : list Z)
    (t0 t1 now q : Q) (early rest : list Q) :
  (1 ≤ pixels s)%nat → Z.of_nat (pixels s) ≤ 1073741824 →
  stack_data s = Some stack → length stack = pixels s →
  Forall (frame_fits s) (concat (arrivals e)) →
  Z.of_nat (length (concat (arrivals e))) ≤ 32767 →
  hd [] (arrivals e) ≠ [] →
  clock e = t0 :: t1 :: early ++ now :: rest → (¬ t0 == 0)%Q →
  etime s = Fin q → Forall (λ t, (t < t1 + q)%Q) early → (t1 + q <= now)%Q →
  expose TauLocal.callbackTauImage e s = Ok (Exposed s') →
  frames_summed s s' (concat (take (S (length early)) (arrivals e))).
Proof.
  intros Hn1 Hn2 Hst Hlen Hfit Hfew Hhd Hclk Ht0 Hq Hearly Hnow H.
  destruct (exposure_clock t1 q now early Hearly Hnow) as [He Hn].
  eapply (expose_Inv _ (frames_summed s)
            (λ l, Z.of_nat (length l) ≤ 32767));
    try done; try (by rewrite Hq).
  - intros l l'. rewrite length_app. lia.
  - by apply frames_summed_step.
  - intros s1 fs (_ & _ & _ & _ & Hc & _) Hl Hne. rewrite Hc.
    destruct fs; [done|]. simpl. lia.
  - split_and!; try done.
    by apply Qeq_bool_false.
Qed.

(** The scaled image without the wrap-around, for sums and a baseline
    that are less than 2^30 in size. *)
Lemma TauLocal_image_scaled (sum : list Z) (m : Z) :
  Forall (λ x, Z.abs x < 1073741824) sum →
  - 1073741824 < m ≤ 65535 → (∀ x, x ∈ sum → m ≤ x) →
  TauLocal.image sum m =
    map (λ x, if 65535 <? x - m then 65535
              else Qfloor ((4 # 10) * inject_Z (x - m))) sum.
Proof.
  intros Hs Hm Hmin. unfold TauLocal.image. apply map_ext_in.
  intros x Hx%list_elem_of_In. rewrite Forall_forall in Hs.
  pose proof (Hs x Hx). pose proof (Hmin x Hx).
  rewrite wrap32_id by lia. rewrite Z.gtb_ltb.
  destruct (65535 <? x - m) eqn:E; [done|]. apply Z.ltb_ge in E.
  pose proof (Qtrunc_scaled (x - m) ltac:(lia)).
  rewrite wrapu16_id by lia. apply Qtrunc_nonneg.
  apply Qmult_le_0_compat; [done|].
  change 0%Q with (inject_Z 0). rewrite <-Zle_Qle. lia.
Qed.





End exposure_image.
